(** * Isosurface extraction: Marching Cubes tables, the case-table
      generator, the edge interpolator, the Dual Contouring vertex placer
      and the QEF solver.

    Numbers are exact rationals ([Q]): the Python code computes on floats
    and integers, and every statement below is about the arithmetic the
    code writes down, not about rounding.  Python lists that the code
    mutates live in an explicit heap; exceptions are values of [exn]. *)

From Stdlib Require Import ZArith NArith QArith Qminmax Qround Qabs Lia Lqa Bool
  Ascii String.
From stdpp Require Import base option list gmap.

Open Scope nat_scope.

(* ===================================================================== *)
(** * Part I: the program                                                 *)
(* ===================================================================== *)

(** ** marching_cubes_3d.py: cube geometry and the hardcoded table *)

Module MarchingCubes3D.

Definition VERTICES : list (nat * nat * nat) :=
  [ (0, 0, 0); (1, 0, 0); (1, 1, 0); (0, 1, 0);
    (0, 0, 1); (1, 0, 1); (1, 1, 1); (0, 1, 1) ].

Definition EDGES : list (nat * nat) :=
  [ (0, 1); (1, 2); (2, 3); (3, 0);
    (4, 5); (5, 6); (6, 7); (7, 4);
    (0, 4); (1, 5); (2, 6); (3, 7) ].

(** A triangle is a list of three edge identifiers; an entry of the table
    is the list of triangles of one bitmask. *)
Definition cases : list (list (list nat)) := [
  [];  (* 0 *)
  [[8; 0; 3]];
  [[1; 0; 9]];
  [[8; 1; 3]; [8; 9; 1]];
  [[10; 2; 1]];
  [[8; 0; 3]; [1; 10; 2]];
  [[9; 2; 0]; [9; 10; 2]];
  [[3; 8; 2]; [2; 8; 10]; [10; 8; 9]];
  [[3; 2; 11]];
  [[0; 2; 8]; [2; 11; 8]];
  [[1; 0; 9]; [2; 11; 3]];
  [[2; 9; 1]; [11; 9; 2]; [8; 9; 11]];
  [[3; 10; 11]; [3; 1; 10]];
  [[1; 10; 0]; [0; 10; 8]; [8; 10; 11]];
  [[0; 11; 3]; [9; 11; 0]; [10; 11; 9]];
  [[8; 9; 11]; [11; 9; 10]];
  [[7; 4; 8]];  (* 16 *)
  [[3; 7; 0]; [7; 4; 0]];
  [[7; 4; 8]; [9; 1; 0]];
  [[9; 1; 4]; [4; 1; 7]; [7; 1; 3]];
  [[7; 4; 8]; [2; 1; 10]];
  [[4; 3; 7]; [4; 0; 3]; [2; 1; 10]];
  [[2; 0; 10]; [0; 9; 10]; [7; 4; 8]];
  [[9; 10; 4]; [4; 10; 3]; [3; 10; 2]; [4; 3; 7]];
  [[4; 8; 7]; [3; 2; 11]];
  [[7; 4; 11]; [11; 4; 2]; [2; 4; 0]];
  [[1; 0; 9]; [2; 11; 3]; [8; 7; 4]];
  [[2; 11; 1]; [1; 11; 9]; [9; 11; 7]; [9; 7; 4]];
  [[10; 11; 1]; [11; 3; 1]; [4; 8; 7]];
  [[4; 0; 7]; [7; 0; 10]; [0; 1; 10]; [7; 10; 11]];
  [[7; 4; 8]; [0; 11; 3]; [9; 11; 0]; [10; 11; 9]];
  [[4; 11; 7]; [9; 11; 4]; [10; 11; 9]];
  [[9; 4; 5]];  (* 32 *)
  [[9; 4; 5]; [0; 3; 8]];
  [[0; 5; 1]; [0; 4; 5]];
  [[4; 3; 8]; [5; 3; 4]; [1; 3; 5]];
  [[5; 9; 4]; [10; 2; 1]];
  [[8; 0; 3]; [1; 10; 2]; [4; 5; 9]];
  [[10; 4; 5]; [2; 4; 10]; [0; 4; 2]];
  [[3; 10; 2]; [8; 10; 3]; [5; 10; 8]; [4; 5; 8]];
  [[9; 4; 5]; [11; 3; 2]];
  [[11; 0; 2]; [11; 8; 0]; [9; 4; 5]];
  [[5; 1; 4]; [1; 0; 4]; [11; 3; 2]];
  [[5; 1; 4]; [4; 1; 11]; [1; 2; 11]; [4; 11; 8]];
  [[3; 10; 11]; [3; 1; 10]; [5; 9; 4]];
  [[9; 4; 5]; [1; 10; 0]; [0; 10; 8]; [8; 10; 11]];
  [[5; 0; 4]; [11; 0; 5]; [11; 3; 0]; [10; 11; 5]];
  [[5; 10; 4]; [4; 10; 8]; [8; 10; 11]];
  [[9; 7; 5]; [9; 8; 7]];  (* 48 *)
  [[0; 5; 9]; [3; 5; 0]; [7; 5; 3]];
  [[8; 7; 0]; [0; 7; 1]; [1; 7; 5]];
  [[7; 5; 3]; [3; 5; 1]];
  [[7; 5; 8]; [5; 9; 8]; [2; 1; 10]];
  [[10; 2; 1]; [0; 5; 9]; [3; 5; 0]; [7; 5; 3]];
  [[8; 2; 0]; [5; 2; 8]; [10; 2; 5]; [7; 5; 8]];
  [[2; 3; 10]; [10; 3; 5]; [5; 3; 7]];
  [[9; 7; 5]; [9; 8; 7]; [11; 3; 2]];
  [[0; 2; 9]; [9; 2; 7]; [7; 2; 11]; [9; 7; 5]];
  [[3; 2; 11]; [8; 7; 0]; [0; 7; 1]; [1; 7; 5]];
  [[11; 1; 2]; [7; 1; 11]; [5; 1; 7]];
  [[3; 1; 11]; [11; 1; 10]; [8; 7; 9]; [9; 7; 5]];
  [[11; 7; 0]; [7; 5; 0]; [5; 9; 0]; [10; 11; 0]; [1; 10; 0]];
  [[0; 5; 10]; [0; 7; 5]; [0; 8; 7]; [0; 10; 11]; [0; 11; 3]];
  [[10; 11; 5]; [11; 7; 5]];
  [[5; 6; 10]];  (* 64 *)
  [[8; 0; 3]; [10; 5; 6]];
  [[0; 9; 1]; [5; 6; 10]];
  [[8; 1; 3]; [8; 9; 1]; [10; 5; 6]];
  [[1; 6; 2]; [1; 5; 6]];
  [[6; 2; 5]; [2; 1; 5]; [8; 0; 3]];
  [[5; 6; 9]; [9; 6; 0]; [0; 6; 2]];
  [[5; 8; 9]; [2; 8; 5]; [3; 8; 2]; [6; 2; 5]];
  [[3; 2; 11]; [10; 5; 6]];
  [[0; 2; 8]; [2; 11; 8]; [5; 6; 10]];
  [[3; 2; 11]; [0; 9; 1]; [10; 5; 6]];
  [[5; 6; 10]; [2; 9; 1]; [11; 9; 2]; [8; 9; 11]];
  [[11; 3; 6]; [6; 3; 5]; [5; 3; 1]];
  [[11; 8; 6]; [6; 8; 1]; [1; 8; 0]; [6; 1; 5]];
  [[5; 0; 9]; [6; 0; 5]; [3; 0; 6]; [11; 3; 6]];
  [[6; 9; 5]; [11; 9; 6]; [8; 9; 11]];
  [[7; 4; 8]; [6; 10; 5]];  (* 80 *)
  [[3; 7; 0]; [7; 4; 0]; [10; 5; 6]];
  [[7; 4; 8]; [6; 10; 5]; [9; 1; 0]];
  [[5; 6; 10]; [9; 1; 4]; [4; 1; 7]; [7; 1; 3]];
  [[1; 6; 2]; [1; 5; 6]; [7; 4; 8]];
  [[6; 1; 5]; [2; 1; 6]; [0; 7; 4]; [3; 7; 0]];
  [[4; 8; 7]; [5; 6; 9]; [9; 6; 0]; [0; 6; 2]];
  [[2; 3; 9]; [3; 7; 9]; [7; 4; 9]; [6; 2; 9]; [5; 6; 9]];
  [[2; 11; 3]; [7; 4; 8]; [10; 5; 6]];
  [[6; 10; 5]; [7; 4; 11]; [11; 4; 2]; [2; 4; 0]];
  [[1; 0; 9]; [8; 7; 4]; [3; 2; 11]; [5; 6; 10]];
  [[1; 2; 9]; [9; 2; 11]; [9; 11; 4]; [4; 11; 7]; [5; 6; 10]];
  [[7; 4; 8]; [11; 3; 6]; [6; 3; 5]; [5; 3; 1]];
  [[11; 0; 1]; [11; 4; 0]; [11; 7; 4]; [11; 1; 5]; [11; 5; 6]];
  [[6; 9; 5]; [0; 9; 6]; [11; 0; 6]; [3; 0; 11]; [4; 8; 7]];
  [[5; 6; 9]; [9; 6; 11]; [9; 11; 7]; [9; 7; 4]];
  [[4; 10; 9]; [4; 6; 10]];  (* 96 *)
  [[10; 4; 6]; [10; 9; 4]; [8; 0; 3]];
  [[1; 0; 10]; [10; 0; 6]; [6; 0; 4]];
  [[8; 1; 3]; [6; 1; 8]; [6; 10; 1]; [4; 6; 8]];
  [[9; 2; 1]; [4; 2; 9]; [6; 2; 4]];
  [[3; 8; 0]; [9; 2; 1]; [4; 2; 9]; [6; 2; 4]];
  [[0; 4; 2]; [2; 4; 6]];
  [[8; 2; 3]; [4; 2; 8]; [6; 2; 4]];
  [[4; 10; 9]; [4; 6; 10]; [2; 11; 3]];
  [[11; 8; 2]; [2; 8; 0]; [6; 10; 4]; [4; 10; 9]];
  [[2; 11; 3]; [1; 0; 10]; [10; 0; 6]; [6; 0; 4]];
  [[8; 4; 1]; [4; 6; 1]; [6; 10; 1]; [11; 8; 1]; [2; 11; 1]];
  [[3; 1; 11]; [11; 1; 4]; [1; 9; 4]; [11; 4; 6]];
  [[6; 11; 1]; [11; 8; 1]; [8; 0; 1]; [4; 6; 1]; [9; 4; 1]];
  [[3; 0; 11]; [11; 0; 6]; [6; 0; 4]];
  [[4; 11; 8]; [4; 6; 11]];
  [[6; 8; 7]; [10; 8; 6]; [9; 8; 10]];  (* 112 *)
  [[3; 7; 0]; [0; 7; 10]; [7; 6; 10]; [0; 10; 9]];
  [[1; 6; 10]; [0; 6; 1]; [7; 6; 0]; [8; 7; 0]];
  [[10; 1; 6]; [6; 1; 7]; [7; 1; 3]];
  [[9; 8; 1]; [1; 8; 6]; [6; 8; 7]; [1; 6; 2]];
  [[9; 7; 6]; [9; 3; 7]; [9; 0; 3]; [9; 6; 2]; [9; 2; 1]];
  [[7; 6; 8]; [8; 6; 0]; [0; 6; 2]];
  [[3; 6; 2]; [3; 7; 6]];
  [[3; 2; 11]; [6; 8; 7]; [10; 8; 6]; [9; 8; 10]];
  [[7; 9; 0]; [7; 10; 9]; [7; 6; 10]; [7; 0; 2]; [7; 2; 11]];
  [[0; 10; 1]; [6; 10; 0]; [8; 6; 0]; [7; 6; 8]; [2; 11; 3]];
  [[1; 6; 10]; [7; 6; 1]; [11; 7; 1]; [2; 11; 1]];
  [[1; 9; 6]; [9; 8; 6]; [8; 7; 6]; [3; 1; 6]; [11; 3; 6]];
  [[9; 0; 1]; [11; 7; 6]];
  [[0; 11; 3]; [6; 11; 0]; [7; 6; 0]; [8; 7; 0]];
  [[7; 6; 11]];
  [[11; 6; 7]];  (* 128 *)
  [[3; 8; 0]; [11; 6; 7]];
  [[1; 0; 9]; [6; 7; 11]];
  [[1; 3; 9]; [3; 8; 9]; [6; 7; 11]];
  [[10; 2; 1]; [6; 7; 11]];
  [[10; 2; 1]; [3; 8; 0]; [6; 7; 11]];
  [[9; 2; 0]; [9; 10; 2]; [11; 6; 7]];
  [[11; 6; 7]; [3; 8; 2]; [2; 8; 10]; [10; 8; 9]];
  [[2; 6; 3]; [6; 7; 3]];
  [[8; 6; 7]; [0; 6; 8]; [2; 6; 0]];
  [[7; 2; 6]; [7; 3; 2]; [1; 0; 9]];
  [[8; 9; 7]; [7; 9; 2]; [2; 9; 1]; [7; 2; 6]];
  [[6; 1; 10]; [7; 1; 6]; [3; 1; 7]];
  [[8; 0; 7]; [7; 0; 6]; [6; 0; 1]; [6; 1; 10]];
  [[7; 3; 6]; [6; 3; 9]; [3; 0; 9]; [6; 9; 10]];
  [[7; 8; 6]; [6; 8; 10]; [10; 8; 9]];
  [[8; 11; 4]; [11; 6; 4]];  (* 144 *)
  [[11; 0; 3]; [6; 0; 11]; [4; 0; 6]];
  [[6; 4; 11]; [4; 8; 11]; [1; 0; 9]];
  [[1; 3; 9]; [9; 3; 6]; [3; 11; 6]; [9; 6; 4]];
  [[8; 11; 4]; [11; 6; 4]; [1; 10; 2]];
  [[1; 10; 2]; [11; 0; 3]; [6; 0; 11]; [4; 0; 6]];
  [[2; 9; 10]; [0; 9; 2]; [4; 11; 6]; [8; 11; 4]];
  [[3; 4; 9]; [3; 6; 4]; [3; 11; 6]; [3; 9; 10]; [3; 10; 2]];
  [[3; 2; 8]; [8; 2; 4]; [4; 2; 6]];
  [[2; 4; 0]; [6; 4; 2]];
  [[0; 9; 1]; [3; 2; 8]; [8; 2; 4]; [4; 2; 6]];
  [[1; 2; 9]; [9; 2; 4]; [4; 2; 6]];
  [[10; 3; 1]; [4; 3; 10]; [4; 8; 3]; [6; 4; 10]];
  [[10; 0; 1]; [6; 0; 10]; [4; 0; 6]];
  [[3; 10; 6]; [3; 9; 10]; [3; 0; 9]; [3; 6; 4]; [3; 4; 8]];
  [[9; 10; 4]; [10; 6; 4]];
  [[9; 4; 5]; [7; 11; 6]];  (* 160 *)
  [[9; 4; 5]; [7; 11; 6]; [0; 3; 8]];
  [[0; 5; 1]; [0; 4; 5]; [6; 7; 11]];
  [[11; 6; 7]; [4; 3; 8]; [5; 3; 4]; [1; 3; 5]];
  [[1; 10; 2]; [9; 4; 5]; [6; 7; 11]];
  [[8; 0; 3]; [4; 5; 9]; [10; 2; 1]; [11; 6; 7]];
  [[7; 11; 6]; [10; 4; 5]; [2; 4; 10]; [0; 4; 2]];
  [[8; 2; 3]; [10; 2; 8]; [4; 10; 8]; [5; 10; 4]; [11; 6; 7]];
  [[2; 6; 3]; [6; 7; 3]; [9; 4; 5]];
  [[5; 9; 4]; [8; 6; 7]; [0; 6; 8]; [2; 6; 0]];
  [[7; 3; 6]; [6; 3; 2]; [4; 5; 0]; [0; 5; 1]];
  [[8; 1; 2]; [8; 5; 1]; [8; 4; 5]; [8; 2; 6]; [8; 6; 7]];
  [[9; 4; 5]; [6; 1; 10]; [7; 1; 6]; [3; 1; 7]];
  [[7; 8; 6]; [6; 8; 0]; [6; 0; 10]; [10; 0; 1]; [5; 9; 4]];
  [[3; 0; 10]; [0; 4; 10]; [4; 5; 10]; [7; 3; 10]; [6; 7; 10]];
  [[8; 6; 7]; [10; 6; 8]; [5; 10; 8]; [4; 5; 8]];
  [[5; 9; 6]; [6; 9; 11]; [11; 9; 8]];  (* 176 *)
  [[11; 6; 3]; [3; 6; 0]; [0; 6; 5]; [0; 5; 9]];
  [[8; 11; 0]; [0; 11; 5]; [5; 11; 6]; [0; 5; 1]];
  [[6; 3; 11]; [5; 3; 6]; [1; 3; 5]];
  [[10; 2; 1]; [5; 9; 6]; [6; 9; 11]; [11; 9; 8]];
  [[3; 11; 0]; [0; 11; 6]; [0; 6; 9]; [9; 6; 5]; [1; 10; 2]];
  [[0; 8; 5]; [8; 11; 5]; [11; 6; 5]; [2; 0; 5]; [10; 2; 5]];
  [[11; 6; 3]; [3; 6; 5]; [3; 5; 10]; [3; 10; 2]];
  [[3; 9; 8]; [6; 9; 3]; [5; 9; 6]; [2; 6; 3]];
  [[9; 6; 5]; [0; 6; 9]; [2; 6; 0]];
  [[6; 5; 8]; [5; 1; 8]; [1; 0; 8]; [2; 6; 8]; [3; 2; 8]];
  [[2; 6; 1]; [6; 5; 1]];
  [[6; 8; 3]; [6; 9; 8]; [6; 5; 9]; [6; 3; 1]; [6; 1; 10]];
  [[1; 10; 0]; [0; 10; 6]; [0; 6; 5]; [0; 5; 9]];
  [[3; 0; 8]; [6; 5; 10]];
  [[10; 6; 5]];
  [[5; 11; 10]; [5; 7; 11]];  (* 192 *)
  [[5; 11; 10]; [5; 7; 11]; [3; 8; 0]];
  [[11; 10; 7]; [10; 5; 7]; [0; 9; 1]];
  [[5; 7; 10]; [10; 7; 11]; [9; 1; 8]; [8; 1; 3]];
  [[2; 1; 11]; [11; 1; 7]; [7; 1; 5]];
  [[3; 8; 0]; [2; 1; 11]; [11; 1; 7]; [7; 1; 5]];
  [[2; 0; 11]; [11; 0; 5]; [5; 0; 9]; [11; 5; 7]];
  [[2; 9; 5]; [2; 8; 9]; [2; 3; 8]; [2; 5; 7]; [2; 7; 11]];
  [[10; 3; 2]; [5; 3; 10]; [7; 3; 5]];
  [[10; 0; 2]; [7; 0; 10]; [8; 0; 7]; [5; 7; 10]];
  [[0; 9; 1]; [10; 3; 2]; [5; 3; 10]; [7; 3; 5]];
  [[7; 8; 2]; [8; 9; 2]; [9; 1; 2]; [5; 7; 2]; [10; 5; 2]];
  [[3; 1; 7]; [7; 1; 5]];
  [[0; 7; 8]; [1; 7; 0]; [5; 7; 1]];
  [[9; 5; 0]; [0; 5; 3]; [3; 5; 7]];
  [[5; 7; 9]; [7; 8; 9]];
  [[4; 10; 5]; [8; 10; 4]; [11; 10; 8]];  (* 208 *)
  [[3; 4; 0]; [10; 4; 3]; [10; 5; 4]; [11; 10; 3]];
  [[1; 0; 9]; [4; 10; 5]; [8; 10; 4]; [11; 10; 8]];
  [[4; 3; 11]; [4; 1; 3]; [4; 9; 1]; [4; 11; 10]; [4; 10; 5]];
  [[1; 5; 2]; [2; 5; 8]; [5; 4; 8]; [2; 8; 11]];
  [[5; 4; 11]; [4; 0; 11]; [0; 3; 11]; [1; 5; 11]; [2; 1; 11]];
  [[5; 11; 2]; [5; 8; 11]; [5; 4; 8]; [5; 2; 0]; [5; 0; 9]];
  [[5; 4; 9]; [2; 3; 11]];
  [[3; 4; 8]; [2; 4; 3]; [5; 4; 2]; [10; 5; 2]];
  [[5; 4; 10]; [10; 4; 2]; [2; 4; 0]];
  [[2; 8; 3]; [4; 8; 2]; [10; 4; 2]; [5; 4; 10]; [0; 9; 1]];
  [[4; 10; 5]; [2; 10; 4]; [1; 2; 4]; [9; 1; 4]];
  [[8; 3; 4]; [4; 3; 5]; [5; 3; 1]];
  [[1; 5; 0]; [5; 4; 0]];
  [[5; 0; 9]; [3; 0; 5]; [8; 3; 5]; [4; 8; 5]];
  [[5; 4; 9]];
  [[7; 11; 4]; [4; 11; 9]; [9; 11; 10]];  (* 224 *)
  [[8; 0; 3]; [7; 11; 4]; [4; 11; 9]; [9; 11; 10]];
  [[0; 4; 1]; [1; 4; 11]; [4; 7; 11]; [1; 11; 10]];
  [[10; 1; 4]; [1; 3; 4]; [3; 8; 4]; [11; 10; 4]; [7; 11; 4]];
  [[9; 4; 1]; [1; 4; 2]; [2; 4; 7]; [2; 7; 11]];
  [[1; 9; 2]; [2; 9; 4]; [2; 4; 11]; [11; 4; 7]; [3; 8; 0]];
  [[11; 4; 7]; [2; 4; 11]; [0; 4; 2]];
  [[7; 11; 4]; [4; 11; 2]; [4; 2; 3]; [4; 3; 8]];
  [[10; 9; 2]; [2; 9; 7]; [7; 9; 4]; [2; 7; 3]];
  [[2; 10; 7]; [10; 9; 7]; [9; 4; 7]; [0; 2; 7]; [8; 0; 7]];
  [[10; 4; 7]; [10; 0; 4]; [10; 1; 0]; [10; 7; 3]; [10; 3; 2]];
  [[8; 4; 7]; [10; 1; 2]];
  [[4; 1; 9]; [7; 1; 4]; [3; 1; 7]];
  [[8; 0; 7]; [7; 0; 1]; [7; 1; 9]; [7; 9; 4]];
  [[0; 7; 3]; [0; 4; 7]];
  [[8; 4; 7]];
  [[9; 8; 10]; [10; 8; 11]];  (* 240 *)
  [[3; 11; 0]; [0; 11; 9]; [9; 11; 10]];
  [[0; 10; 1]; [8; 10; 0]; [11; 10; 8]];
  [[11; 10; 3]; [10; 1; 3]];
  [[1; 9; 2]; [2; 9; 11]; [11; 9; 8]];
  [[9; 2; 1]; [11; 2; 9]; [3; 11; 9]; [0; 3; 9]];
  [[8; 2; 0]; [8; 11; 2]];
  [[11; 2; 3]];
  [[2; 8; 3]; [10; 8; 2]; [9; 8; 10]];
  [[0; 2; 9]; [2; 10; 9]];
  [[3; 2; 8]; [8; 2; 10]; [8; 10; 1]; [8; 1; 0]];
  [[1; 2; 10]];
  [[3; 1; 8]; [1; 9; 8]];
  [[9; 0; 1]];
  [[3; 0; 8]];
  []
].

(** [case = sum(2**v for v in range(8) if f_eval[v] > 0)]: corner [v] is
    solid under [bits] when bit [v] is set. *)
Definition solid (bits v : nat) : bool := N.testbit (N.of_nat bits) (N.of_nat v).

End MarchingCubes3D.

(** ** marching_cubes_gen.py: the case-table generator *)

Module CaseGen.

Definition VERTICES : list (nat * nat * nat) :=
  [ (0, 0, 0); (1, 0, 0); (1, 1, 0); (0, 1, 0);
    (0, 0, 1); (1, 0, 1); (1, 1, 1); (0, 1, 1) ].

Definition EDGES : list (nat * nat) :=
  [ (0, 1); (1, 2); (2, 3); (3, 0);
    (4, 5); (5, 6); (6, 7); (7, 4);
    (0, 4); (1, 5); (2, 6); (3, 7) ].

(** [EDGES_BY_VERTSET[frozenset([v1, v2])] = e], filled in the order of
    [enumerate(EDGES)]. *)
Definition EDGES_BY_VERTSET : gmap (gset nat) nat :=
  foldl (λ m '(e, (v1, v2)), <[ ({[ v1; v2 ]} : gset nat) := e ]> m) ∅
        (zip (seq 0 (length EDGES)) EDGES).

Abbreviation faces := (list (list nat)).

(** The dict keys are written as binary literals in the source; [bin]
    reads one ([bin "101"] is [0b101]). *)
Definition bin (s : string) : N :=
  foldl (λ acc c, (2 * acc + (if Ascii.eqb c "1" then 1 else 0))%N) 0%N
        (list_ascii_of_string s).

(** A Python dict iterates in insertion order, and the generator's loop
    order decides which derivation of a bitmask is kept: the two literal
    dicts are association lists in source order. *)
Definition BASE_CASES : list (N * faces) := [
  (bin "00000000", []);
  (bin "00000001", [[8; 0; 3]]);
  (bin "00000011", [[8; 1; 3]; [8; 9; 1]]);
  (bin "00000101", [[8; 0; 3]; [1; 10; 2]]);
  (bin "01000001", [[8; 0; 3]; [10; 5; 6]]);
  (bin "00110010", [[8; 7; 0]; [0; 7; 1]; [1; 7; 5]]);
  (bin "01000011", [[8; 1; 3]; [8; 9; 1]; [10; 5; 6]]);
  (bin "01001010", [[3; 2; 11]; [0; 9; 1]; [10; 5; 6]]);
  (bin "00110011", [[7; 5; 3]; [3; 5; 1]]);
  (bin "10110001", [[11; 6; 3]; [3; 6; 0]; [0; 6; 5]; [0; 5; 9]]);
  (bin "01101001", [[11; 8; 2]; [2; 8; 0]; [6; 10; 4]; [4; 10; 9]]);
  (bin "01110001", [[3; 7; 0]; [0; 7; 10]; [7; 6; 10]; [0; 10; 9]]);
  (bin "00111010", [[3; 2; 11]; [8; 7; 0]; [0; 7; 1]; [1; 7; 5]]);
  (bin "10100101", [[8; 0; 3]; [4; 5; 9]; [10; 2; 1]; [11; 6; 7]]);
  (bin "10110010", [[8; 11; 0]; [0; 11; 5]; [5; 11; 6]; [0; 5; 1]]) ].

Definition INVERSE_CASES : list (N * faces) := [
  ((255 - bin "00000101")%N, [[3; 2; 8]; [8; 2; 10]; [8; 10; 1]; [8; 1; 0]]);
  ((255 - bin "01000011")%N, [[6; 8; 3]; [6; 9; 8]; [6; 5; 9]; [6; 3; 1]; [6; 1; 10]]);
  ((255 - bin "01001010")%N, [[3; 11; 0]; [0; 11; 6]; [0; 6; 9]; [9; 6; 5]; [1; 10; 2]]) ].

(** [d[k] = v] for each pair of [kvs], in order. *)
Definition dict_assign (d : gmap N faces) (kvs : list (N * faces)) : gmap N faces :=
  foldl (λ m kv, <[ kv.1 := kv.2 ]> m) d kvs.

(** [ALL_CASES = BASE_CASES.copy()], then the inverse cases are added. *)
Definition ALL_CASES_initial : gmap N faces :=
  dict_assign (dict_assign ∅ BASE_CASES) INVERSE_CASES.

Definition ROTATE_1 : list nat := [1; 2; 3; 0; 5; 6; 7; 4].
Definition ROTATE_2 : list nat := [3; 2; 6; 7; 0; 1; 5; 4].
Definition ROTATE_3 : list nat := [1; 5; 6; 2; 0; 4; 7; 3].
Definition REFLECT  : list nat := [1; 0; 3; 2; 5; 4; 7; 6].

(** [[v for v in range(8) if 2**v & n > 0]] *)
Definition bits_to_verts (n : N) : list nat :=
  List.filter (λ v, (0 <? N.land (2 ^ N.of_nat v) n)%N) (seq 0 8).

(** [sum(2**v for v in vs)] *)
Definition verts_to_bits (vs : list nat) : N :=
  foldl (λ acc v, (acc + 2 ^ N.of_nat v)%N) 0%N vs.

(** Indexing a list ([op[v]], [EDGES[e]]) or the dict can fail; [None] is
    the IndexError or KeyError. *)
Definition bits_apply (op : list nat) (n : N) : option N :=
  vs ← mapM (λ v, op !! v) (bits_to_verts n);
  Some (verts_to_bits vs).

Definition edge_apply (op : list nat) (e : nat) : option nat :=
  '(v1, v2) ← EDGES !! e;
  a ← op !! v1;
  b ← op !! v2;
  EDGES_BY_VERTSET !! ({[ a; b ]} : gset nat).

Definition faces_apply (op : list nat) (fs : faces) : option faces :=
  mapM (mapM (edge_apply op)) fs.

Fixpoint operations_apply (ops : list (list nat)) (fs : faces) : option faces :=
  match ops with
  | [] => Some fs
  | op :: ops' => fs' ← faces_apply op fs; operations_apply ops' fs'
  end.

Definition OPERATIONS : list (list (list nat)) :=
  [ [ROTATE_1; ROTATE_1; ROTATE_1]; [ROTATE_2]; [ROTATE_3]; [REFLECT] ].

(** One pass of the loop body:
    [result = operations_apply(op_set, faces)], then
    [ALL_CASES[bits_apply(op_set[-1], base)] = result]. *)
Definition derive (op_set : list (list nat)) (base : N) (fs : faces)
  : option (N * faces) :=
  result ← operations_apply op_set fs;
  op ← last op_set;
  key ← bits_apply op base;
  Some (key, result).

Fixpoint inner_loop (op_set : list (list nat)) (items : list (N * faces))
    (all : gmap N faces) : option (gmap N faces) :=
  match items with
  | [] => Some all
  | (base, fs) :: items' =>
      '(key, result) ← derive op_set base fs;
      inner_loop op_set items' (<[ key := result ]> all)
  end.

Fixpoint outer_loop (op_sets : list (list (list nat))) (all : gmap N faces)
  : option (gmap N faces) :=
  match op_sets with
  | [] => Some all
  | op_set :: rest => all' ← inner_loop op_set BASE_CASES all; outer_loop rest all'
  end.

(** The table once the module-level loop has run. *)
Definition ALL_CASES : option (gmap N faces) :=
  outer_loop OPERATIONS ALL_CASES_initial.

(** The assignments the loop performs, in order, without the dict. *)
Definition derivations : option (list (N * faces)) :=
  mapM (λ '(op_set, (base, fs)), derive op_set base fs)
       (op_set ← OPERATIONS; (λ item, (op_set, item)) <$> BASE_CASES).

(** [test1]: every triangle edge is between a solid and an empty vertex.
    [true] when no assertion fails. *)
Definition test1 (all : gmap N faces) : bool :=
  forallb (λ '(bits, fs),
    forallb (forallb (λ e,
      match EDGES !! e with
      | Some (v1, v2) =>
          negb (eqb (0 <? N.land (2 ^ N.of_nat v1) bits)%N
                    (0 <? N.land (2 ^ N.of_nat v2) bits)%N)
      | None => false
      end)) fs) (map_to_list all).

End CaseGen.

(** ** A small model of the Python runtime *)

Module Py.

Inductive exn : Set :=
  | AssertionError | IndexError | KeyError | TypeError | ValueError | LinAlgError.

(** The outcome of evaluating an expression: a value, or a raised exception. *)
Inductive result (A : Type) : Type :=
  | Ok (a : A)
  | Raise (e : exn).
Arguments Ok {A} a.
Arguments Raise {A} e.

#[export] Instance result_ret : MRet result := λ A a, Ok a.
#[export] Instance result_bind : MBind result :=
  λ A B k m, match m with Ok a => k a | Raise e => Raise e end.
#[export] Instance result_fmap : FMap result :=
  λ A B g m, match m with Ok a => Ok (g a) | Raise e => Raise e end.

Definition is_ok {A} (r : result A) : bool :=
  match r with Ok _ => true | Raise _ => false end.

(** [l[i]] on a list or tuple, for a non-negative index. *)
Definition getitem {A} (l : list A) (i : nat) : result A :=
  match l !! i with Some a => Ok a | None => Raise IndexError end.

(** [assert c] *)
Definition assert (c : bool) : result unit :=
  if c then Ok tt else Raise AssertionError.

(** Strict comparison of numbers, [a < b]; [a <= b] is [Qle_bool] and
    [a == b] is [Qeq_bool]. *)
Definition Qlt_bool (a b : Q) : bool := negb (Qle_bool b a).

End Py.
Export Py.

(** ** settings.py *)

Module Settings.

Record settings : Set := {
  ADAPTIVE : bool;
  CLIP : bool;
  BOUNDARY : bool;
  BIAS : bool;
  BIAS_STRENGTH : Q;
  CELL_SIZE : Q
}.

(** The values the module assigns. *)
Definition defaults : settings := {|
  ADAPTIVE := true;
  CLIP := false;
  BOUNDARY := true;
  BIAS := true;
  BIAS_STRENGTH := 0.01;
  CELL_SIZE := 1
|}.

End Settings.
Export Settings.

(** ** common.py *)

Module Common.
Section WithSettings.
Variable cfg : settings.

(** [adapt(v0, v1)] *)
Definition adapt (v0 v1 : Q) : result Q :=
  _ ← assert (negb (eqb (Qlt_bool 0 v1) (Qlt_bool 0 v0)));
  if ADAPTIVE cfg
  then Ok ((0 - v0) / (v1 - v0) * CELL_SIZE cfg)%Q
  else Ok (0.5 * CELL_SIZE cfg)%Q.

End WithSettings.
End Common.

(** ** marching_cubes_2d_prop.py *)

Module MarchingCubes2DProp.

Definition ADAPTIVE : bool := true.
Definition CELL_SIZE : Q := 1.

Record V2 : Set := mk_V2 { V2_x : Q; V2_y : Q }.

(** The module's own copy of [adapt]. *)
Definition adapt (v0 v1 : Q) : result Q :=
  _ ← assert (negb (eqb (Qlt_bool 0 v1) (Qlt_bool 0 v0)));
  if ADAPTIVE
  then Ok ((0 - v0) / (v1 - v0) * CELL_SIZE)%Q
  else Ok (0.5 * CELL_SIZE)%Q.

Section WithProperty.
(** The values of the property field: anything Python can compare with
    [==]. *)
Context {P : Type} `{EqDecision P}.

Record Edge : Type := mk_Edge { v1 : V2; v2 : V2; prop : P }.

(** [split_edge(v1, v2, prop1, prop2)] *)
Definition split_edge (v1 v2 : V2) (prop1 prop2 : P) : list Edge :=
  if decide (prop1 = prop2) then [mk_Edge v1 v2 prop1]
  else
    let mid_point := mk_V2 ((V2_x v1 + V2_x v2) / 2) ((V2_y v1 + V2_y v2) / 2) in
    [mk_Edge v1 mid_point prop1; mk_Edge mid_point v2 prop2].

(** The four corners of a cell, named as the local variables are. *)
Inductive corner : Set := x0y0 | x0y1 | x1y0 | x1y1.

Definition corner_x (x : Q) (c : corner) : Q :=
  match c with x0y0 | x0y1 => x | x1y0 | x1y1 => (x + CELL_SIZE)%Q end.
Definition corner_y (y : Q) (c : corner) : Q :=
  match c with x0y0 | x1y0 => y | x0y1 | x1y1 => (y + CELL_SIZE)%Q end.

(** One end of an output segment, as a branch computes it: the offset
    [a = adapt(first, second)], the position [v] and the property [p].
    [bv_first] and [bv_second] record which samples the [adapt] call was
    given. *)
Record boundary_vertex : Type := {
  bv_first : corner;
  bv_second : corner;
  bv_a : Q;
  bv_v : V2;
  bv_p : P
}.

Section Cell.
Variable f : Q → Q → Q.
Variable f_property : Q → Q → P.
Variables x y : Q.

Definition sample (c : corner) : Q := f (corner_x x c) (corner_y y c).
Definition p_ (c : corner) : P := f_property (corner_x x c) (corner_y y c).

(** [a = adapt(c0, c1)], [v = V2(...a...)],
    [p = p_lo if a <= 0.5 else p_hi]. *)
Definition end_of (c0 c1 : corner) (v : Q → V2) (lo hi : corner)
  : result boundary_vertex :=
  a ← adapt (sample c0) (sample c1);
  Ok {| bv_first := c0; bv_second := c1; bv_a := a; bv_v := v a;
        bv_p := if Qle_bool a 0.5 then p_ lo else p_ hi |}.

Definition on_bottom (a : Q) : V2 := mk_V2 (x + a) y.
Definition on_left (a : Q) : V2 := mk_V2 x (y + a).
Definition on_top (a : Q) : V2 := mk_V2 (x + a) (y + CELL_SIZE).
Definition on_right (a : Q) : V2 := mk_V2 (x + CELL_SIZE) (y + a).

Definition case_of : nat :=
  (if Qlt_bool 0 (sample x0y0) then 1 else 0) +
  (if Qlt_bool 0 (sample x0y1) then 2 else 0) +
  (if Qlt_bool 0 (sample x1y0) then 4 else 0) +
  (if Qlt_bool 0 (sample x1y1) then 8 else 0).

(** The pairs [(end 1, end 2)], [(end 3, end 4)] the branch of the cell's
    case hands to [split_edge], with the [adapt] calls in source order. *)
Definition cell_ends : result (list (boundary_vertex * boundary_vertex)) :=
  match case_of with
  | 0 | 15 => Ok []
  | 1 | 14 =>
      e1 ← end_of x0y0 x1y0 on_bottom x0y0 x1y0;
      e2 ← end_of x0y0 x0y1 on_left x0y0 x0y1;
      Ok [(e1, e2)]
  | 2 | 13 =>
      e1 ← end_of x0y0 x0y1 on_left x0y0 x0y1;
      e2 ← end_of x0y1 x1y1 on_top x0y1 x1y1;
      Ok [(e1, e2)]
  | 4 | 11 =>
      e1 ← end_of x1y0 x1y1 on_right x1y0 x1y1;
      e2 ← end_of x0y0 x1y0 on_bottom x0y0 x1y0;
      Ok [(e1, e2)]
  | 8 | 7 =>
      e1 ← end_of x0y1 x1y1 on_top x0y1 x1y1;
      e2 ← end_of x1y0 x1y1 on_right x1y0 x1y1;
      Ok [(e1, e2)]
  | 3 | 12 =>
      e1 ← end_of x0y0 x1y0 on_bottom x0y0 x1y0;
      e2 ← end_of x0y1 x1y1 on_top x0y1 x1y1;
      Ok [(e1, e2)]
  | 5 | 10 =>
      e1 ← end_of x0y0 x0y1 on_left x0y0 x0y1;
      e2 ← end_of x1y0 x1y1 on_right x1y0 x1y1;
      Ok [(e1, e2)]
  | 9 =>
      e1 ← end_of x0y0 x0y1 on_bottom x0y0 x1y0;
      e2 ← end_of x0y0 x0y1 on_left x0y0 x0y1;
      e3 ← end_of x0y1 x1y1 on_top x0y1 x1y1;
      e4 ← end_of x1y0 x1y1 on_right x1y0 x1y1;
      Ok [(e1, e2); (e3, e4)]
  | 6 =>
      e1 ← end_of x1y0 x1y1 on_right x1y0 x1y1;
      e2 ← end_of x0y0 x1y0 on_bottom x0y0 x1y0;
      e3 ← end_of x0y0 x0y1 on_left x0y0 x0y1;
      e4 ← end_of x0y1 x1y1 on_top x0y1 x1y1;
      Ok [(e1, e2); (e3, e4)]
  | _ => Ok []
  end.

(** [marching_cubes_2d_single_cell(f, f_property, x, y)]; the [print]
    calls are left out. *)
Definition marching_cubes_2d_single_cell : result (list Edge) :=
  ends ← cell_ends;
  Ok (ends ≫= λ e12, split_edge (bv_v e12.1) (bv_v e12.2) (bv_p e12.1) (bv_p e12.2)).

End Cell.
End WithProperty.
End MarchingCubes2DProp.

(** ** The heap of Python lists

    [positions] and [normals] are lists the caller owns and [solve_qef_*]
    appends to; [fixed_values] is a list [fix_axis] copies and then
    assigns into.  They live in a heap and are passed by location. *)

Module Heap.

(** An entry of a list of points: a vector (a list, tuple or 1-D array of
    numbers), or the scalar [nan] that [numpy.mean] gives for an empty
    list. *)
Inductive item : Set :=
  | Vec (v : list Q)
  | NanScalar.

Inductive obj : Set :=
  | Points (l : list item)          (* positions, normals *)
  | Fixed (l : list (option Q)).    (* fixed_values; [None] is a free slot *)

Abbreviation loc := nat.
Abbreviation heap := (list obj).

(** A computation on the heap.  The heap is returned also when an
    exception is raised: what was appended stays appended. *)
Definition M (A : Type) : Type := heap → heap * result A.

#[export] Instance M_ret : MRet M := λ A a h, (h, Ok a).
#[export] Instance M_bind : MBind M :=
  λ A B k m h, match m h with
               | (h', Ok a) => k a h'
               | (h', Raise e) => (h', Raise e)
               end.

Definition lift {A} (r : result A) : M A := λ h, (h, r).

(** A new list object. *)
Definition alloc (o : obj) : M loc := λ h, (h ++ [o], Ok (length h)).

Definition read_points (l : loc) : M (list item) :=
  λ h, match h !! l with
       | Some (Points ps) => (h, Ok ps)
       | _ => (h, Raise TypeError)
       end.

Definition read_fixed (l : loc) : M (list (option Q)) :=
  λ h, match h !! l with
       | Some (Fixed fv) => (h, Ok fv)
       | _ => (h, Raise TypeError)
       end.

(** [l.append(it)] *)
Definition append (l : loc) (it : item) : M unit :=
  λ h, match h !! l with
       | Some (Points ps) => (<[l := Points (ps ++ [it])]> h, Ok tt)
       | _ => (h, Raise TypeError)
       end.

(** [l[i] = v] on a list of fixed values. *)
Definition setitem_fixed (l : loc) (i : nat) (v : option Q) : M unit :=
  λ h, match h !! l with
       | Some (Fixed fv) =>
           if decide (i < length fv)%nat
           then (<[l := Fixed (<[i := v]> fv)]> h, Ok tt)
           else (h, Raise IndexError)
       | _ => (h, Raise TypeError)
       end.

End Heap.
Export Heap.

(** ** qef.py *)

Module Qef.

Abbreviation vec := (list Q).
(** A 2-D array, as the list of its rows. *)
Abbreviation matrix := (list (list Q)).

Record V2 : Set := mk_V2 { V2_x : Q; V2_y : Q }.
Record V3 : Set := mk_V3 { V3_x : Q; V3_y : Q; V3_z : Q }.

(** *** numpy on exact numbers *)

(** Elementwise [op] on two 1-D operands, with numpy's broadcasting of a
    one-element operand. *)
Definition np_broadcast (op : Q → Q → Q) (u v : vec) : result vec :=
  if decide (length u = length v) then Ok (zip_with op u v)
  else match u, v with
       | [a], _ => Ok (op a <$> v)
       | _, [c] => Ok ((λ a, op a c) <$> u)
       | _, _ => Raise ValueError
       end.

(** [numpy.array(l)] for a list of points: a 2-D array when the entries
    are vectors of one length.  A list of scalars would give a 1-D array;
    the code then indexes it as 2-D, which is the IndexError here. *)
Definition np_array (l : list item) : result matrix :=
  match l with
  | [] => Ok []
  | NanScalar :: rest =>
      if forallb (λ it, match it with NanScalar => true | Vec _ => false end) rest
      then Raise IndexError else Raise ValueError
  | Vec v :: rest =>
      if forallb (λ it, match it with
                        | Vec w => bool_decide (length w = length v)
                        | NanScalar => false
                        end) rest
      then Ok (v :: omap (λ it, match it with Vec w => Some w | NanScalar => None end) rest)
      else Raise ValueError
  end.

(** [A.shape[1]]; the empty list gives a 1-D array without a second axis. *)
Definition shape1 (A : matrix) : result nat :=
  match A with
  | [] => Raise IndexError
  | r :: _ => Ok (length r)
  end.

Definition sum_Q (v : vec) : Q := foldl Qplus 0%Q v.

Fixpoint columns (n : nat) (rows : matrix) : matrix :=
  match n with
  | O => []
  | S n' => ((λ r, hd 0%Q r) <$> rows) :: columns n' ((λ r, tl r) <$> rows)
  end.

(** [numpy.mean(l, axis=0)] *)
Definition np_mean (l : list item) : result item :=
  match l with
  | [] => Ok NanScalar
  | NanScalar :: _ =>
      if forallb (λ it, match it with NanScalar => true | Vec _ => false end) l
      then Ok NanScalar else Raise ValueError
  | Vec v :: _ =>
      rows ← np_array l;
      Ok (Vec ((λ c, sum_Q c / inject_Z (Z.of_nat (length rows)))%Q
               <$> columns (length v) rows))
  end.

Definition dot (u v : vec) : Q := sum_Q (zip_with Qmult u v).

(** [numpy.matmul(A, x)] for a 2-D [A] and a 1-D [x]. *)
Definition matmul (A : matrix) (x : vec) : result vec :=
  if forallb (λ r, bool_decide (length r = length x)) A
  then Ok ((λ r, dot r x) <$> A)
  else Raise ValueError.

(** [A[:, axis]] *)
Definition column (A : matrix) (axis : nat) : result vec :=
  mapM (λ r, getitem r axis) A.

(** [numpy.delete(A, axis, 1)] *)
Definition np_delete (A : matrix) (axis : nat) : result matrix :=
  mapM (λ r, if decide (axis < length r)%nat then Ok (delete axis r)
             else Raise IndexError) A.

(** [numpy.clip(a, lo, hi)] is [minimum(maximum(a, lo), hi)]. *)
Definition np_clip (a lo hi : Q) : Q := Qmin (Qmax a lo) hi.

(** A residual is either a Euclidean norm, kept as the sum of squares
    under the root, or a number [lstsq] reported. *)
Inductive resid : Set :=
  | Norm (sq : Q)      (* the square root of [sq] *)
  | Plain (q : Q).

(** [numpy.linalg.norm(v)] *)
Definition norm (v : vec) : resid := Norm (sum_Q ((λ a, a * a)%Q <$> v)).

Definition resid_eqb (r s : resid) : bool :=
  match r, s with
  | Norm a, Norm c => Qeq_bool a c
  | Plain a, Plain c => Qeq_bool a c
  | Norm a, Plain c | Plain c, Norm a => Qle_bool 0 c && Qeq_bool a (c * c)
  end.

Definition resid_ltb (r s : resid) : bool :=
  match r, s with
  | Norm a, Norm c => Qlt_bool a c
  | Plain a, Plain c => Qlt_bool a c
  | Norm a, Plain c => Qlt_bool 0 c && Qlt_bool a (c * c)
  | Plain c, Norm a => Qlt_bool c 0 || Qlt_bool (c * c) a
  end.

(** A position: the list [solve] builds, or the tuple handed to
    [eval_with_pos]. *)
Inductive pyseq : Set :=
  | PyList (l : vec)
  | PyTuple (l : vec).

Definition items (s : pyseq) : vec :=
  match s with PyList l | PyTuple l => l end.

(** [s[i] = a]: a tuple does not support item assignment. *)
Definition setitem (s : pyseq) (i : nat) (a : Q) : result pyseq :=
  match s with
  | PyList l => if decide (i < length l)%nat then Ok (PyList (<[i := a]> l))
                else Raise IndexError
  | PyTuple _ => Raise TypeError
  end.

(** [<] on two lists or two tuples of numbers. *)
Fixpoint lex_lt (u v : vec) : bool :=
  match u, v with
  | [], [] => false
  | [], _ :: _ => true
  | _ :: _, [] => false
  | a :: u', c :: v' => if Qeq_bool a c then lex_lt u' v' else Qlt_bool a c
  end.

Definition seq_lt (s t : pyseq) : result bool :=
  match s, t with
  | PyList u, PyList v | PyTuple u, PyTuple v => Ok (lex_lt u v)
  | _, _ => Raise TypeError
  end.

(** [<] on pairs [(residual, position)]. *)
Definition pair_lt (r s : resid * pyseq) : result bool :=
  if resid_eqb r.1 s.1 then seq_lt r.2 s.2 else Ok (resid_ltb r.1 s.1).

Fixpoint min_from (best : resid * pyseq) (rest : list (resid * pyseq))
  : result (resid * pyseq) :=
  match rest with
  | [] => Ok best
  | r :: rest' => c ← pair_lt r best; min_from (if c : bool then r else best) rest'
  end.

(** [min(rs)]: the first minimal element; an empty list is a ValueError. *)
Definition py_min (rs : list (resid * pyseq)) : result (resid * pyseq) :=
  match rs with
  | [] => Raise ValueError
  | r :: rest => min_from r rest
  end.

(** [list(filter(p, rs))] for a predicate that can raise. *)
Fixpoint py_filter {A} (p : A → result bool) (rs : list A) : result (list A) :=
  match rs with
  | [] => Ok []
  | r :: rest =>
      c ← p r; keep ← py_filter p rest;
      Ok (if c : bool then r :: keep else keep)
  end.

(** *** class QEF *)

Record QEF : Set := mk_QEF { A : matrix; b : vec; fixed_values : loc }.

Section WithSolver.
Variable cfg : settings.
(** [numpy.linalg.lstsq(A, b, rcond=None)]: the solution and the array of
    residuals (empty, or one sum of squares).  Nothing is assumed of it
    here. *)
Variable lstsq : matrix → vec → result (vec * vec).

Definition evaluate (q : QEF) (x : vec) : result resid :=
  Ax ← matmul (A q) x;
  d ← np_broadcast Qminus Ax (b q);
  Ok (norm d).

Definition eval_with_pos (q : QEF) (x : pyseq) : result (resid * pyseq) :=
  r ← evaluate q (items x); Ok (r, x).

(** [v[i]] for an entry of [positions] or [normals]. *)
Definition item_get (it : item) (i : nat) : result Q :=
  match it with Vec v => getitem v i | NanScalar => Raise IndexError end.

Definition make_2d (positions normals : loc) : M QEF :=
  ns ← read_points normals;
  A ← lift (np_array ns);
  ps ← read_points positions;
  b ← lift (mapM (λ vn : item * item,
                    let (v, n) := vn in
                    v0 ← item_get v 0; n0 ← item_get n 0;
                    v1 ← item_get v 1; n1 ← item_get n 1;
                    Ok (v0 * n0 + v1 * n1)%Q) (zip ps ns));
  n ← lift (shape1 A);
  fixed_values ← alloc (Fixed (replicate n None));
  mret (mk_QEF A b fixed_values).

Definition make_3d (positions normals : loc) : M QEF :=
  ns ← read_points normals;
  A ← lift (np_array ns);
  ps ← read_points positions;
  b ← lift (mapM (λ vn : item * item,
                    let (v, n) := vn in
                    v0 ← item_get v 0; n0 ← item_get n 0;
                    v1 ← item_get v 1; n1 ← item_get n 1;
                    v2 ← item_get v 2; n2 ← item_get n 2;
                    Ok (v0 * n0 + v1 * n1 + v2 * n2)%Q) (zip ps ns));
  n ← lift (shape1 A);
  fixed_values ← alloc (Fixed (replicate n None));
  mret (mk_QEF A b fixed_values).

Definition fix_axis (q : QEF) (axis : nat) (value : Q) : M QEF :=
  col ← lift (column (A q) axis);
  b ← lift (np_broadcast Qminus (b q) ((λ a, a * value)%Q <$> col));
  A ← lift (np_delete (A q) axis);
  fv ← read_fixed (fixed_values q);
  fixed_values ← alloc (Fixed fv);
  _ ← setitem_fixed fixed_values axis (Some value);
  mret (mk_QEF A b fixed_values).

(** The loop of [solve]: free slots take the entries of [result] in
    order, fixed slots their recorded value. *)
Fixpoint fill_position (fv : list (option Q)) (result : vec) (i : nat)
  : Py.result vec :=
  match fv with
  | [] => Ok []
  | None :: fv' =>
      r ← getitem result i; rest ← fill_position fv' result (S i); Ok (r :: rest)
  | Some value :: fv' =>
      rest ← fill_position fv' result i; Ok (value :: rest)
  end.

Definition solve (q : QEF) : M (resid * pyseq) :=
  '(result, residual) ← lift (lstsq (A q) (b q));
  residual ← lift (match residual with
                   | [] => evaluate q result
                   | r :: _ => Ok (Plain r)
                   end);
  fv ← read_fixed (fixed_values q);
  position ← lift (fill_position fv result 0);
  mret (residual, PyList position).

(** [fix_axis(axis, value).solve()] *)
Definition fix_solve (q : QEF) (axis : nat) (value : Q) : M (resid * pyseq) :=
  q' ← fix_axis q axis value; solve q'.

(** [fix_axis(axis1, value1).fix_axis(axis2, value2).solve()] *)
Definition fix_fix_solve (q : QEF) (axis1 : nat) (value1 : Q)
    (axis2 : nat) (value2 : Q) : M (resid * pyseq) :=
  q' ← fix_axis q axis1 value1; q'' ← fix_axis q' axis2 value2; solve q''.

(** [for m in ms: rs.append(m())], the way the code names [r1], [r2], ... *)
Fixpoint run_all {A} (ms : list (M A)) : M (list A) :=
  match ms with
  | [] => mret []
  | m :: ms' => r ← m; rs ← run_all ms'; mret (r :: rs)
  end.

Section Cell2D.
Variables x y : Q.

(** The closure [inside(r)] of [solve_qef_2d]; [and] and the chained
    comparisons stop at the first false operand. *)
Definition inside_2d (r : resid * pyseq) : result bool :=
  let CELL_SIZE := CELL_SIZE cfg in
  r0 ← getitem (items r.2) 0;
  if Qle_bool x r0 && Qle_bool r0 (x + CELL_SIZE) then
    r1 ← getitem (items r.2) 1;
    Ok (Qle_bool y r1 && Qle_bool r1 (y + CELL_SIZE))
  else Ok false.

(** The tiers of the cascade, each a list of candidates in source order. *)
Definition faces_2d (qef : QEF) : M (list (resid * pyseq)) :=
  let CELL_SIZE := CELL_SIZE cfg in
  run_all [ fix_solve qef 0 (x + 0);
            fix_solve qef 0 (x + CELL_SIZE);
            fix_solve qef 1 (y + 0);
            fix_solve qef 1 (y + CELL_SIZE) ].

Definition corners_2d (qef : QEF) : result (list (resid * pyseq)) :=
  let CELL_SIZE := CELL_SIZE cfg in
  mapM (eval_with_pos qef)
       [ PyTuple [x + 0; y + 0];
         PyTuple [x + 0; y + CELL_SIZE];
         PyTuple [x + CELL_SIZE; y + 0];
         PyTuple [x + CELL_SIZE; y + CELL_SIZE] ]%Q.

(** The body of [if settings.BOUNDARY:]. *)
Definition boundary_2d (qef : QEF) (rv : resid * pyseq) : M (resid * pyseq) :=
  ok ← lift (inside_2d rv);
  if negb ok then
    rs ← faces_2d qef;
    rs ← lift (py_filter inside_2d rs);
    rs ← (if (length rs =? 0)%nat then
            cs ← lift (corners_2d qef);
            lift (py_filter inside_2d cs)
          else mret rs);
    lift (py_min rs)
  else mret rv.

(** The body of [if settings.BIAS:]. *)
Definition bias_2d (positions normals : loc) : M unit :=
  ps ← read_points positions;
  mass_point ← lift (np_mean ps);
  _ ← append normals (Vec [BIAS_STRENGTH cfg; 0%Q]);
  _ ← append positions mass_point;
  _ ← append normals (Vec [0%Q; BIAS_STRENGTH cfg]);
  append positions mass_point.

(** The body of [if settings.CLIP:]. *)
Definition clip_2d (v : pyseq) : result pyseq :=
  let CELL_SIZE := CELL_SIZE cfg in
  v0 ← getitem (items v) 0;
  v ← setitem v 0 (np_clip v0 x (x + CELL_SIZE));
  v1 ← getitem (items v) 1;
  setitem v 1 (np_clip v1 y (y + CELL_SIZE)).

Definition solve_qef_2d (positions normals : loc) : M V2 :=
  _ ← (if BIAS cfg then bias_2d positions normals else mret tt);
  qef ← make_2d positions normals;
  rv ← solve qef;
  rv ← (if BOUNDARY cfg then boundary_2d qef rv else mret rv);
  v ← (if CLIP cfg then lift (clip_2d rv.2) else mret rv.2);
  v0 ← lift (getitem (items v) 0);
  v1 ← lift (getitem (items v) 1);
  mret (mk_V2 v0 v1).

End Cell2D.

Section Cell3D.
Variables x y z : Q.

Definition inside_3d (r : resid * pyseq) : result bool :=
  let CELL_SIZE := CELL_SIZE cfg in
  r0 ← getitem (items r.2) 0;
  if Qle_bool x r0 && Qle_bool r0 (x + CELL_SIZE) then
    r1 ← getitem (items r.2) 1;
    if Qle_bool y r1 && Qle_bool r1 (y + CELL_SIZE) then
      r2 ← getitem (items r.2) 2;
      Ok (Qle_bool z r2 && Qle_bool r2 (z + CELL_SIZE))
    else Ok false
  else Ok false.

Definition faces_3d (qef : QEF) : M (list (resid * pyseq)) :=
  let CELL_SIZE := CELL_SIZE cfg in
  run_all [ fix_solve qef 0 (x + 0);
            fix_solve qef 0 (x + CELL_SIZE);
            fix_solve qef 1 (y + 0);
            fix_solve qef 1 (y + CELL_SIZE);
            fix_solve qef 2 (z + 0);
            fix_solve qef 2 (z + CELL_SIZE) ].

Definition edges_3d (qef : QEF) : M (list (resid * pyseq)) :=
  let CELL_SIZE := CELL_SIZE cfg in
  run_all [ fix_fix_solve qef 1 (y + 0) 0 (x + 0);
            fix_fix_solve qef 1 (y + CELL_SIZE) 0 (x + 0);
            fix_fix_solve qef 1 (y + 0) 0 (x + CELL_SIZE);
            fix_fix_solve qef 1 (y + CELL_SIZE) 0 (x + CELL_SIZE);
            fix_fix_solve qef 2 (z + 0) 0 (x + 0);
            fix_fix_solve qef 2 (z + CELL_SIZE) 0 (x + 0);
            fix_fix_solve qef 2 (z + 0) 0 (x + CELL_SIZE);
            fix_fix_solve qef 2 (z + CELL_SIZE) 0 (x + CELL_SIZE);
            fix_fix_solve qef 2 (z + 0) 1 (y + 0);
            fix_fix_solve qef 2 (z + CELL_SIZE) 1 (y + 0);
            fix_fix_solve qef 2 (z + 0) 1 (y + CELL_SIZE);
            fix_fix_solve qef 2 (z + CELL_SIZE) 1 (y + CELL_SIZE) ].

Definition corners_3d (qef : QEF) : result (list (resid * pyseq)) :=
  let CELL_SIZE := CELL_SIZE cfg in
  mapM (eval_with_pos qef)
       [ PyTuple [x + 0; y + 0; z + 0];
         PyTuple [x + 0; y + 0; z + CELL_SIZE];
         PyTuple [x + 0; y + CELL_SIZE; z + 0];
         PyTuple [x + 0; y + CELL_SIZE; z + CELL_SIZE];
         PyTuple [x + CELL_SIZE; y + 0; z + 0];
         PyTuple [x + CELL_SIZE; y + 0; z + CELL_SIZE];
         PyTuple [x + CELL_SIZE; y + CELL_SIZE; z + 0];
         PyTuple [x + CELL_SIZE; y + CELL_SIZE; z + CELL_SIZE] ]%Q.

Definition boundary_3d (qef : QEF) (rv : resid * pyseq) : M (resid * pyseq) :=
  ok ← lift (inside_3d rv);
  if negb ok then
    rs ← faces_3d qef;
    rs ← lift (py_filter inside_3d rs);
    rs ← (if (length rs =? 0)%nat then
            es ← edges_3d qef;
            lift (py_filter inside_3d es)
          else mret rs);
    rs ← (if (length rs =? 0)%nat then
            cs ← lift (corners_3d qef);
            lift (py_filter inside_3d cs)
          else mret rs);
    lift (py_min rs)
  else mret rv.

Definition bias_3d (positions normals : loc) : M unit :=
  ps ← read_points positions;
  mass_point ← lift (np_mean ps);
  _ ← append normals (Vec [BIAS_STRENGTH cfg; 0%Q; 0%Q]);
  _ ← append positions mass_point;
  _ ← append normals (Vec [0%Q; BIAS_STRENGTH cfg; 0%Q]);
  _ ← append positions mass_point;
  _ ← append normals (Vec [0%Q; 0%Q; BIAS_STRENGTH cfg]);
  append positions mass_point.

Definition clip_3d (v : pyseq) : result pyseq :=
  let CELL_SIZE := CELL_SIZE cfg in
  v0 ← getitem (items v) 0;
  v ← setitem v 0 (np_clip v0 x (x + CELL_SIZE));
  v1 ← getitem (items v) 1;
  v ← setitem v 1 (np_clip v1 y (y + CELL_SIZE));
  v2 ← getitem (items v) 2;
  setitem v 2 (np_clip v2 z (z + CELL_SIZE)).

Definition solve_qef_3d (positions normals : loc) : M V3 :=
  _ ← (if BIAS cfg then bias_3d positions normals else mret tt);
  qef ← make_3d positions normals;
  rv ← solve qef;
  rv ← (if BOUNDARY cfg then boundary_3d qef rv else mret rv);
  v ← (if CLIP cfg then lift (clip_3d rv.2) else mret rv.2);
  v0 ← lift (getitem (items v) 0);
  v1 ← lift (getitem (items v) 1);
  v2 ← lift (getitem (items v) 2);
  mret (mk_V3 v0 v1 v2).

End Cell3D.

End WithSolver.
End Qef.

(** ** dual_contour_2d.py and dual_contour_3d.py: the vertex placer *)

Module DualContour.
Import Qef.
#[local] Open Scope Q_scope.
Section WithSolver.
Variable cfg : settings.
Variable lstsq : matrix → vec → result (vec * vec).

(** [if (v0 > 0) != (v1 > 0): changes.append(point(adapt(v0, v1)))]: what
    the statement adds to [changes]. *)
Definition crossing (v0 v1 : Q) (point : Q → item) : result (list item) :=
  if negb (eqb (Qlt_bool 0 v0) (Qlt_bool 0 v1))
  then a ← Common.adapt cfg v0 v1; Ok [point a]
  else Ok [].

Section Cell2D.
Variable f : Q → Q → Q.
Variable f_normal : Q → Q → V2.
Variables x y : Q.

Definition changes_2d : result (list item) :=
  let CELL_SIZE := CELL_SIZE cfg in
  let x0y0 := f (x + 0.0) (y + 0.0) in
  let x0y1 := f (x + 0.0) (y + CELL_SIZE) in
  let x1y0 := f (x + CELL_SIZE) (y + 0.0) in
  let x1y1 := f (x + CELL_SIZE) (y + CELL_SIZE) in
  c1 ← crossing x0y0 x0y1 (λ a, Vec [x + 0; y + a]);
  c2 ← crossing x1y0 x1y1 (λ a, Vec [x + CELL_SIZE; y + a]);
  c3 ← crossing x0y0 x1y0 (λ a, Vec [x + a; y + 0]);
  c4 ← crossing x0y1 x1y1 (λ a, Vec [x + a; y + CELL_SIZE]);
  Ok (c1 ++ c2 ++ c3 ++ c4).

(** [n = f_normal(v[0], v[1]); normals.append([n.x, n.y])] *)
Definition normal_2d (v : item) : result item :=
  v0 ← item_get v 0; v1 ← item_get v 1;
  let n := f_normal v0 v1 in
  Ok (Vec [V2_x n; V2_y n]).

(** [None] is Python's [None]: the cell has no vertex.  The two lists are
    local until they are handed to [solve_qef_2d]; each enters the heap
    once it is complete. *)
Definition dual_contour_2d_find_best_vertex : M (option V2) :=
  let CELL_SIZE := CELL_SIZE cfg in
  if negb (ADAPTIVE cfg)
  then mret (Some (mk_V2 (x + 0.5 * CELL_SIZE) (y + 0.5 * CELL_SIZE)))
  else
    cs ← lift changes_2d;
    changes ← alloc (Points cs);
    if (length cs <=? 1)%nat then mret None
    else
      ns ← lift (mapM normal_2d cs);
      normals ← alloc (Points ns);
      v ← solve_qef_2d cfg lstsq x y changes normals;
      mret (Some v).

End Cell2D.

Section Cell3D.
Variable f : Q → Q → Q → Q.
Variable f_normal : Q → Q → Q → V3.
Variables x y z : Q.

(** [v[dx, dy, dz]] *)
Definition v_ (dx dy dz : Q) : Q :=
  let CELL_SIZE := CELL_SIZE cfg in
  f (x + dx * CELL_SIZE) (y + dy * CELL_SIZE) (z + dz * CELL_SIZE).

(** [for d1 in (0, 1): for d2 in (0, 1): ...] *)
Definition for_01_01 (body : Q → Q → result (list item)) : result (list item) :=
  cs ← mapM (λ d12 : Q * Q, body d12.1 d12.2) [(0, 0); (0, 1); (1, 0); (1, 1)];
  Ok (List.concat cs).

Definition changes_3d : result (list item) :=
  let CELL_SIZE := CELL_SIZE cfg in
  c1 ← for_01_01 (λ dx dy,
         crossing (v_ dx dy 0) (v_ dx dy 1)
           (λ a, Vec [x + dx * CELL_SIZE; y + dy * CELL_SIZE; z + a]));
  c2 ← for_01_01 (λ dx dz,
         crossing (v_ dx 0 dz) (v_ dx 1 dz)
           (λ a, Vec [x + dx * CELL_SIZE; y + a; z + dz * CELL_SIZE]));
  c3 ← for_01_01 (λ dy dz,
         crossing (v_ 0 dy dz) (v_ 1 dy dz)
           (λ a, Vec [x + a; y + dy * CELL_SIZE; z + dz * CELL_SIZE]));
  Ok (c1 ++ c2 ++ c3).

Definition normal_3d (v : item) : result item :=
  v0 ← item_get v 0; v1 ← item_get v 1; v2 ← item_get v 2;
  let n := f_normal v0 v1 v2 in
  Ok (Vec [V3_x n; V3_y n; V3_z n]).

Definition dual_contour_3d_find_best_vertex : M (option V3) :=
  let CELL_SIZE := CELL_SIZE cfg in
  if negb (ADAPTIVE cfg)
  then mret (Some (mk_V3 (x + 0.5 * CELL_SIZE) (y + 0.5 * CELL_SIZE)
                         (z + 0.5 * CELL_SIZE)))
  else
    cs ← lift changes_3d;
    changes ← alloc (Points cs);
    if (length cs <=? 1)%nat then mret None
    else
      ns ← lift (mapM normal_3d cs);
      normals ← alloc (Points ns);
      v ← solve_qef_3d cfg lstsq x y z changes normals;
      mret (Some v).

End Cell3D.
End WithSolver.
End DualContour.

(** ** marching_cubes_gen.py: the checks the module runs on its table *)

Module CaseGenTests.
Import CaseGen.

(** [test2]: every triangle edge has an endpoint among the solid
    vertices.  [true] when the function returns: no assertion fails, and
    every edge number is one of [EDGES]. *)
Definition test2 (all : gmap N faces) : bool :=
  forallb (λ '(bits, fs),
    let verts := bits_to_verts bits in
    forallb (forallb (λ e,
      match EDGES !! e with
      | Some (v1, v2) => bool_decide (v1 ∈ verts) || bool_decide (v2 ∈ verts)
      | None => false
      end)) fs) (map_to_list all).

(** [sum(2**v in [bits1, bits2] for v in range(8))] *)
Definition powers_among (bits1 bits2 : N) : nat :=
  length (List.filter (λ v, bool_decide ((2 ^ N.of_nat v)%N ∈ [bits1; bits2])) (seq 0 8)).

(** [test3]: the entries of two bitmasks the guard selects are equal.
    [true] when no assertion fails. *)
Definition test3 (all : gmap N faces) : bool :=
  forallb (λ '(bits1, faces1),
    forallb (λ '(bits2, faces2),
      if (powers_among bits1 bits2 =? 4)%nat
      then bool_decide (faces1 = faces2)
      else true) (map_to_list all)) (map_to_list all).

End CaseGenTests.

(** ** common.py: [frange] and [Edge] *)

Module Frange.
#[local] Open Scope Q_scope.

(** [frange(start, stop, step)] is a generator that may never stop; the
    list of what it yields is computed with a bound on the number of
    passes through its [while] loop.  [None]: the generator has not
    finished within the bound. *)
Fixpoint frange (fuel : nat) (start stop step : Q) : option (list Q) :=
  match fuel with
  | O => None
  | S fuel' =>
      if Qlt_bool start stop
      then (start ::.) <$> frange fuel' (start + step) stop step
      else Some []
  end.

(** [for i, v in enumerate(frange(start, stop, step)): s = body(i, v, s)]
    for a body that returns the next state or raises.  The generator runs
    one step at a time, between two passes of the body: an exception of
    the body ends the loop whether or not the generator would have
    stopped.  [None]: the loop has not finished within the bound. *)
Fixpoint for_frange {St : Type} (fuel : nat) (i : nat) (v stop step : Q)
    (body : nat → Q → St → option (result St)) (s : St) : option (result St) :=
  match fuel with
  | O => None
  | S fuel' =>
      if Qlt_bool v stop then
        match body i v s with
        | Some (Ok s') => for_frange fuel' (S i) (v + step) stop step body s'
        | Some (Raise e) => Some (Raise e)
        | None => None
        end
      else Some (Ok s)
  end.

End Frange.

(** ** marching_cubes_2d_prop.py: the grid *)

Module MarchingCubes2DGrid.
Import MarchingCubes2DProp.

Definition XMIN : Q := -3.
Definition XMAX : Q := 3.
Definition YMIN : Q := -3.
Definition YMAX : Q := 3.

Section WithProperty.
Context {P : Type} `{EqDecision P}.
Variable f : Q → Q → Q.
Variable f_property : Q → Q → P.

(** [marching_cubes_2d(f, f_property)]; the module's [frange] has the
    text of the one in common.py. *)
Definition marching_cubes_2d (fuel : nat) : option (result (list Edge)) :=
  Frange.for_frange fuel 0 XMIN XMAX CELL_SIZE (λ _ x edges,
    Frange.for_frange fuel 0 YMIN YMAX CELL_SIZE (λ _ y edges,
      Some (cell ← marching_cubes_2d_single_cell f f_property x y;
            Ok (edges ++ cell))) edges) [].

End WithProperty.
End MarchingCubes2DGrid.

(** ** utils_3d.py: triangles, quadrilaterals and meshes *)

Module Utils3D.

(** [Tri] and [Quad] hold whatever they are given; in a mesh, that is
    the 1-based index of a vertex. *)
Inductive face : Set :=
  | Tri (v1 v2 v3 : nat)
  | Quad (v1 v2 v3 v4 : nat).

(** [face.map(f)] *)
Definition face_map (f : nat → nat) (fc : face) : face :=
  match fc with
  | Tri v1 v2 v3 => Tri (f v1) (f v2) (f v3)
  | Quad v1 v2 v3 v4 => Quad (f v1) (f v2) (f v3) (f v4)
  end.

(** [Quad.swap(swap)]; [Tri] has no such method. *)
Definition Quad_swap (v1 v2 v3 v4 : nat) (swap : bool) : face :=
  if swap then Quad v4 v3 v2 v1 else Quad v1 v2 v3 v4.

Record Mesh : Set := mk_Mesh { verts : list Qef.V3; faces : list face }.

(** [Mesh()] *)
Definition Mesh_empty : Mesh := mk_Mesh [] [].

(** [self.extend(other)], as the new value of [self], for [other] an
    object other than [self] (as in [__add__] and in the grid loops). *)
Definition extend (self other : Mesh) : Mesh :=
  let l := length (verts self) in
  let f := λ v, v + l in
  mk_Mesh (verts self ++ verts other) (faces self ++ (face_map f <$> faces other)).

(** [self + other] *)
Definition Mesh_add (self other : Mesh) : Mesh :=
  let r := Mesh_empty in
  let r := extend r self in
  let r := extend r other in
  r.

End Utils3D.

(** ** marching_cubes_3d.py: one cell, and the grid *)

Module MarchingCubes3DCell.
Import MarchingCubes3D Utils3D Qef.
#[local] Open Scope Q_scope.

Section WithSettings.
Variable cfg : settings.
Variable f : Q → Q → Q → Q.

(** An integer of the tables, used as a number. *)
Definition num (n : nat) : Q := inject_Z (Z.of_nat n).

Section Cell.
Variables x y z : Q.

Definition f_eval : list Q :=
  (λ v_pos : nat * nat * nat,
     f (x + num v_pos.1.1 * CELL_SIZE cfg)
       (y + num v_pos.1.2 * CELL_SIZE cfg)
       (z + num v_pos.2 * CELL_SIZE cfg)) <$> VERTICES.

(** [sum(2**v for v in range(8) if f_eval[v] > 0)] *)
Definition case : result nat :=
  vs ← py_filter (λ v, fv ← getitem f_eval v; Ok (Qlt_bool 0 fv)) (seq 0 8);
  Ok (sum_list ((λ v, 2 ^ v)%nat <$> vs)).

Definition edge_to_boundary_vertex (edge : nat) : result V3 :=
  '(v0, v1) ← getitem EDGES edge;
  f0 ← getitem f_eval v0;
  f1 ← getitem f_eval v1;
  a ← Common.adapt cfg f0 f1;
  let t0 := CELL_SIZE cfg - a in
  let t1 := CELL_SIZE cfg - t0 in
  vert_pos0 ← getitem VERTICES v0;
  vert_pos1 ← getitem VERTICES v1;
  Ok (mk_V3 (x + num vert_pos0.1.1 * t0 + num vert_pos1.1.1 * t1)
            (y + num vert_pos0.1.2 * t0 + num vert_pos1.1.2 * t1)
            (z + num vert_pos0.2 * t0 + num vert_pos1.2 * t1)).

(** The loop over the triangles of the case, on the two output lists. *)
Fixpoint emit (faces : list (list nat)) (output_verts : list V3) (output_tris : list face)
  : result (list V3 * list face) :=
  match faces with
  | [] => Ok (output_verts, output_tris)
  | edges :: faces' =>
      verts ← mapM edge_to_boundary_vertex edges;
      let next_vert_index := (length output_verts + 1)%nat in
      let tri := Tri next_vert_index (next_vert_index + 1) (next_vert_index + 2) in
      emit faces' (output_verts ++ verts) (output_tris ++ [tri])
  end.

Definition marching_cubes_3d_single_cell : result Mesh :=
  case ← case;
  faces ← getitem cases case;
  '(output_verts, output_tris) ← emit faces [] [];
  Ok (mk_Mesh output_verts output_tris).

End Cell.

(** [marching_cubes_3d(f, xmin, xmax, ymin, ymax, zmin, zmax)] *)
Definition marching_cubes_3d (xmin xmax ymin ymax zmin zmax : Q) (fuel : nat)
  : option (result Mesh) :=
  Frange.for_frange fuel 0 xmin xmax (CELL_SIZE cfg) (λ _ x mesh,
    Frange.for_frange fuel 0 ymin ymax (CELL_SIZE cfg) (λ _ y mesh,
      Frange.for_frange fuel 0 zmin zmax (CELL_SIZE cfg) (λ _ z mesh,
        Some (cell_mesh ← marching_cubes_3d_single_cell x y z;
              Ok (extend mesh cell_mesh))) mesh) mesh) Mesh_empty.

End WithSettings.
End MarchingCubes3DCell.

(** ** dual_contour_2d.py and dual_contour_3d.py: the grid *)

Module DualContourGrid.
Import Qef DualContour Utils3D Frange.
#[local] Open Scope Q_scope.

(** [Edge] of common.py; an end is what the dict of vertices holds for a
    cell, a vertex or [None]. *)
Record Edge : Set := mk_Edge { v1 : option V2; v2 : option V2 }.

(** [Edge.swap(swap)] *)
Definition Edge_swap (e : Edge) (swap : bool) : Edge :=
  if swap then mk_Edge (v2 e) (v1 e) else mk_Edge (v1 e) (v2 e).

(** [d[k]] on a dict. *)
Definition dict_get `{Countable K} {V} (d : gmap K V) (k : K) : result V :=
  match d !! k with Some v => Ok v | None => Raise KeyError end.

(** A step of a loop body that runs a computation on the heap: the
    lists the computation allocates are its own, and an exception leaves
    nothing of them behind. *)
Definition run {A St} (m : M A) (h : heap) (k : A → heap → St) : option (result St) :=
  match m h with
  | (h', Ok a) => Some (Ok (k a h'))
  | (_, Raise e) => Some (Raise e)
  end.

Section WithSolver.
Variable cfg : settings.
Variable lstsq : matrix → vec → result (vec * vec).

Section Grid2D.
Variable f : Q → Q → Q.
Variable f_normal : Q → Q → V2.
Variables xmin xmax ymin ymax : Q.

(** The first pair of loops: [verts[ix, iy] = ...find_best_vertex(...)]. *)
Definition place_2d (fuel : nat) (h : heap)
  : option (result (heap * gmap (Z * Z) (option V2))) :=
  for_frange fuel 0 xmin xmax (CELL_SIZE cfg) (λ ix x st,
    for_frange fuel 0 ymin ymax (CELL_SIZE cfg) (λ iy y st,
      run (dual_contour_2d_find_best_vertex cfg lstsq f f_normal x y) st.1
          (λ v h', (h', <[ (Z.of_nat ix, Z.of_nat iy) := v ]> st.2))) st) (h, ∅).

(** The second pair of loops: the vertical sign changes. *)
Definition vertical_2d (fuel : nat) (verts : gmap (Z * Z) (option V2)) (edges : list Edge)
  : option (result (list Edge)) :=
  for_frange fuel 0 xmin xmax (CELL_SIZE cfg) (λ ix x edges,
    if (ix =? 0)%nat then Some (Ok edges)
    else
      for_frange fuel 0 ymin ymax (CELL_SIZE cfg) (λ iy y edges,
        let y0 := y in
        let y1 := y + CELL_SIZE cfg in
        let y0_solid := Qlt_bool 0 (f x y0) in
        let y1_solid := Qlt_bool 0 (f x y1) in
        if negb (eqb y0_solid y1_solid) then
          Some (a ← dict_get verts (Z.of_nat ix - 1, Z.of_nat iy)%Z;
                b ← dict_get verts (Z.of_nat ix, Z.of_nat iy);
                Ok (edges ++ [Edge_swap (mk_Edge a b) y0_solid]))
        else Some (Ok edges)) edges) edges.

(** The third pair of loops: the horizontal sign changes. *)
Definition horizontal_2d (fuel : nat) (verts : gmap (Z * Z) (option V2)) (edges : list Edge)
  : option (result (list Edge)) :=
  for_frange fuel 0 ymin ymax (CELL_SIZE cfg) (λ iy y edges,
    if (iy =? 0)%nat then Some (Ok edges)
    else
      for_frange fuel 0 xmin xmax (CELL_SIZE cfg) (λ ix x edges,
        let x0 := x in
        let x1 := x + CELL_SIZE cfg in
        let x0_solid := Qlt_bool 0 (f x0 y) in
        let x1_solid := Qlt_bool 0 (f x1 y) in
        if negb (eqb x0_solid x1_solid) then
          Some (a ← dict_get verts (Z.of_nat ix, Z.of_nat iy - 1)%Z;
                b ← dict_get verts (Z.of_nat ix, Z.of_nat iy);
                Ok (edges ++ [Edge_swap (mk_Edge a b) x0_solid]))
        else Some (Ok edges)) edges) edges.

(** [dual_contour_2d(f, f_normal, xmin, xmax, ymin, ymax)], started in
    the heap [h].  [None]: a loop has not finished within the bound. *)
Definition dual_contour_2d (fuel : nat) (h : heap) : option (result (list Edge)) :=
  match place_2d fuel h with
  | Some (Ok (_, verts)) =>
      match vertical_2d fuel verts [] with
      | Some (Ok edges) => horizontal_2d fuel verts edges
      | other => other
      end
  | Some (Raise e) => Some (Raise e)
  | None => None
  end.

End Grid2D.

Section Grid3D.
Variable f : Q → Q → Q → Q.
Variable f_normal : Q → Q → Q → V3.
Variables xmin xmax ymin ymax zmin zmax : Q.

(** Three nested loops over the cells, with their indices. *)
Definition for_cells {St} (fuel : nat)
    (body : nat → Q → nat → Q → nat → Q → St → option (result St)) (s : St)
  : option (result St) :=
  for_frange fuel 0 xmin xmax (CELL_SIZE cfg) (λ ix x s,
    for_frange fuel 0 ymin ymax (CELL_SIZE cfg) (λ iy y s,
      for_frange fuel 0 zmin zmax (CELL_SIZE cfg) (λ iz z s,
        body ix x iy y iz z s) s) s) s.

(** The first loops: the vertices, and the 1-based index of the vertex
    of each cell that has one. *)
Definition place_3d (fuel : nat) (h : heap)
  : option (result (heap * list V3 * gmap (Z * Z * Z) nat)) :=
  for_cells fuel (λ ix x iy y iz z st,
    run (dual_contour_3d_find_best_vertex cfg lstsq f f_normal x y z) st.1.1
        (λ vert h',
           match vert with
           | None => (h', st.1.2, st.2)
           | Some vert =>
               let vert_array := st.1.2 ++ [vert] in
               (h', vert_array,
                <[ (Z.of_nat ix, Z.of_nat iy, Z.of_nat iz) := length vert_array ]> st.2)
           end)) (h, [], ∅).

(** [faces.append(Quad(vi[k1], vi[k2], vi[k3], vi[k4]).swap(swap))] *)
Definition add_quad (vert_indices : gmap (Z * Z * Z) nat) (k1 k2 k3 k4 : Z * Z * Z)
    (swap : bool) (faces : list face) : result (list face) :=
  a ← dict_get vert_indices k1;
  b ← dict_get vert_indices k2;
  c ← dict_get vert_indices k3;
  d ← dict_get vert_indices k4;
  Ok (faces ++ [Quad_swap a b c d swap]).

(** The three [if] blocks of the second loops' body, with
    [USE_TRI = False] as the module sets it: the faces across the cell
    edge that leaves the corner [(x, y, z)] along z, along y and along x. *)
Definition faces_across_z (vert_indices : gmap (Z * Z * Z) nat)
    (ix : Z) (x : Q) (iy : Z) (y : Q) (iz : Z) (z : Q) (faces : list face)
  : result (list face) :=
  if Qlt_bool xmin x && Qlt_bool ymin y then
    let solid1 := Qlt_bool 0 (f x y (z + 0)) in
    let solid2 := Qlt_bool 0 (f x y (z + CELL_SIZE cfg)) in
    if negb (eqb solid1 solid2) then
      add_quad vert_indices
        (ix - 1, iy - 1, iz)%Z (ix - 0, iy - 1, iz)%Z
        (ix - 0, iy - 0, iz)%Z (ix - 1, iy - 0, iz)%Z solid2 faces
    else Ok faces
  else Ok faces.

Definition faces_across_y (vert_indices : gmap (Z * Z * Z) nat)
    (ix : Z) (x : Q) (iy : Z) (y : Q) (iz : Z) (z : Q) (faces : list face)
  : result (list face) :=
  if Qlt_bool xmin x && Qlt_bool zmin z then
    let solid1 := Qlt_bool 0 (f x (y + 0) z) in
    let solid2 := Qlt_bool 0 (f x (y + CELL_SIZE cfg) z) in
    if negb (eqb solid1 solid2) then
      add_quad vert_indices
        (ix - 1, iy, iz - 1)%Z (ix - 0, iy, iz - 1)%Z
        (ix - 0, iy, iz - 0)%Z (ix - 1, iy, iz - 0)%Z solid1 faces
    else Ok faces
  else Ok faces.

Definition faces_across_x (vert_indices : gmap (Z * Z * Z) nat)
    (ix : Z) (x : Q) (iy : Z) (y : Q) (iz : Z) (z : Q) (faces : list face)
  : result (list face) :=
  if Qlt_bool ymin y && Qlt_bool zmin z then
    let solid1 := Qlt_bool 0 (f (x + 0) y z) in
    let solid2 := Qlt_bool 0 (f (x + CELL_SIZE cfg) y z) in
    if negb (eqb solid1 solid2) then
      add_quad vert_indices
        (ix, iy - 1, iz - 1)%Z (ix, iy - 0, iz - 1)%Z
        (ix, iy - 0, iz - 0)%Z (ix, iy - 1, iz - 0)%Z solid2 faces
    else Ok faces
  else Ok faces.

(** The second loops. *)
Definition faces_3d (fuel : nat) (vert_indices : gmap (Z * Z * Z) nat)
  : option (result (list face)) :=
  for_cells fuel (λ ix x iy y iz z faces,
    let ix := Z.of_nat ix in let iy := Z.of_nat iy in let iz := Z.of_nat iz in
    Some (faces ← faces_across_z vert_indices ix x iy y iz z faces;
          faces ← faces_across_y vert_indices ix x iy y iz z faces;
          faces_across_x vert_indices ix x iy y iz z faces)) [].

(** [dual_contour_3d(f, f_normal, xmin, ..., zmax)], started in the heap
    [h]. *)
Definition dual_contour_3d (fuel : nat) (h : heap) : option (result Mesh) :=
  match place_3d fuel h with
  | Some (Ok (_, vert_array, vert_indices)) =>
      match faces_3d fuel vert_indices with
      | Some (Ok faces) => Some (Ok (mk_Mesh vert_array faces))
      | Some (Raise e) => Some (Raise e)
      | None => None
      end
  | Some (Raise e) => Some (Raise e)
  | None => None
  end.

End Grid3D.
End WithSolver.
End DualContourGrid.

(** ** dual_contour_2d.py and dual_contour_3d.py: the sample fields *)

Module SampleFields.
Import Qef.
#[local] Open Scope Q_scope.

(** [max(a, b)] and [min(a, b)]: the first argument stays unless the
    second is strictly greater (smaller). *)
Definition max2 (a b : Q) : Q := if Qlt_bool a b then b else a.
Definition min2 (a b : Q) : Q := if Qlt_bool b a then b else a.

Definition square_function (x y : Q) : Q := 2.5 - max2 (Qabs x) (Qabs y).

(** [math.copysign(x, 1)] is the magnitude of [x] with the sign of 1. *)
Definition square_normal (x y : Q) : V2 :=
  if Qlt_bool (Qabs y) (Qabs x) then mk_V2 (- Qabs x) 0 else mk_V2 0 (- Qabs y).

(** [intersect_function(x, y)] of dual_contour_2d.py *)
Definition intersect_function (x y : Q) : Q :=
  let y := y - 0.3 in
  let x := x - 0.5 in
  let x := Qabs x in
  min2 (x - y) (x + y).

(** [intersect_function(x, y, z)] of dual_contour_3d.py *)
Definition intersect_function_3d (x y z : Q) : Q :=
  let y := y - 0.3 in
  let x := x - 0.5 in
  let x := Qabs x in
  min2 (x - y) (x + y).

End SampleFields.

(** ** A reference solver

    [numpy.linalg.lstsq] is outside the repository.  The theorems below
    hold for any solver; the worked examples run the code with this one,
    the exact minimum-norm least-squares solution (which numpy computes
    up to rounding), obtained from the rank factorisation [A = C F] as
    [F^T (F F^T)^-1 (C^T C)^-1 C^T b]. *)

Module Lstsq.
Import Qef.

Fixpoint find_pivot (c : nat) (rows : matrix) : option (vec * matrix) :=
  match rows with
  | [] => None
  | r :: rs =>
      if Qeq_bool (nth c r 0%Q) 0 then
        match find_pivot c rs with
        | Some (p, rest) => Some (p, r :: rest)
        | None => None
        end
      else Some (r, rs)
  end.

Definition eliminate (c : nat) (p r : vec) : vec :=
  zip_with (λ pi ri, ri - nth c r 0 * pi)%Q p r.

(** Gauss-Jordan elimination: the non-zero rows of the reduced row
    echelon form, and the pivot columns. *)
Fixpoint rref (cols : list nat) (above below : matrix) (pivots : list nat)
  : matrix * list nat :=
  match cols with
  | [] => (above, pivots)
  | c :: cs =>
      match find_pivot c below with
      | None => rref cs above below pivots
      | Some (p, rest) =>
          let p' := (λ a, Qred (a / nth c p 0))%Q <$> p in
          rref cs ((eliminate c p' <$> above) ++ [p']) (eliminate c p' <$> rest)
               (pivots ++ [c])
      end
  end.

(** The solution of [M z = rhs] for an invertible [M]. *)
Definition linsolve (M : matrix) (rhs : vec) : vec :=
  let aug := zip_with (λ r c, r ++ [c]) M rhs in
  (λ r, List.last r 0%Q) <$> (rref (seq 0 (length M)) [] aug []).1.

Definition gram (rows : matrix) : matrix :=
  (λ r, (λ s, dot r s) <$> rows) <$> rows.

Definition lstsq_exact (A : matrix) (b : vec) : result (vec * vec) :=
  match A with
  | [] => Raise LinAlgError
  | r0 :: _ =>
      if negb (length b =? length A)%nat then Raise LinAlgError
      else
        let n := length r0 in
        let '(F, pivots) := rref (seq 0 n) [] A [] in
        let rank := length pivots in
        let Ct := (λ c, (λ r, nth c r 0%Q) <$> A) <$> pivots in
        let y := linsolve (gram Ct) ((λ c, dot c b) <$> Ct) in
        let z := linsolve (gram F) y in
        let x := (λ col, Qred (dot col z)) <$> columns n F in
        let r := zip_with Qminus ((λ r, dot r x) <$> A) b in
        let residuals :=
          if (rank <? n)%nat || (length A <=? n)%nat then []
          else [Qred (sum_Q ((λ a, a * a)%Q <$> r))] in
        Ok (x, residuals)
  end.

End Lstsq.

(* ===================================================================== *)
(** * Part II: properties                                                 *)
(* ===================================================================== *)

(** ** Comparisons of numbers *)

Module PyFacts.
#[local] Open Scope Q_scope.

Lemma Qlt_bool_iff a b : Qlt_bool a b = true ↔ a < b.
Proof.
  unfold Qlt_bool. rewrite negb_true_iff. split.
  - intros H. apply Qnot_le_lt. intros Hle. apply Qle_bool_iff in Hle. congruence.
  - intros H. destruct (Qle_bool b a) eqn:E; [|done].
    apply Qle_bool_iff in E. lra.
Qed.

Lemma Qlt_bool_false a b : Qlt_bool a b = false ↔ b <= a.
Proof.
  unfold Qlt_bool. rewrite negb_false_iff. apply Qle_bool_iff.
Qed.

End PyFacts.
Export PyFacts.

(** ** The hardcoded table of marching_cubes_3d.py *)

Module CaseTable.
Import MarchingCubes3D.

(** Edge [e] separates a solid from a non-solid corner under [bits]. *)
Definition separates (bits e : nat) : Prop :=
  match EDGES !! e with
  | Some vs => solid bits vs.1 ≠ solid bits vs.2
  | None => False
  end.

#[local] Instance separates_dec bits e : Decision (separates bits e).
Proof. unfold separates. destruct (EDGES !! e); apply _. Defined.

Definition entry_ok (entry : nat * list (list nat)) : Prop :=
  Forall (λ tri, length tri = 3 ∧ Forall (separates entry.1) tri) entry.2.

#[local] Instance entry_ok_dec entry : Decision (entry_ok entry).
Proof. unfold entry_ok. apply _. Defined.

Lemma cases_numbered bits tris :
  cases !! bits = Some tris → (bits, tris) ∈ zip (seq 0 256) cases.
Proof.
  intros H. apply list_elem_of_lookup. exists bits.
  apply lookup_zip_with_Some. exists bits, tris. split; [done|]. split; [|done].
  apply lookup_seq. split; [done|].
  apply lookup_lt_Some in H. exact H.
Qed.

Lemma all_entries_ok : Forall entry_ok (zip (seq 0 256) cases).
Proof. apply (bool_decide_unpack _). vm_compute. exact I. Qed.

(** C4. The table has 256 entries; the entries of bitmasks 0 and 255 are
    empty; and under every bitmask each triangle of its entry is a triple
    of edge identifiers, each naming an edge of [EDGES] whose two endpoint
    corners differ in solidity. *)
Theorem cases_edges_cross_surface :
  length cases = 256 ∧ cases !! 0 = Some [] ∧ cases !! 255 = Some [] ∧
  ∀ bits tris tri e,
    cases !! bits = Some tris → tri ∈ tris → e ∈ tri →
    length tri = 3 ∧
    ∃ v1 v2, EDGES !! e = Some (v1, v2) ∧ solid bits v1 ≠ solid bits v2.
Proof.
  split; [reflexivity|]. split; [reflexivity|]. split; [reflexivity|].
  intros bits tris tri e Hb Ht He.
  pose proof all_entries_ok as Hall.
  rewrite Forall_forall in Hall.
  specialize (Hall _ (cases_numbered _ _ Hb)). unfold entry_ok in Hall; simpl in Hall.
  rewrite Forall_forall in Hall. destruct (Hall _ Ht) as [Hlen Hsep].
  split; [exact Hlen|].
  rewrite Forall_forall in Hsep. specialize (Hsep _ He).
  unfold separates in Hsep. destruct (EDGES !! e) as [[v1 v2]|]; [|done].
  by exists v1, v2.
Qed.

Lemma cases_edges_cross_surface_witness :
  ∃ v1 v2, EDGES !! 8 = Some (v1, v2) ∧ solid 1 v1 ≠ solid 1 v2.
Proof.
  destruct cases_edges_cross_surface as (_ & _ & _ & H).
  destruct (H 1 [[8; 0; 3]] [8; 0; 3] 8) as [_ Hsep].
  - reflexivity.
  - apply list_elem_of_In. simpl. auto.
  - apply list_elem_of_In. simpl. auto.
  - exact Hsep.
Defined.

(** *** Face consistency

    Two cubes are face-adjacent along axis [d] (0, 1 or 2 for x, y, z):
    the first cube's face [coord d = 1] is the second cube's face
    [coord d = 0].  A corner of the first cube on that face coincides with
    the corner of the second cube that has the same other two
    coordinates. *)

Definition coord (d : nat) (v : nat * nat * nat) : nat :=
  match d with 0 => v.1.1 | 1 => v.1.2 | _ => v.2 end.

Definition set_coord (d s : nat) (v : nat * nat * nat) : nat * nat * nat :=
  match d with
  | 0 => (s, v.1.2, v.2)
  | 1 => (v.1.1, s, v.2)
  | _ => (v.1.1, v.1.2, s)
  end.

Definition corner_on_face (d s i : nat) : bool :=
  match VERTICES !! i with Some v => coord d v =? s | None => false end.

Definition face_corners (d s : nat) : list nat :=
  List.filter (corner_on_face d s) (seq 0 8).

(** The corner of the neighbouring cube that coincides with corner [i]. *)
Definition across (d i : nat) : option nat :=
  v ← VERTICES !! i;
  fst <$> list_find (λ w, w = set_coord d 0 v) VERTICES.

Definition edge_between (a b : nat) : option nat :=
  fst <$> list_find (λ vs, vs = (a, b) ∨ vs = (b, a)) EDGES.

Definition edge_on_face (d s e : nat) : bool :=
  match EDGES !! e with
  | Some vs => corner_on_face d s vs.1 && corner_on_face d s vs.2
  | None => false
  end.

Definition edge_across (d e : nat) : option nat :=
  vs ← EDGES !! e;
  a ← across d vs.1;
  b ← across d vs.2;
  edge_between a b.

(** The sides of a triangle, as pairs of the cube edges its vertices lie
    on, in winding order. *)
Definition sides (tri : list nat) : list (nat * nat) :=
  match tri with
  | [a; b; c] => [(a, b); (b, c); (c, a)]
  | _ => []
  end.

(** The segments a table entry draws on the face [coord d = s]: the
    triangle sides with both ends on edges of that face. *)
Definition face_segments (d s bits : nat) : list (nat * nat) :=
  List.filter (λ ab, edge_on_face d s ab.1 && edge_on_face d s ab.2)
              (default [] (cases !! bits) ≫= sides).

(** The same segments named by the neighbouring cube's edge identifiers. *)
Definition segments_across (d : nat) (segs : list (nat * nat))
  : option (list (nat * nat)) :=
  mapM (λ ab, a ← edge_across d ab.1; b ← edge_across d ab.2; Some (a, b)) segs.

(** The two bitmasks give the four shared corners the same solidity. *)
Definition agree_on_shared_face (d m1 m2 : nat) : Prop :=
  Forall (λ i, match across d i with
               | Some j => solid m1 i = solid m2 j
               | None => False
               end) (face_corners d 1).

Definition swap_pair (ab : nat * nat) : nat * nat := (ab.2, ab.1).

(** The same set of segments, a segment being an unordered pair. *)
Definition same_segments (s1 s2 : list (nat * nat)) : Prop :=
  Forall (λ ab, ab ∈ s2 ∨ swap_pair ab ∈ s2) s1 ∧
  Forall (λ ab, ab ∈ s1 ∨ swap_pair ab ∈ s1) s2.

(** The set of segments with every orientation reversed: the two cubes see
    the shared face from opposite sides. *)
Definition mirrored_segments (s1 s2 : list (nat * nat)) : Prop :=
  Forall (λ ab, swap_pair ab ∈ s2) s1 ∧ Forall (λ ab, swap_pair ab ∈ s1) s2.

(** The solidity of the listed corners, and the bitmask that has exactly
    those corners solid. *)
Definition corner_key (bits : nat) (corners : list nat) : list bool :=
  solid bits <$> corners.

Definition mask_of (corners : list nat) (key : list bool) : nat :=
  foldr (λ cb acc, if cb.2 : bool then 2 ^ cb.1 + acc else acc) 0 (zip corners key).

(** The second cube's corners on the shared face, in the order of the
    first cube's corners they coincide with. *)
Definition far_corners (d : nat) : list nat := omap (across d) (face_corners d 1).

(** Oriented set equality of segment lists. *)
Definition equal_segments (s1 s2 : list (nat * nat)) : Prop :=
  Forall (λ ab, ab ∈ s2) s1 ∧ Forall (λ ab, ab ∈ s1) s2.

(** What the first cube draws on the shared face depends only on the four
    shared corners: it is what a second cube with only those corners solid
    draws there, with orientation reversed. *)
Definition near_side_ok (d m1 : nat) : Prop :=
  match segments_across d (face_segments d 1 m1) with
  | Some segs =>
      mirrored_segments segs
        (face_segments d 0 (mask_of (far_corners d) (corner_key m1 (face_corners d 1))))
  | None => False
  end.

Definition far_side_ok (d m2 : nat) : Prop :=
  equal_segments (face_segments d 0 m2)
    (face_segments d 0 (mask_of (far_corners d) (corner_key m2 (far_corners d)))).

#[local] Instance near_side_ok_dec d m : Decision (near_side_ok d m).
Proof.
  unfold near_side_ok, mirrored_segments.
  destruct (segments_across d (face_segments d 1 m)); apply _.
Defined.

#[local] Instance far_side_ok_dec d m : Decision (far_side_ok d m).
Proof. unfold far_side_ok, equal_segments. apply _. Defined.

Lemma all_sides_ok :
  Forall (λ d, Forall (λ m, near_side_ok d m ∧ far_side_ok d m) (seq 0 256)) (seq 0 3).
Proof. apply (bool_decide_unpack _). vm_compute. exact I. Qed.

Lemma side_ok d m : d < 3 → m < 256 → near_side_ok d m ∧ far_side_ok d m.
Proof.
  intros Hd Hm. pose proof all_sides_ok as Hall.
  rewrite Forall_forall in Hall.
  assert (Hd' : d ∈ seq 0 3) by (apply elem_of_seq; lia).
  specialize (Hall d Hd'). rewrite Forall_forall in Hall.
  apply Hall, elem_of_seq. lia.
Qed.

Lemma agree_corner_key d m1 m2 :
  d < 3 → agree_on_shared_face d m1 m2 →
  corner_key m1 (face_corners d 1) = corner_key m2 (far_corners d).
Proof.
  intros Hd H. unfold agree_on_shared_face in H.
  destruct d as [|[|[|d]]]; [| | |lia];
    match goal with
    | |- context [far_corners ?d] =>
        let v := eval vm_compute in (far_corners d) in change (far_corners d) with v
    end;
    match goal with
    | |- context [face_corners ?d 1] =>
        let v := eval vm_compute in (face_corners d 1) in
        change (face_corners d 1) with v in *
    end;
    repeat match type of H with
           | Forall _ (_ :: _) => apply Forall_cons in H as [?Hc H]
           end;
    repeat match goal with
           | Hc : context [across ?d ?i] |- _ =>
               let v := eval vm_compute in (across d i) in
               change (across d i) with v in Hc
           end;
    unfold corner_key; cbn [fmap list_fmap]; congruence.
Qed.

Lemma mirrored_equal_same s1 s s2 :
  mirrored_segments s1 s → equal_segments s2 s →
  same_segments s1 s2 ∧ mirrored_segments s1 s2.
Proof.
  unfold mirrored_segments, equal_segments, same_segments.
  rewrite !Forall_forall. intros [H1 H2] [H3 H4].
  assert (Hswap : ∀ ab : nat * nat, swap_pair (swap_pair ab) = ab) by (by intros []).
  assert (A : ∀ ab, ab ∈ s1 → swap_pair ab ∈ s2) by (intros ab Hab; apply H4, H1, Hab).
  assert (B : ∀ ab, ab ∈ s2 → swap_pair ab ∈ s1) by (intros ab Hab; apply H2, H3, Hab).
  repeat split; auto.
Qed.

Lemma stitching d m1 m2 :
  d < 3 → m1 < 256 → m2 < 256 → agree_on_shared_face d m1 m2 →
  ∃ segs, segments_across d (face_segments d 1 m1) = Some segs ∧
          same_segments segs (face_segments d 0 m2) ∧
          mirrored_segments segs (face_segments d 0 m2).
Proof.
  intros Hd H1 H2 Hagree.
  destruct (side_ok d m1 Hd H1) as [Hnear _].
  destruct (side_ok d m2 Hd H2) as [_ Hfar].
  unfold near_side_ok in Hnear. unfold far_side_ok in Hfar.
  rewrite (agree_corner_key _ _ _ Hd Hagree) in Hnear.
  destruct (segments_across d (face_segments d 1 m1)) as [segs|]; [|done].
  exists segs. split; [done|]. eapply mirrored_equal_same; eauto.
Qed.

(** C3. For every axis and every pair of bitmasks that agree on the four
    corners of the face two adjacent cubes share, the segments the first
    cube's triangles draw on that face, renamed to the second cube's edge
    identifiers, are the segments the second cube's triangles draw on it. *)
Theorem cases_face_consistent (d m1 m2 : nat) :
  d < 3 → m1 < 256 → m2 < 256 →
  agree_on_shared_face d m1 m2 →
  ∃ segs, segments_across d (face_segments d 1 m1) = Some segs ∧
          same_segments segs (face_segments d 0 m2).
Proof.
  intros Hd H1 H2 Hagree.
  destruct (stitching d m1 m2 Hd H1 H2 Hagree) as (segs & ? & ? & ?).
  by exists segs.
Qed.

#[local] Instance agree_dec d m1 m2 : Decision (agree_on_shared_face d m1 m2).
Proof.
  unfold agree_on_shared_face. apply Forall_dec. intros i.
  destruct (across d i); apply _.
Defined.

(** Bitmask 6 beside bitmask 9 along x: corners 1 and 2 of the first cube
    are corners 0 and 3 of the second. *)
Lemma cases_face_consistent_witness :
  ∃ segs, segments_across 0 (face_segments 0 1 6) = Some segs ∧
          same_segments segs (face_segments 0 0 9).
Proof.
  apply (cases_face_consistent 0 6 9); [lia|lia|lia|].
  apply (bool_decide_unpack _). vm_compute. exact I.
Defined.

(** The two cubes traverse every shared segment in opposite directions. *)
Lemma cases_face_winding (d m1 m2 : nat) :
  d < 3 → m1 < 256 → m2 < 256 →
  agree_on_shared_face d m1 m2 →
  ∃ segs, segments_across d (face_segments d 1 m1) = Some segs ∧
          mirrored_segments segs (face_segments d 0 m2).
Proof.
  intros Hd H1 H2 Hagree.
  destruct (stitching d m1 m2 Hd H1 H2 Hagree) as (segs & ? & ? & ?).
  by exists segs.
Qed.

End CaseTable.


(** ** The case-table generator *)

Module CaseGenFacts.
Import CaseGen.

(** The loop is a sequence of dict assignments, one per derivation. *)
Lemma ALL_CASES_derivations :
  ALL_CASES = dict_assign ALL_CASES_initial <$> derivations.
Proof. vm_compute. reflexivity. Qed.

(** Two derivations that disagree: the loop assigns bitmask 2 first the
    triangle (11, 3, 2), later the triangle (0, 9, 1). *)
Lemma derivations_inconsistent :
  ∃ ds i j, derivations = Some ds ∧
    ds !! i = Some (2%N, [[11; 3; 2]]) ∧ ds !! j = Some (2%N, [[0; 9; 1]]).
Proof. eexists _, 1, 31. vm_compute. done. Qed.

(** C2. The loop of the generator leaves a table of 54 entries, not 256:
    bitmask 255, for one, has no entry; 60 assignments are made, so some
    bitmasks are assigned more than once; and the generator's own [test1]
    fails on the table. *)
Theorem ALL_CASES_not_complete :
  ∃ all ds, ALL_CASES = Some all ∧ derivations = Some ds ∧
    size all = 54 ∧ all !! 255%N = None ∧
    length ds = 60 ∧ test1 all = false.
Proof. eexists _, _. vm_compute. done. Qed.

End CaseGenFacts.

(** ** The edge interpolator *)

Module AdaptFacts.
#[local] Open Scope Q_scope.
Import Common.
(** Exactly one of the two samples is strictly positive. *)
Definition one_positive (v0 v1 : Q) : Prop :=
  (0 < v0 ∧ ¬ 0 < v1) ∨ (0 < v1 ∧ ¬ 0 < v0).

Lemma one_positive_guard v0 v1 :
  one_positive v0 v1 ↔ negb (eqb (Qlt_bool 0 v1) (Qlt_bool 0 v0)) = true.
Proof.
  unfold one_positive.
  destruct (Qlt_bool 0 v1) eqn:E1, (Qlt_bool 0 v0) eqn:E0; simpl;
    rewrite ?Qlt_bool_iff, ?Qlt_bool_false in *; split; try done; try lra; intros; lra.
Qed.

Lemma root_in_unit v0 v1 :
  one_positive v0 v1 → 0 <= (0 - v0) / (v1 - v0) <= 1.
Proof.
  intros [[H0 H1]|[H1 H0]].
  - assert (E : (0 - v0) / (v1 - v0) == v0 / (v0 - v1)) by (field; lra).
    rewrite E. split.
    + apply Qle_shift_div_l; lra.
    + apply Qle_shift_div_r; lra.
  - split.
    + apply Qle_shift_div_l; lra.
    + apply Qle_shift_div_r; lra.
Qed.

Section WithSettings.
Variable cfg : settings.

End WithSettings.

(** [adapt(-1, 1)] with adaptive mode on and cell size 1 is 0.5. *)
Lemma adapt_example :
  ∃ r, adapt defaults (-1) 1 = Ok r ∧ r == 0.5.
Proof. eexists. split; [reflexivity|]. reflexivity. Qed.

End AdaptFacts.

(** ** Property painting in 2D *)

Module PaintFacts.
#[local] Open Scope Q_scope.
Import MarchingCubes2DProp.

Definition all_ends {P} (ends : list (boundary_vertex * boundary_vertex))
  : list (@boundary_vertex P) :=
  ends ≫= λ e12, [e12.1; e12.2].

Section WithProperty.
Context {P : Type} `{EqDecision P}.
Variable f : Q → Q → Q.
Variable f_property : Q → Q → P.
Variables x y : Q.

(** What holds of one end: it comes from an [adapt] call that returned,
    on the samples it records, and a tie is painted with the property of
    the call's first argument. *)
Definition end_ok (e : @boundary_vertex P) : Prop :=
  adapt (sample f x y (bv_first e)) (sample f x y (bv_second e)) = Ok (bv_a e) ∧
  (bv_a e == 0.5 → bv_p e = p_ f_property x y (bv_first e)).

Lemma end_of_ok c0 c1 v hi e :
  end_of f f_property x y c0 c1 v c0 hi = Ok e → end_ok e.
Proof.
  unfold end_of, end_ok. destruct (adapt (sample f x y c0) (sample f x y c1)) as [a|] eqn:Ha;
    simpl; [|done].
  intros [= <-]. simpl. split; [done|].
  intros Htie. destruct (Qle_bool a 0.5) eqn:E; [done|].
  assert (a <= 0.5) as Hle by (rewrite Htie; apply Qle_refl).
  apply Qle_bool_iff in Hle. congruence.
Qed.

Lemma end_of_returns c0 c1 v lo hi :
  Qlt_bool 0 (sample f x y c1) ≠ Qlt_bool 0 (sample f x y c0) →
  ∃ e, end_of f f_property x y c0 c1 v lo hi = Ok e.
Proof.
  intros Hne. unfold end_of, adapt.
  destruct (Qlt_bool 0 (sample f x y c1)), (Qlt_bool 0 (sample f x y c0));
    try done; simpl; eauto.
Qed.

Ltac run_end :=
  match goal with
  | |- context [end_of f f_property x y ?c0 ?c1 ?v ?lo ?hi] =>
      let e := fresh "e" in let He := fresh "He" in
      destruct (end_of_returns c0 c1 v lo hi) as [e He];
      [ congruence
      | rewrite He; pose proof (end_of_ok _ _ _ _ _ He); clear He; cbn [mbind result_bind] ]
  end.

(** Every cell is processed without an exception, and every end it
    computes satisfies [end_ok]. *)
Lemma cell_ends_ok :
  ∃ ends, cell_ends f f_property x y = Ok ends ∧ Forall end_ok (all_ends ends).
Proof.
  unfold cell_ends, case_of.
  destruct (Qlt_bool 0 (sample f x y x0y0)) eqn:E00,
           (Qlt_bool 0 (sample f x y x0y1)) eqn:E01,
           (Qlt_bool 0 (sample f x y x1y0)) eqn:E10,
           (Qlt_bool 0 (sample f x y x1y1)) eqn:E11;
    cbn [Nat.add]; repeat run_end;
    (eexists; split; [reflexivity|]); unfold all_ends; cbn;
    repeat (apply Forall_cons_2; [assumption|]); try apply Forall_nil_2; exact I.
Qed.

End WithProperty.

Definition example_f (x y : Q) : Q := - 3 - 2 * x - 2 * y.

(** [example_property_function] *)
Definition example_property_function (x y : Q) : nat :=
  if Qlt_bool x 0 && Qlt_bool y 0 then 0%nat
  else if Qle_bool 0 x && Qlt_bool y 0 then 1%nat
  else if Qlt_bool x 0 && Qle_bool 0 y then 2%nat
  else 3%nat.


Section Amended.
Context {P : Type} `{EqDecision P}.

(** C6 (amended). Every cell is processed without an exception, and in
    every branch each end of a segment comes from the [adapt] call its
    record names; when the offset is exactly 0.5 the end is painted with
    the property sampled at the first argument of that call. *)
Theorem tie_painted_with_first_endpoint
    (f : Q → Q → Q) (f_property : Q → Q → P) (x y : Q) :
  ∃ ends, cell_ends f f_property x y = Ok ends ∧
    ∀ e, e ∈ all_ends ends →
      adapt (sample f x y (bv_first e)) (sample f x y (bv_second e)) = Ok (bv_a e) ∧
      (bv_a e == 0.5 → bv_p e = p_ f_property x y (bv_first e)).
Proof.
  destruct (cell_ends_ok f f_property x y) as (ends & Hends & Hall).
  exists ends. split; [done|]. intros e He.
  rewrite Forall_forall in Hall. apply (Hall e He).
Qed.
End Amended.

(** C6, as stated, fails.  The cell at (-1, -1) of [example_f] has only
    its corner [x0y0] solid; both offsets are exactly 1/2, and both ends
    are painted 0, the property at [x0y0], the first argument of either
    [adapt] call, not 1 or 2, the properties at the second arguments. *)
Lemma tie_painted_with_first_not_second :
  ∃ e1 e2,
    cell_ends example_f example_property_function (-1) (-1) = Ok [(e1, e2)] ∧
    (bv_first e1, bv_second e1) = (x0y0, x1y0) ∧
    (bv_first e2, bv_second e2) = (x0y0, x0y1) ∧
    bv_a e1 == 0.5 ∧ bv_a e2 == 0.5 ∧
    bv_p e1 = 0%nat ∧ bv_p e2 = 0%nat ∧
    p_ example_property_function (-1) (-1) x0y0 = 0%nat ∧
    p_ example_property_function (-1) (-1) x1y0 = 1%nat ∧
    p_ example_property_function (-1) (-1) x0y1 = 2%nat ∧
    marching_cubes_2d_single_cell example_f example_property_function (-1) (-1)
    = Ok [mk_Edge (mk_V2 (-1 # 2) (-1)) (mk_V2 (-1) (-1 # 2)) 0%nat].
Proof. eexists _, _. repeat split. Qed.

End PaintFacts.

(** ** The QEF solver and the vertex placer *)

Module QefFacts.
#[local] Open Scope Q_scope.
Import Qef.

(** *** Running monadic code *)

Lemma bind_ok {A B} (m : M A) (k : A → M B) h h' a :
  m h = (h', Ok a) → (m ≫= k) h = k a h'.
Proof. intros H. unfold mbind, M_bind. by rewrite H. Qed.

Lemma bind_raise {A B} (m : M A) (k : A → M B) h h' e :
  m h = (h', Raise e) → (m ≫= k) h = (h', Raise e).
Proof. intros H. unfold mbind, M_bind. by rewrite H. Qed.

Lemma lift_run {A} (r : result A) h : lift r h = (h, r).
Proof. reflexivity. Qed.

Lemma ret_run {A} (a : A) h : mret (M := M) a h = (h, Ok a).
Proof. reflexivity. Qed.

Lemma alloc_run o h : alloc o h = (h ++ [o], Ok (length h)).
Proof. reflexivity. Qed.

Lemma read_fixed_run l fv h :
  h !! l = Some (Fixed fv) → read_fixed l h = (h, Ok fv).
Proof. intros H. unfold read_fixed. by rewrite H. Qed.

Lemma read_points_run l ps h :
  h !! l = Some (Points ps) → read_points l h = (h, Ok ps).
Proof. intros H. unfold read_points. by rewrite H. Qed.

(** *** Arrays *)

(** All rows have [n] entries. *)
Definition rect (n : nat) (A : matrix) : Prop := Forall (λ r, length r = n) A.

Lemma mapM_ok {A B} (g : A → result B) (g' : A → B) (l : list A) :
  Forall (λ a, g a = Ok (g' a)) l → mapM g l = Ok (g' <$> l).
Proof.
  induction 1 as [|a l Ha _ IH]; [done|].
  cbn. rewrite Ha. cbn. rewrite IH. done.
Qed.

Lemma getitem_lt {A} (l : list A) i (d : A) :
  (i < length l)%nat → getitem l i = Ok (nth i l d).
Proof.
  intros H. unfold getitem. destruct (l !! i) as [a|] eqn:E.
  - by rewrite (nth_lookup_Some _ _ d _ E).
  - apply lookup_ge_None in E. lia.
Qed.

Lemma lookup_nth {A} (l : list A) i (d : A) :
  (i < length l)%nat → l !! i = Some (nth i l d).
Proof.
  intros H. destruct (l !! i) as [a|] eqn:E.
  - by rewrite (nth_lookup_Some _ _ d _ E).
  - apply lookup_ge_None in E. lia.
Qed.

Lemma column_rect n A axis :
  rect n A → (axis < n)%nat → column A axis = Ok ((λ r, nth axis r 0) <$> A).
Proof.
  intros HA Hlt. apply mapM_ok. eapply Forall_impl; [exact HA|].
  intros r Hr. apply getitem_lt. simpl in Hr. lia.
Qed.

Lemma np_delete_rect n A axis :
  rect n A → (axis < n)%nat → np_delete A axis = Ok (delete axis <$> A).
Proof.
  intros HA Hlt. apply mapM_ok. eapply Forall_impl; [exact HA|].
  intros r Hr. simpl in *. case_decide; [done|lia].
Qed.

Lemma rect_delete n A axis :
  rect n A → (axis < n)%nat → rect (n - 1) (delete axis <$> A).
Proof.
  intros HA Hlt. unfold rect. rewrite Forall_fmap.
  eapply Forall_impl; [exact HA|]. intros r Hr. simpl in *.
  rewrite length_delete; [lia|]. apply lookup_lt_is_Some. lia.
Qed.

Lemma np_broadcast_same op u v :
  length u = length v → np_broadcast op u v = Ok (zip_with op u v).
Proof. intros H. unfold np_broadcast. by case_decide. Qed.

Lemma matmul_rect A x :
  rect (length x) A → matmul A x = Ok ((λ r, dot r x) <$> A).
Proof.
  intros HA. unfold matmul.
  replace (forallb _ A) with true; [done|]. symmetry. apply forallb_forall.
  intros r Hr. apply bool_decide_eq_true. unfold rect in HA. rewrite Forall_forall in HA.
  apply HA. by apply list_elem_of_In.
Qed.

(** Lists of points: every entry is a vector of [d] numbers. *)
Definition is_point (d : nat) (it : item) : Prop :=
  match it with Vec v => length v = d | NanScalar => False end.

Definition points (d : nat) (l : list item) : Prop := Forall (is_point d) l.

Definition vec_of (it : item) : vec :=
  match it with Vec v => v | NanScalar => [] end.

Lemma np_array_points d l :
  points d l → np_array l = Ok (vec_of <$> l).
Proof.
  intros Hl. destruct Hl as [|[v|] l Hv Hl]; cbn; [done| |done].
  assert (Hall : ∀ it, it ∈ l → is_point d it) by (by apply Forall_forall).
  cbn in Hv. replace (forallb _ l) with true.
  - f_equal. f_equal. clear Hl. induction l as [|[w|] l IH]; cbn; [done| |].
    + rewrite IH; [done|]. intros it Hit. apply Hall. by right.
    + exfalso. apply (Hall NanScalar). by left.
  - symmetry. apply forallb_forall. intros it Hit%list_elem_of_In.
    specialize (Hall it Hit). destruct it; [|done]. cbn in Hall.
    apply bool_decide_eq_true. congruence.
Qed.

Lemma rect_points d l : points d l → rect d (vec_of <$> l).
Proof.
  intros Hl. unfold rect. rewrite Forall_fmap. eapply Forall_impl; [exact Hl|].
  by intros [v|].
Qed.

Lemma item_get_point d it i :
  is_point d it → (i < d)%nat → item_get it i = Ok (nth i (vec_of it) 0).
Proof. destruct it as [v|]; [|done]. cbn. intros <- Hi. by apply getitem_lt. Qed.

Lemma columns_length n rows : length (columns n rows) = n.
Proof. revert rows. induction n as [|n IH]; intros rows; cbn; auto. Qed.

(** The mean of a non-empty list of points is a point. *)
Lemma np_mean_points d l :
  points d l → l ≠ [] → ∃ m, np_mean l = Ok m ∧ is_point d m.
Proof.
  intros Hl Hne. destruct l as [|[v|] l]; [done| |by inversion Hl].
  unfold np_mean. rewrite (np_array_points d) by done. cbn [mbind result_bind].
  eexists. split; [reflexivity|]. cbn. rewrite length_fmap, columns_length.
  by inversion Hl.
Qed.

(** The number of free slots of a list of fixed values. *)
Fixpoint count_free (fv : list (option Q)) : nat :=
  match fv with
  | [] => 0
  | None :: fv' => S (count_free fv')
  | Some _ :: fv' => count_free fv'
  end.

(** What [solve] builds from the fixed values and the solution [x],
    reading [x] from index [i] on. *)
Fixpoint filled (fv : list (option Q)) (x : vec) (i : nat) : vec :=
  match fv with
  | [] => []
  | None :: fv' => nth i x 0 :: filled fv' x (S i)
  | Some value :: fv' => value :: filled fv' x i
  end.

Lemma fill_position_filled fv x i :
  (i + count_free fv <= length x)%nat →
  fill_position fv x i = Ok (filled fv x i).
Proof.
  revert i. induction fv as [|[value|] fv IH]; intros i Hi; cbn in *; [done| |].
  - rewrite IH by lia. done.
  - rewrite (getitem_lt _ _ 0) by lia. cbn. rewrite IH by lia. done.
Qed.

Lemma filled_length fv x i : length (filled fv x i) = length fv.
Proof. revert i. induction fv as [|[?|] fv IH]; intros i; cbn; auto. Qed.

(** Slot [j] of the position: the recorded value if the slot is fixed,
    else the entry of [x] that the count of free slots before [j] selects. *)
Lemma filled_lookup fv x i j :
  (i + count_free fv <= length x)%nat →
  filled fv x i !! j =
    match fv !! j with
    | Some (Some value) => Some value
    | Some None => x !! (i + count_free (take j fv))%nat
    | None => None
    end.
Proof.
  revert i j. induction fv as [|[value|] fv IH]; intros i j Hi; cbn in *.
  - done.
  - destruct j as [|j]; cbn; [done|]. apply IH. lia.
  - destruct j as [|j]; cbn.
    + rewrite Nat.add_0_r. symmetry. apply lookup_nth. lia.
    + rewrite IH by lia. destruct (fv !! j) as [[?|]|]; try done.
      f_equal. lia.
Qed.

Section WithSolver.
Variable cfg : settings.
Variable lstsq : matrix → vec → result (vec * vec).

(** The invariant of a QEF in the heap [h]: [fv] is its list of fixed
    values, [A] has a column per free slot and [b] an entry per row. *)
Definition qef_wf (h : heap) (q : QEF) (fv : list (option Q)) : Prop :=
  h !! fixed_values q = Some (Fixed fv) ∧
  A q ≠ [] ∧
  rect (count_free fv) (A q) ∧
  length (b q) = length (A q).

Lemma evaluate_ok q x :
  rect (length x) (A q) → length (b q) = length (A q) →
  evaluate q x = Ok (norm (zip_with Qminus ((λ r, dot r x) <$> A q) (b q))).
Proof.
  intros HA Hb. unfold evaluate. rewrite matmul_rect by done. cbn.
  rewrite np_broadcast_same; [done|]. by rewrite length_fmap.
Qed.

Lemma fix_axis_run h q fv axis value :
  qef_wf h q fv → (axis < count_free fv)%nat → (axis < length fv)%nat →
  fix_axis q axis value h =
    (h ++ [Fixed (<[axis := Some value]> fv)],
     Ok (mk_QEF (delete axis <$> A q)
                (zip_with (λ bj r, bj - nth axis r 0 * value) (b q) (A q))
                (length h))).
Proof.
  intros (Hfv & _ & HA & Hb) Hax Hlen. unfold fix_axis.
  rewrite (column_rect _ _ _ HA Hax).
  rewrite (np_delete_rect _ _ _ HA Hax).
  erewrite bind_ok by apply lift_run.
  rewrite np_broadcast_same by (by rewrite !length_fmap).
  erewrite bind_ok by apply lift_run.
  erewrite bind_ok by apply lift_run.
  erewrite bind_ok by (by apply read_fixed_run).
  erewrite bind_ok by apply alloc_run.
  unfold mbind at 1, M_bind, setitem_fixed.
  rewrite list_lookup_middle by done.
  rewrite decide_True by done.
  rewrite ret_run. f_equal.
  - rewrite insert_app_r_alt by done. by rewrite Nat.sub_diag.
  - f_equal. f_equal. rewrite zip_with_fmap_r, zip_with_fmap_r. done.
Qed.

Lemma solve_run h q fv x res :
  qef_wf h q fv → lstsq (A q) (b q) = Ok (x, res) → length x = count_free fv →
  ∃ r, solve lstsq q h = (h, Ok (r, PyList (filled fv x 0))).
Proof.
  intros (Hfv & _ & HA & Hb) Hx Hlen. unfold solve. rewrite Hx.
  erewrite bind_ok by apply lift_run. cbn beta iota.
  assert (∃ r, (match res with [] => evaluate q x | r :: _ => Ok (Plain r) end) = Ok r)
    as [r Hr].
  { destruct res; [|by eauto]. rewrite evaluate_ok; eauto. by rewrite Hlen. }
  rewrite Hr. erewrite bind_ok by apply lift_run.
  erewrite bind_ok by (by apply read_fixed_run).
  rewrite fill_position_filled by lia.
  erewrite bind_ok by apply lift_run.
  rewrite ret_run. eauto.
Qed.

Lemma count_free_le fv : (count_free fv <= length fv)%nat.
Proof. induction fv as [|[?|] fv IH]; cbn; lia. Qed.

Lemma count_free_insert fv i value :
  fv !! i = Some None →
  S (count_free (<[i := Some value]> fv)) = count_free fv.
Proof.
  revert i. induction fv as [|[w|] fv IH]; intros [|i] H; cbn in *; try done.
  - by rewrite IH.
  - by rewrite IH.
Qed.

Lemma qef_wf_mono h k q fv : qef_wf h q fv → qef_wf (h ++ k) q fv.
Proof.
  intros (Hfv & ? & ? & ?). split; [|done]. by apply lookup_app_l_Some.
Qed.

(** The QEF [fix_axis] returns satisfies the invariant again when the
    slot it fixes was free. *)
Lemma fix_axis_wf h q fv axis value :
  qef_wf h q fv → (axis < count_free fv)%nat → fv !! axis = Some None →
  qef_wf (h ++ [Fixed (<[axis := Some value]> fv)])
         (mk_QEF (delete axis <$> A q)
                 (zip_with (λ bj r, bj - nth axis r 0 * value) (b q) (A q))
                 (length h))
         (<[axis := Some value]> fv).
Proof.
  intros (Hfv & Hne & HA & Hb) Hax Hfree. repeat split; cbn.
  - by apply list_lookup_middle.
  - destruct (A q); [done|]. done.
  - pose proof (count_free_insert _ _ value Hfree) as Hc.
    replace (count_free (<[axis:=Some value]> fv)) with (count_free fv - 1)%nat by lia.
    by apply rect_delete.
  - rewrite length_zip_with, length_fmap. lia.
Qed.

(** The right-hand sides [make_2d] and [make_3d] compute. *)
Definition b_2d (ps ns : list item) : vec :=
  (λ vn : item * item,
     let v := vec_of vn.1 in let n := vec_of vn.2 in
     nth 0 v 0 * nth 0 n 0 + nth 1 v 0 * nth 1 n 0) <$> zip ps ns.

Definition b_3d (ps ns : list item) : vec :=
  (λ vn : item * item,
     let v := vec_of vn.1 in let n := vec_of vn.2 in
     nth 0 v 0 * nth 0 n 0 + nth 1 v 0 * nth 1 n 0 + nth 2 v 0 * nth 2 n 0)
  <$> zip ps ns.

Lemma points_zip d ps ns :
  points d ps → points d ns →
  Forall (λ vn : item * item, is_point d vn.1 ∧ is_point d vn.2) (zip ps ns).
Proof.
  intros Hps. revert ns. induction Hps as [|p ps Hp Hps IH]; intros ns Hns; [constructor|].
  destruct Hns as [|n ns Hn Hns]; cbn; [constructor|]. constructor; [done|]. by apply IH.
Qed.

Lemma make_2d_run h positions normals ps ns :
  h !! positions = Some (Points ps) → h !! normals = Some (Points ns) →
  points 2 ps → points 2 ns → ns ≠ [] →
  make_2d positions normals h =
    (h ++ [Fixed [None; None]],
     Ok (mk_QEF (vec_of <$> ns) (b_2d ps ns) (length h))).
Proof.
  intros Hp Hn Hps Hns Hne. unfold make_2d.
  erewrite bind_ok by (by apply read_points_run).
  rewrite (np_array_points 2) by done.
  erewrite bind_ok by apply lift_run.
  erewrite bind_ok by (by apply read_points_run).
  erewrite (mapM_ok _ (λ vn : item * item,
     let v := vec_of vn.1 in let n := vec_of vn.2 in
     nth 0 v 0 * nth 0 n 0 + nth 1 v 0 * nth 1 n 0)).
  2:{ eapply Forall_impl; [by apply (points_zip 2)|]. intros [v n] [Hv Hn']. cbn in *.
      rewrite !(item_get_point 2) by (done || lia). done. }
  erewrite bind_ok by apply lift_run.
  destruct ns as [|n0 ns']; [done|]. inversion Hns as [|? ? Hn0 _]; subst.
  destruct n0 as [v0|]; [|done]. cbn in Hn0. cbn [fmap list_fmap vec_of shape1].
  rewrite Hn0.
  erewrite bind_ok by apply lift_run.
  erewrite bind_ok by apply alloc_run.
  rewrite ret_run. done.
Qed.

Lemma make_3d_run h positions normals ps ns :
  h !! positions = Some (Points ps) → h !! normals = Some (Points ns) →
  points 3 ps → points 3 ns → ns ≠ [] →
  make_3d positions normals h =
    (h ++ [Fixed [None; None; None]],
     Ok (mk_QEF (vec_of <$> ns) (b_3d ps ns) (length h))).
Proof.
  intros Hp Hn Hps Hns Hne. unfold make_3d.
  erewrite bind_ok by (by apply read_points_run).
  rewrite (np_array_points 3) by done.
  erewrite bind_ok by apply lift_run.
  erewrite bind_ok by (by apply read_points_run).
  erewrite (mapM_ok _ (λ vn : item * item,
     let v := vec_of vn.1 in let n := vec_of vn.2 in
     nth 0 v 0 * nth 0 n 0 + nth 1 v 0 * nth 1 n 0 + nth 2 v 0 * nth 2 n 0)).
  2:{ eapply Forall_impl; [by apply (points_zip 3)|]. intros [v n] [Hv Hn']. cbn in *.
      rewrite !(item_get_point 3) by (done || lia). done. }
  erewrite bind_ok by apply lift_run.
  destruct ns as [|n0 ns']; [done|]. inversion Hns as [|? ? Hn0 _]; subst.
  destruct n0 as [v0|]; [|done]. cbn in Hn0. cbn [fmap list_fmap vec_of shape1].
  rewrite Hn0.
  erewrite bind_ok by apply lift_run.
  erewrite bind_ok by apply alloc_run.
  rewrite ret_run. done.
Qed.

(** A freshly built QEF satisfies the invariant, with every slot free. *)
Lemma make_wf d h ns b :
  points d ns → ns ≠ [] → length b = length ns →
  qef_wf (h ++ [Fixed (replicate d None)]) (mk_QEF (vec_of <$> ns) b (length h))
         (replicate d None).
Proof.
  intros Hns Hne Hb. repeat split; cbn.
  - by apply list_lookup_middle.
  - by destruct ns.
  - replace (count_free (replicate d None)) with d
      by (clear; induction d; cbn; congruence).
    by apply rect_points.
  - by rewrite length_fmap.
Qed.

(** A solver that answers every well-shaped system with a vector of one
    entry per column. *)
Definition solver_total : Prop :=
  ∀ n A b, A ≠ [] → rect n A → length b = length A →
    ∃ x res, lstsq A b = Ok (x, res) ∧ length x = n.

(** *** Computations that only allocate

    [grows h1 P m]: started in any heap that extends [h1], [m] returns a
    value satisfying [P] and leaves a heap that extends the one it
    started in. *)
Definition grows {A} (h1 : heap) (P : A → Prop) (m : M A) : Prop :=
  ∀ k, ∃ k' a, m (h1 ++ k) = (h1 ++ k ++ k', Ok a) ∧ P a.

Lemma grows_bind {A B} h1 (P : A → Prop) (R : B → Prop) (m : M A) (f : A → M B) :
  grows h1 P m → (∀ a, P a → grows h1 R (f a)) → grows h1 R (m ≫= f).
Proof.
  intros Hm Hf k. destruct (Hm k) as (k1 & a & Hrun & Ha).
  destruct (Hf a Ha (k ++ k1)) as (k2 & c & Hrun' & Hc).
  exists (k1 ++ k2), c. split; [|done].
  erewrite bind_ok by exact Hrun. rewrite Hrun'. by rewrite <- !app_assoc.
Qed.

Lemma grows_lift {A} h1 (P : A → Prop) a : P a → grows h1 P (lift (Ok a)).
Proof. intros Ha k. exists [], a. by rewrite app_nil_r. Qed.

Lemma grows_ret {A} h1 (P : A → Prop) a : P a → grows h1 P (mret a).
Proof. intros Ha k. exists [], a. by rewrite app_nil_r. Qed.

Lemma grows_bind_lift {A B} h1 (R : B → Prop) (a : A) (f : A → M B) :
  grows h1 R (f a) → grows h1 R (lift (Ok a) ≫= f).
Proof. intros H k. apply H. Qed.

Lemma grows_bind_ret {A B} h1 (R : B → Prop) (a : A) (f : A → M B) :
  grows h1 R (f a) → grows h1 R (mret a ≫= f).
Proof. intros H k. apply H. Qed.

Lemma grows_weaken {A} h1 (P R : A → Prop) m :
  grows h1 P m → (∀ a, P a → R a) → grows h1 R m.
Proof.
  intros Hm HPR k. destruct (Hm k) as (k' & a & ? & ?). exists k', a. eauto.
Qed.

Lemma grows_run_all {A} h1 (P : A → Prop) (ms : list (M A)) :
  Forall (grows h1 P) ms →
  grows h1 (λ rs, Forall P rs ∧ length rs = length ms) (run_all ms).
Proof.
  induction 1 as [|m ms Hm _ IH]; cbn [run_all].
  - by apply grows_ret.
  - eapply grows_bind; [exact Hm|]. intros r Hr.
    eapply grows_bind; [exact IH|]. intros rs [Hrs Hlen].
    apply grows_ret. split; [by constructor|]. cbn. by rewrite Hlen.
Qed.

(** A candidate position: a list, or a tuple, of [n] numbers. *)
Definition is_list (n : nat) (r : resid * pyseq) : Prop :=
  ∃ l, r.2 = PyList l ∧ length l = n.
Definition is_tuple (n : nat) (r : resid * pyseq) : Prop :=
  ∃ l, r.2 = PyTuple l ∧ length l = n.

Lemma grows_fix_solve h1 q fv axis value :
  solver_total → qef_wf h1 q fv → (axis < count_free fv)%nat →
  fv !! axis = Some None →
  grows h1 (is_list (length fv)) (fix_solve lstsq q axis value).
Proof.
  intros Htotal Hwf Hax Hfree k. unfold fix_solve.
  pose proof (qef_wf_mono _ k _ _ Hwf) as Hwfk.
  pose proof (count_free_le fv).
  erewrite bind_ok by (apply fix_axis_run; eauto; lia).
  pose proof (fix_axis_wf _ _ _ axis value Hwfk Hax Hfree) as Hwf'.
  destruct Hwf' as (Hfv' & Hne' & HA' & Hb').
  destruct (Htotal _ _ _ Hne' HA' Hb') as (x & res & Hx & Hlen).
  edestruct solve_run as [r Hr]; [ |exact Hx|exact Hlen|].
  { split; [exact Hfv'|]. split; [exact Hne'|]. split; [exact HA'|exact Hb']. }
  rewrite Hr. eexists [_], _. rewrite <- app_assoc. split; [reflexivity|].
  eexists. split; [reflexivity|]. by rewrite filled_length, length_insert.
Qed.

Lemma grows_fix_fix_solve h1 q fv axis1 value1 axis2 value2 :
  solver_total → qef_wf h1 q fv →
  (axis1 < count_free fv)%nat → fv !! axis1 = Some None →
  (S axis2 < count_free fv)%nat → (<[axis1 := Some value1]> fv) !! axis2 = Some None →
  grows h1 (is_list (length fv)) (fix_fix_solve lstsq q axis1 value1 axis2 value2).
Proof.
  intros Htotal Hwf Hax1 Hfree1 Hax2 Hfree2 k. unfold fix_fix_solve.
  pose proof (qef_wf_mono _ k _ _ Hwf) as Hwfk.
  pose proof (count_free_le fv).
  erewrite bind_ok by (apply fix_axis_run; eauto; lia).
  pose proof (fix_axis_wf _ _ _ axis1 value1 Hwfk Hax1 Hfree1) as Hwf1.
  pose proof (count_free_insert _ _ value1 Hfree1) as Hc1.
  set (fv1 := <[axis1 := Some value1]> fv) in *.
  assert (Hax2' : (axis2 < count_free fv1)%nat) by lia.
  pose proof (count_free_le fv1).
  erewrite bind_ok by (apply fix_axis_run; eauto; lia).
  pose proof (fix_axis_wf _ _ _ axis2 value2 Hwf1 Hax2' Hfree2) as Hwf2.
  destruct Hwf2 as (Hfv' & Hne' & HA' & Hb').
  destruct (Htotal _ _ _ Hne' HA' Hb') as (x & res & Hx & Hlen).
  edestruct solve_run as [r Hr]; [ |exact Hx|exact Hlen|].
  { split; [exact Hfv'|]. split; [exact Hne'|]. split; [exact HA'|exact Hb']. }
  rewrite Hr. eexists [_; _], _. rewrite <- !app_assoc. split; [reflexivity|].
  eexists. split; [reflexivity|]. unfold fv1. by rewrite filled_length, !length_insert.
Qed.

(** *** [filter] and [min] *)

Lemma py_filter_spec {A} (p : A → result bool) (rs : list A) :
  Forall (λ r, ∃ c, p r = Ok c) rs →
  ∃ keep, py_filter p rs = Ok keep ∧
    (∀ r, r ∈ keep ↔ r ∈ rs ∧ p r = Ok true).
Proof.
  induction 1 as [|r rs [c Hc] _ (keep & Hkeep & Hspec)]; cbn.
  - exists []. split; [done|]. intros r. rewrite !elem_of_nil. tauto.
  - rewrite Hc, Hkeep. cbn. eexists. split; [reflexivity|].
    intros r'. destruct c; rewrite ?elem_of_cons, Hspec; [|split].
    + split; [intros [->|[? ?]]; eauto|]. intros [[->|?] ?]; eauto.
    + intros [? ?]. eauto.
    + intros [[->|?] ?]; [congruence|eauto].
Qed.

Lemma pair_lt_lists n r s : is_list n r → is_list n s → ∃ c, pair_lt r s = Ok c.
Proof.
  intros (u & Hu & _) (v & Hv & _). unfold pair_lt. rewrite Hu, Hv. cbn.
  destruct (resid_eqb r.1 s.1); eauto.
Qed.

Lemma pair_lt_tuples n r s : is_tuple n r → is_tuple n s → ∃ c, pair_lt r s = Ok c.
Proof.
  intros (u & Hu & _) (v & Hv & _). unfold pair_lt. rewrite Hu, Hv. cbn.
  destruct (resid_eqb r.1 s.1); eauto.
Qed.

(** [min] of candidates that can be compared returns one of them. *)
Lemma min_from_in (K : resid * pyseq → Prop) best rest :
  (∀ r s, K r → K s → ∃ c, pair_lt r s = Ok c) →
  K best → Forall K rest →
  ∃ r, min_from best rest = Ok r ∧ (r = best ∨ r ∈ rest).
Proof.
  intros Hcmp Hbest Hrest. revert best Hbest.
  induction Hrest as [|s rest Hs _ IH]; intros best Hbest; cbn.
  - eauto.
  - destruct (Hcmp s best Hs Hbest) as [c ->]. cbn.
    destruct (IH (if c then s else best)) as (r & Hr & Hin); [by destruct c|].
    exists r. split; [done|]. rewrite elem_of_cons.
    destruct Hin as [->|?]; [destruct c|]; auto.
Qed.

Lemma py_min_in (K : resid * pyseq → Prop) rs :
  (∀ r s, K r → K s → ∃ c, pair_lt r s = Ok c) →
  Forall K rs → rs ≠ [] →
  ∃ r, py_min rs = Ok r ∧ r ∈ rs.
Proof.
  intros Hcmp Hrs Hne. destruct Hrs as [|best rest Hbest Hrest]; [done|].
  destruct (min_from_in K best rest Hcmp Hbest Hrest) as (r & Hr & Hin).
  exists r. split; [done|]. rewrite elem_of_cons. tauto.
Qed.

(** The residual [evaluate] reports at a point. *)
Definition resid_at (q : QEF) (c : vec) : resid :=
  norm (zip_with Qminus ((λ r, dot r c) <$> A q) (b q)).

Lemma eval_with_pos_ok q c :
  rect (length c) (A q) → length (b q) = length (A q) →
  eval_with_pos q (PyTuple c) = Ok (resid_at q c, PyTuple c).
Proof. intros HA Hb. unfold eval_with_pos. cbn. by rewrite evaluate_ok. Qed.

(** The well-formed inputs of [solve_qef_2d] ([d] is 2) and
    [solve_qef_3d] ([d] is 3): two distinct lists of equally many
    [d]-vectors, at least one. *)
Definition inputs_wf (d : nat) (h : heap) (positions normals : loc)
    (ps ns : list item) : Prop :=
  h !! positions = Some (Points ps) ∧ h !! normals = Some (Points ns) ∧
  positions ≠ normals ∧
  points d ps ∧ points d ns ∧ ns ≠ [] ∧ length ps = length ns.

(** *** The bias step *)

(** The heap after [normals.append(n1); positions.append(m);
    normals.append(n2); positions.append(m)]. *)
Definition bias_heap_2d (h : heap) (positions normals : loc) (ps ns : list item)
    (m : item) : heap :=
  let s := BIAS_STRENGTH cfg in
  <[positions := Points ((ps ++ [m]) ++ [m])]>
    (<[normals := Points ((ns ++ [Vec [s; 0]]) ++ [Vec [0; s]])]>
      (<[positions := Points (ps ++ [m])]>
        (<[normals := Points (ns ++ [Vec [s; 0]])]> h))).

Lemma append_run h l ps it :
  h !! l = Some (Points ps) → append l it h = (<[l := Points (ps ++ [it])]> h, Ok tt).
Proof. intros H. unfold append. by rewrite H. Qed.

Lemma bias_2d_run h positions normals ps ns m :
  h !! positions = Some (Points ps) → h !! normals = Some (Points ns) →
  positions ≠ normals → np_mean ps = Ok m →
  bias_2d cfg positions normals h = (bias_heap_2d h positions normals ps ns m, Ok tt).
Proof.
  intros Hp Hn Hne Hm. unfold bias_2d, bias_heap_2d.
  pose proof (lookup_lt_Some _ _ _ Hp). pose proof (lookup_lt_Some _ _ _ Hn).
  erewrite bind_ok by (by apply read_points_run).
  rewrite Hm. erewrite bind_ok by apply lift_run.
  erewrite bind_ok by (by apply append_run).
  erewrite bind_ok.
  2:{ apply append_run. by rewrite list_lookup_insert_ne. }
  erewrite bind_ok.
  2:{ apply append_run. rewrite list_lookup_insert_ne by done.
      apply list_lookup_insert_eq. done. }
  apply append_run. rewrite list_lookup_insert_ne by done.
  apply list_lookup_insert_eq. by rewrite length_insert.
Qed.

Lemma bias_heap_2d_positions h positions normals ps ns m :
  (positions < length h)%nat →
  bias_heap_2d h positions normals ps ns m !! positions = Some (Points (ps ++ [m; m])).
Proof.
  intros H. unfold bias_heap_2d. rewrite list_lookup_insert_eq.
  - by rewrite <- app_assoc.
  - by rewrite !length_insert.
Qed.

Lemma bias_heap_2d_normals h positions normals ps ns m :
  (normals < length h)%nat → positions ≠ normals →
  bias_heap_2d h positions normals ps ns m !! normals
  = Some (Points (ns ++ [Vec [BIAS_STRENGTH cfg; 0]; Vec [0; BIAS_STRENGTH cfg]])).
Proof.
  intros H Hne. unfold bias_heap_2d. rewrite list_lookup_insert_ne by done.
  rewrite list_lookup_insert_eq.
  - by rewrite <- app_assoc.
  - by rewrite !length_insert.
Qed.

Lemma bias_heap_2d_other h positions normals ps ns m l :
  l ≠ positions → l ≠ normals →
  bias_heap_2d h positions normals ps ns m !! l = h !! l.
Proof.
  intros H1 H2. unfold bias_heap_2d. by rewrite !list_lookup_insert_ne.
Qed.

Definition bias_heap_3d (h : heap) (positions normals : loc) (ps ns : list item)
    (m : item) : heap :=
  let s := BIAS_STRENGTH cfg in
  <[positions := Points (((ps ++ [m]) ++ [m]) ++ [m])]>
    (<[normals := Points (((ns ++ [Vec [s; 0; 0]]) ++ [Vec [0; s; 0]]) ++ [Vec [0; 0; s]])]>
      (<[positions := Points ((ps ++ [m]) ++ [m])]>
        (<[normals := Points ((ns ++ [Vec [s; 0; 0]]) ++ [Vec [0; s; 0]])]>
          (<[positions := Points (ps ++ [m])]>
            (<[normals := Points (ns ++ [Vec [s; 0; 0]])]> h))))).

Lemma bias_3d_run h positions normals ps ns m :
  h !! positions = Some (Points ps) → h !! normals = Some (Points ns) →
  positions ≠ normals → np_mean ps = Ok m →
  bias_3d cfg positions normals h = (bias_heap_3d h positions normals ps ns m, Ok tt).
Proof.
  intros Hp Hn Hne Hm. unfold bias_3d, bias_heap_3d.
  pose proof (lookup_lt_Some _ _ _ Hp). pose proof (lookup_lt_Some _ _ _ Hn).
  erewrite bind_ok by (by apply read_points_run).
  rewrite Hm. erewrite bind_ok by apply lift_run.
  erewrite bind_ok by (by apply append_run).
  erewrite bind_ok.
  2:{ apply append_run. by rewrite list_lookup_insert_ne. }
  erewrite bind_ok.
  2:{ apply append_run. rewrite list_lookup_insert_ne by done.
      apply list_lookup_insert_eq. done. }
  erewrite bind_ok.
  2:{ apply append_run. rewrite list_lookup_insert_ne by done.
      apply list_lookup_insert_eq. by rewrite length_insert. }
  erewrite bind_ok.
  2:{ apply append_run. rewrite list_lookup_insert_ne by done.
      apply list_lookup_insert_eq. by rewrite !length_insert. }
  apply append_run. rewrite list_lookup_insert_ne by done.
  apply list_lookup_insert_eq. by rewrite !length_insert.
Qed.

Lemma bias_heap_3d_positions h positions normals ps ns m :
  (positions < length h)%nat →
  bias_heap_3d h positions normals ps ns m !! positions
  = Some (Points (ps ++ [m; m; m])).
Proof.
  intros H. unfold bias_heap_3d. rewrite list_lookup_insert_eq.
  - by rewrite <- !app_assoc.
  - by rewrite !length_insert.
Qed.

Lemma bias_heap_3d_normals h positions normals ps ns m :
  (normals < length h)%nat → positions ≠ normals →
  bias_heap_3d h positions normals ps ns m !! normals
  = Some (Points (ns ++ [Vec [BIAS_STRENGTH cfg; 0; 0]; Vec [0; BIAS_STRENGTH cfg; 0];
                         Vec [0; 0; BIAS_STRENGTH cfg]])).
Proof.
  intros H Hne. unfold bias_heap_3d. rewrite list_lookup_insert_ne by done.
  rewrite list_lookup_insert_eq.
  - by rewrite <- !app_assoc.
  - by rewrite !length_insert.
Qed.

Lemma bias_heap_3d_other h positions normals ps ns m l :
  l ≠ positions → l ≠ normals →
  bias_heap_3d h positions normals ps ns m !! l = h !! l.
Proof.
  intros H1 H2. unfold bias_heap_3d. by rewrite !list_lookup_insert_ne.
Qed.

Lemma points_app d l1 l2 : points d l1 → points d l2 → points d (l1 ++ l2).
Proof. apply Forall_app_2. Qed.

Lemma bias_2d_wf h positions normals ps ns :
  inputs_wf 2 h positions normals ps ns →
  ∃ h' ps' ns', bias_2d cfg positions normals h = (h', Ok tt) ∧
    inputs_wf 2 h' positions normals ps' ns'.
Proof.
  intros (Hp & Hn & Hne & Hps & Hns & Hnil & Hlen).
  destruct (np_mean_points 2 ps) as (m & Hm & Hpt); [done|by destruct ps, ns|].
  pose proof (lookup_lt_Some _ _ _ Hp). pose proof (lookup_lt_Some _ _ _ Hn).
  eexists _, _, _. split; [by eapply bias_2d_run|].
  split; [by apply bias_heap_2d_positions|].
  split; [by apply bias_heap_2d_normals|]. split; [done|].
  split; [apply points_app; [done|by repeat constructor]|].
  split; [apply points_app; [done|by repeat constructor]|].
  split; [by destruct ns|]. rewrite !length_app. cbn. lia.
Qed.

Lemma bias_3d_wf h positions normals ps ns :
  inputs_wf 3 h positions normals ps ns →
  ∃ h' ps' ns', bias_3d cfg positions normals h = (h', Ok tt) ∧
    inputs_wf 3 h' positions normals ps' ns'.
Proof.
  intros (Hp & Hn & Hne & Hps & Hns & Hnil & Hlen).
  destruct (np_mean_points 3 ps) as (m & Hm & Hpt); [done|by destruct ps, ns|].
  pose proof (lookup_lt_Some _ _ _ Hp). pose proof (lookup_lt_Some _ _ _ Hn).
  eexists _, _, _. split; [by eapply bias_3d_run|].
  split; [by apply bias_heap_3d_positions|].
  split; [by apply bias_heap_3d_normals|]. split; [done|].
  split; [apply points_app; [done|by repeat constructor]|].
  split; [apply points_app; [done|by repeat constructor]|].
  split; [by destruct ns|]. rewrite !length_app. cbn. lia.
Qed.

(** *** The 2D cascade *)

Section Cell2D.
Variables x y : Q.
Let c := CELL_SIZE cfg.

Definition in_cell_2d (v : V2) : Prop :=
  x <= V2_x v <= x + c ∧ y <= V2_y v <= y + c.

Definition corner_points_2d : list vec :=
  [ [x + 0; y + 0]; [x + 0; y + c]; [x + c; y + 0]; [x + c; y + c] ].

Lemma inside_2d_total r :
  length (items r.2) = 2%nat → ∃ ok, inside_2d cfg x y r = Ok ok.
Proof.
  intros Hlen. unfold inside_2d.
  destruct (items r.2) as [|r0 [|r1 [|]]]; try done. cbn.
  destruct (_ && _); cbn; eauto.
Qed.

Lemma inside_2d_true r :
  inside_2d cfg x y r = Ok true →
  ∃ r0 r1 rest, items r.2 = r0 :: r1 :: rest ∧ in_cell_2d (mk_V2 r0 r1).
Proof.
  unfold inside_2d, in_cell_2d. destruct (items r.2) as [|r0 [|r1 rest]]; cbn; try done.
  - destruct (_ && _); done.
  - destruct (Qle_bool x r0 && Qle_bool r0 (x + CELL_SIZE cfg)) eqn:E; [|done].
    intros [= H]. apply andb_true_iff in E as [? ?], H as [? ?].
    exists r0, r1, rest. rewrite <- !Qle_bool_iff. cbn. unfold c. done.
Qed.

Lemma inside_2d_corner r p :
  0 <= c → p ∈ corner_points_2d → inside_2d cfg x y (r, PyTuple p) = Ok true.
Proof.
  intros Hc Hp. unfold corner_points_2d in Hp. unfold inside_2d.
  repeat (apply elem_of_cons in Hp as [->|Hp]); [..|by apply elem_of_nil in Hp];
    cbn; fold c;
    repeat match goal with
           | |- context [Qle_bool ?a ?e] =>
               replace (Qle_bool a e) with true by (symmetry; apply Qle_bool_iff; lra)
           end; done.
Qed.

Lemma corners_2d_ok q :
  rect 2 (A q) → length (b q) = length (A q) →
  corners_2d cfg x y q = Ok ((λ p, (resid_at q p, PyTuple p)) <$> corner_points_2d).
Proof.
  intros HA Hb. unfold corners_2d. cbn. fold c.
  rewrite !eval_with_pos_ok by done. done.
Qed.

Lemma grows_faces_2d h1 q :
  solver_total → qef_wf h1 q [None; None] →
  grows h1 (λ rs, Forall (is_list 2) rs ∧ length rs = 4%nat) (faces_2d cfg lstsq x y q).
Proof.
  intros Htotal Hwf. unfold faces_2d.
  apply (grows_run_all h1 (is_list 2)).
  repeat constructor; apply (grows_fix_solve h1 q [None; None]); cbn; first [done | lia].
Qed.

(** With [BOUNDARY] on, what comes out of the cascade passes [inside]. *)
Lemma grows_boundary_2d h1 q rv :
  solver_total → 0 <= c → qef_wf h1 q [None; None] → is_list 2 rv →
  grows h1 (λ r, inside_2d cfg x y r = Ok true ∧ (is_list 2 r ∨ is_tuple 2 r))
        (boundary_2d cfg lstsq x y q rv).
Proof.
  intros Htotal Hc Hwf Hrv. unfold boundary_2d.
  destruct (inside_2d_total rv) as [ok Hok].
  { destruct Hrv as (l & -> & ?). done. }
  rewrite Hok. apply grows_bind_lift.
  destruct ok; cbn [negb]; [apply grows_ret; auto|].
  eapply grows_bind; [by apply grows_faces_2d|]. intros rs [Hrs _].
  destruct (py_filter_spec (inside_2d cfg x y) rs) as (keep & -> & Hkeep).
  { eapply Forall_impl; [exact Hrs|]. intros r (l & Hl & ?).
    apply inside_2d_total. by rewrite Hl. }
  apply grows_bind_lift.
  destruct keep as [|k0 keep']; cbn [length Nat.eqb].
  - pose proof Hwf as (_ & _ & HA & Hb). cbn in HA.
    rewrite corners_2d_ok by done.
    destruct (py_filter_spec (inside_2d cfg x y)
                ((λ p, (resid_at q p, PyTuple p)) <$> corner_points_2d))
      as (keep & Hrun & Hkeep').
    { apply Forall_fmap, Forall_forall. intros p Hp. exists true.
      by apply inside_2d_corner. }
    eapply grows_bind with (P := eq keep).
    { apply grows_bind_lift. rewrite Hrun. by apply grows_lift. }
    intros ? <-.
    destruct (py_min_in (is_tuple 2) keep) as (r & -> & Hr).
    + apply pair_lt_tuples.
    + apply Forall_forall. intros r [Hr _]%Hkeep'. cbn in Hr.
      repeat (apply elem_of_cons in Hr as [->|Hr]); [..|by apply elem_of_nil in Hr];
        eexists; split; reflexivity.
    + intros ->. specialize (Hkeep' (resid_at q [x + 0; y + 0], PyTuple [x + 0; y + 0])).
      destruct Hkeep' as [_ Hin]. eapply elem_of_nil, Hin. split; [by left|].
      apply inside_2d_corner; [done|by left].
    + apply grows_lift. apply Hkeep' in Hr as [Hr ?]. split; [done|]. right.
      cbn in Hr.
      repeat (apply elem_of_cons in Hr as [->|Hr]); [..|by apply elem_of_nil in Hr];
        eexists; split; reflexivity.
  - apply grows_bind_ret.
    destruct (py_min_in (is_list 2) (k0 :: keep')) as (r & -> & Hr); [| |done|].
    + apply pair_lt_lists.
    + apply Forall_forall. intros r [Hr _]%Hkeep.
      rewrite Forall_forall in Hrs. auto.
    + apply grows_lift. apply Hkeep in Hr as [Hr ?]. split; [done|]. left.
      rewrite Forall_forall in Hrs. auto.
Qed.

(** [numpy.clip] lands between its bounds. *)
Lemma np_clip_bounds a lo hi : lo <= hi → lo <= np_clip a lo hi <= hi.
Proof.
  intros Hle. unfold np_clip. split.
  - apply Q.min_glb; [apply Q.le_max_r | done].
  - apply Q.le_min_r.
Qed.

(** Whatever the switches, [solve_qef_2d] ends in one of two ways on a
    well-formed input: it returns a vertex, which is in the cell as soon
    as [BOUNDARY] or [CLIP] is on, or it raises TypeError, and then both
    [BOUNDARY] and [CLIP] are on. *)
Lemma solve_qef_2d_outcome h positions normals ps ns :
  solver_total → 0 <= c →
  inputs_wf 2 h positions normals ps ns →
  ∃ h' r, solve_qef_2d cfg lstsq x y positions normals h = (h', r) ∧
    match r with
    | Ok v => BOUNDARY cfg = true ∨ CLIP cfg = true → in_cell_2d v
    | Raise e => e = TypeError ∧ BOUNDARY cfg = true ∧ CLIP cfg = true
    end.
Proof.
  intros Htotal Hc Hwf. unfold solve_qef_2d.
  assert (∃ hb ps' ns',
    (if BIAS cfg then bias_2d cfg positions normals else mret tt) h = (hb, Ok tt) ∧
    inputs_wf 2 hb positions normals ps' ns') as (hb & ps' & ns' & Hbias & Hwf').
  { destruct (BIAS cfg); [by eapply bias_2d_wf|]. by exists h, ps, ns. }
  erewrite bind_ok by exact Hbias. clear Hbias Hwf h ps ns.
  destruct Hwf' as (Hp & Hn & Hne & Hps & Hns & Hnil & Hlen).
  erewrite bind_ok by (by apply (make_2d_run hb positions normals ps' ns')).
  set (q := mk_QEF _ _ _). set (h1 := hb ++ _).
  assert (Hq : qef_wf h1 q [None; None]).
  { apply (make_wf 2); [done|done|].
    unfold b_2d. rewrite length_fmap, length_zip_with. lia. }
  pose proof Hq as (_ & HneA & HA & Hb).
  destruct (Htotal _ _ _ HneA HA Hb) as (sol & res & Hsol & Hsollen).
  destruct (solve_run h1 q _ sol res Hq Hsol Hsollen) as [r Hr].
  erewrite bind_ok by exact Hr.
  destruct sol as [|x0 [|x1 [|]]]; try done. cbn [filled nth].
  assert (∃ h2 rv,
    (if BOUNDARY cfg then boundary_2d cfg lstsq x y q (r, PyList [x0; x1])
     else mret (r, PyList [x0; x1])) h1 = (h2, Ok rv) ∧
    (is_list 2 rv ∨ (is_tuple 2 rv ∧ BOUNDARY cfg = true)) ∧
    (BOUNDARY cfg = true → inside_2d cfg x y rv = Ok true))
    as (h2 & rv & Hrun & Hkind & Hin).
  { destruct (BOUNDARY cfg).
    - destruct (grows_boundary_2d h1 q (r, PyList [x0; x1]) Htotal Hc Hq) with (k := @nil obj)
        as (k' & rv & Hrun & Hin & Hkind).
      { by eexists. }
      rewrite app_nil_r in Hrun. eexists _, rv. split; [exact Hrun|]. split; [|done].
      destruct Hkind; auto.
    - eexists _, _. split; [reflexivity|]. split; [|done]. left. by eexists. }
  erewrite bind_ok by exact Hrun.
  destruct (CLIP cfg) eqn:Hclip.
  - destruct Hkind as [(l & Hl & Hlen2)|[(l & Hl & Hlen2) HB]];
      destruct l as [|v0 [|v1 [|]]]; try done; rewrite Hl.
    + eexists _, _. split; [reflexivity|]. cbn. intros _.
      split; apply np_clip_bounds; fold c; lra.
    + eexists _, _. split; [reflexivity|]. done.
  - assert (∃ v0 v1, items rv.2 = [v0; v1]) as (v0 & v1 & Hv).
    { destruct Hkind as [(l & -> & Hl)|[(l & -> & Hl) _]];
        destruct l as [|v0 [|v1 [|]]]; try done; by exists v0, v1. }
    erewrite bind_ok by apply ret_run. rewrite Hv. cbn.
    eexists _, _. split; [reflexivity|]. cbn.
    intros [HB|?]; [|done].
    destruct (inside_2d_true _ (Hin HB)) as (r0 & r1 & rest & Hitems & Hcell).
    rewrite Hv in Hitems. by inversion Hitems; subst.
Qed.

(** With [CLIP] off, [solve_qef_2d] returns a vertex for every
    well-formed input, and with [BOUNDARY] on the vertex is in the cell. *)
Lemma solve_qef_2d_returns h positions normals ps ns :
  solver_total → 0 <= c → CLIP cfg = false →
  inputs_wf 2 h positions normals ps ns →
  ∃ h' v, solve_qef_2d cfg lstsq x y positions normals h = (h', Ok v) ∧
          (BOUNDARY cfg = true → in_cell_2d v).
Proof.
  intros Htotal Hc Hclip Hwf.
  destruct (solve_qef_2d_outcome h positions normals ps ns Htotal Hc Hwf)
    as (h' & [v|e] & Hrun & Hout).
  - exists h', v. auto.
  - destruct Hout as (_ & _ & Hon). congruence.
Qed.

End Cell2D.

(** *** The 3D cascade *)

Section Cell3D.
Variables x y z : Q.
Let c := CELL_SIZE cfg.

Definition in_cell_3d (v : V3) : Prop :=
  x <= V3_x v <= x + c ∧ y <= V3_y v <= y + c ∧ z <= V3_z v <= z + c.

Definition corner_points_3d : list vec :=
  [ [x + 0; y + 0; z + 0]; [x + 0; y + 0; z + c];
    [x + 0; y + c; z + 0]; [x + 0; y + c; z + c];
    [x + c; y + 0; z + 0]; [x + c; y + 0; z + c];
    [x + c; y + c; z + 0]; [x + c; y + c; z + c] ].

Lemma inside_3d_total r :
  length (items r.2) = 3%nat → ∃ ok, inside_3d cfg x y z r = Ok ok.
Proof.
  intros Hlen. unfold inside_3d.
  destruct (items r.2) as [|r0 [|r1 [|r2 [|]]]]; try done. cbn.
  destruct (_ && _); cbn; [|by eauto]. destruct (_ && _); cbn; eauto.
Qed.

Lemma inside_3d_true r :
  inside_3d cfg x y z r = Ok true →
  ∃ r0 r1 r2 rest, items r.2 = r0 :: r1 :: r2 :: rest ∧ in_cell_3d (mk_V3 r0 r1 r2).
Proof.
  unfold inside_3d, in_cell_3d. destruct (items r.2) as [|r0 [|r1 [|r2 rest]]]; cbn; try done.
  - destruct (_ && _); done.
  - destruct (_ && _); [|done]. cbn. destruct (_ && _); done.
  - destruct (Qle_bool x r0 && Qle_bool r0 (x + CELL_SIZE cfg)) eqn:E0; [|done].
    destruct (Qle_bool y r1 && Qle_bool r1 (y + CELL_SIZE cfg)) eqn:E1; [|done].
    intros [= H]. apply andb_true_iff in E0 as [? ?], E1 as [? ?], H as [? ?].
    exists r0, r1, r2, rest. rewrite <- !Qle_bool_iff. cbn. unfold c. done.
Qed.

Lemma inside_3d_corner r p :
  0 <= c → p ∈ corner_points_3d → inside_3d cfg x y z (r, PyTuple p) = Ok true.
Proof.
  intros Hc Hp. unfold corner_points_3d in Hp. unfold inside_3d.
  repeat (apply elem_of_cons in Hp as [->|Hp]); [..|by apply elem_of_nil in Hp];
    cbn; fold c;
    repeat match goal with
           | |- context [Qle_bool ?a ?e] =>
               replace (Qle_bool a e) with true by (symmetry; apply Qle_bool_iff; lra)
           end; done.
Qed.

Lemma corners_3d_ok q :
  rect 3 (A q) → length (b q) = length (A q) →
  corners_3d cfg x y z q = Ok ((λ p, (resid_at q p, PyTuple p)) <$> corner_points_3d).
Proof.
  intros HA Hb. unfold corners_3d. cbn. fold c.
  rewrite !eval_with_pos_ok by done. done.
Qed.

Lemma grows_faces_3d h1 q :
  solver_total → qef_wf h1 q [None; None; None] →
  grows h1 (λ rs, Forall (is_list 3) rs ∧ length rs = 6%nat)
        (faces_3d cfg lstsq x y z q).
Proof.
  intros Htotal Hwf. unfold faces_3d.
  apply (grows_run_all h1 (is_list 3)).
  repeat constructor; apply (grows_fix_solve h1 q [None; None; None]); cbn;
    first [done | lia].
Qed.

Lemma grows_edges_3d h1 q :
  solver_total → qef_wf h1 q [None; None; None] →
  grows h1 (λ rs, Forall (is_list 3) rs ∧ length rs = 12%nat)
        (edges_3d cfg lstsq x y z q).
Proof.
  intros Htotal Hwf. unfold edges_3d.
  apply (grows_run_all h1 (is_list 3)).
  repeat constructor; apply (grows_fix_fix_solve h1 q [None; None; None]); cbn;
    first [done | lia].
Qed.

Lemma grows_boundary_3d h1 q rv :
  solver_total → 0 <= c → qef_wf h1 q [None; None; None] → is_list 3 rv →
  grows h1 (λ r, inside_3d cfg x y z r = Ok true ∧ (is_list 3 r ∨ is_tuple 3 r))
        (boundary_3d cfg lstsq x y z q rv).
Proof.
  intros Htotal Hc Hwf Hrv. unfold boundary_3d.
  destruct (inside_3d_total rv) as [ok Hok].
  { destruct Hrv as (l & -> & ?). done. }
  rewrite Hok. apply grows_bind_lift.
  destruct ok; cbn [negb]; [apply grows_ret; auto|].
  eapply grows_bind; [by apply grows_faces_3d|]. intros rs [Hrs _].
  destruct (py_filter_spec (inside_3d cfg x y z) rs) as (keep & -> & Hkeep).
  { eapply Forall_impl; [exact Hrs|]. intros r (l & Hl & ?).
    apply inside_3d_total. by rewrite Hl. }
  apply grows_bind_lift.
  (* the candidates after the edge tier: lists that pass [inside] *)
  eapply grows_bind with
    (P := λ rs, Forall (λ r, is_list 3 r ∧ inside_3d cfg x y z r = Ok true) rs).
  { destruct keep as [|k0 keep']; cbn [length Nat.eqb].
    - eapply grows_bind; [by apply grows_edges_3d|]. intros es [Hes _].
      destruct (py_filter_spec (inside_3d cfg x y z) es) as (keep & -> & Hkeep2).
      { eapply Forall_impl; [exact Hes|]. intros r (l & Hl & ?).
        apply inside_3d_total. by rewrite Hl. }
      apply grows_lift. apply Forall_forall. intros r [Hr ?]%Hkeep2.
      rewrite Forall_forall in Hes. auto.
    - apply grows_ret. apply Forall_forall. intros r [Hr ?]%Hkeep.
      rewrite Forall_forall in Hrs. auto. }
  clear rs Hrs keep Hkeep. intros rs Hrs.
  destruct rs as [|k0 keep']; cbn [length Nat.eqb].
  - pose proof Hwf as (_ & _ & HA & Hb). cbn in HA.
    rewrite corners_3d_ok by done.
    destruct (py_filter_spec (inside_3d cfg x y z)
                ((λ p, (resid_at q p, PyTuple p)) <$> corner_points_3d))
      as (keep & Hrun & Hkeep').
    { apply Forall_fmap, Forall_forall. intros p Hp. exists true.
      by apply inside_3d_corner. }
    eapply grows_bind with (P := eq keep).
    { apply grows_bind_lift. rewrite Hrun. by apply grows_lift. }
    intros ? <-.
    destruct (py_min_in (is_tuple 3) keep) as (r & -> & Hr).
    + apply pair_lt_tuples.
    + apply Forall_forall. intros r [Hr _]%Hkeep'. cbn in Hr.
      repeat (apply elem_of_cons in Hr as [->|Hr]); [..|by apply elem_of_nil in Hr];
        eexists; split; reflexivity.
    + intros ->.
      specialize (Hkeep' (resid_at q [x + 0; y + 0; z + 0], PyTuple [x + 0; y + 0; z + 0])).
      destruct Hkeep' as [_ Hin]. eapply elem_of_nil, Hin. split; [by left|].
      apply inside_3d_corner; [done|by left].
    + apply grows_lift. apply Hkeep' in Hr as [Hr ?]. split; [done|]. right.
      cbn in Hr.
      repeat (apply elem_of_cons in Hr as [->|Hr]); [..|by apply elem_of_nil in Hr];
        eexists; split; reflexivity.
  - apply grows_bind_ret.
    destruct (py_min_in (is_list 3) (k0 :: keep')) as (r & -> & Hr); [| |done|].
    + apply pair_lt_lists.
    + eapply Forall_impl; [exact Hrs|]. by intros r [? ?].
    + apply grows_lift. rewrite Forall_forall in Hrs. destruct (Hrs r Hr). auto.
Qed.

(** The same two outcomes in 3D. *)
Lemma solve_qef_3d_outcome h positions normals ps ns :
  solver_total → 0 <= c →
  inputs_wf 3 h positions normals ps ns →
  ∃ h' r, solve_qef_3d cfg lstsq x y z positions normals h = (h', r) ∧
    match r with
    | Ok v => BOUNDARY cfg = true ∨ CLIP cfg = true → in_cell_3d v
    | Raise e => e = TypeError ∧ BOUNDARY cfg = true ∧ CLIP cfg = true
    end.
Proof.
  intros Htotal Hc Hwf. unfold solve_qef_3d.
  assert (∃ hb ps' ns',
    (if BIAS cfg then bias_3d cfg positions normals else mret tt) h = (hb, Ok tt) ∧
    inputs_wf 3 hb positions normals ps' ns') as (hb & ps' & ns' & Hbias & Hwf').
  { destruct (BIAS cfg); [by eapply bias_3d_wf|]. by exists h, ps, ns. }
  erewrite bind_ok by exact Hbias. clear Hbias Hwf h ps ns.
  destruct Hwf' as (Hp & Hn & Hne & Hps & Hns & Hnil & Hlen).
  erewrite bind_ok by (by apply (make_3d_run hb positions normals ps' ns')).
  set (q := mk_QEF _ _ _). set (h1 := hb ++ _).
  assert (Hq : qef_wf h1 q [None; None; None]).
  { apply (make_wf 3); [done|done|].
    unfold b_3d. rewrite length_fmap, length_zip_with. lia. }
  pose proof Hq as (_ & HneA & HA & Hb).
  destruct (Htotal _ _ _ HneA HA Hb) as (sol & res & Hsol & Hsollen).
  destruct (solve_run h1 q _ sol res Hq Hsol Hsollen) as [r Hr].
  erewrite bind_ok by exact Hr.
  destruct sol as [|x0 [|x1 [|x2 [|]]]]; try done. cbn [filled nth].
  assert (∃ h2 rv,
    (if BOUNDARY cfg then boundary_3d cfg lstsq x y z q (r, PyList [x0; x1; x2])
     else mret (r, PyList [x0; x1; x2])) h1 = (h2, Ok rv) ∧
    (is_list 3 rv ∨ (is_tuple 3 rv ∧ BOUNDARY cfg = true)) ∧
    (BOUNDARY cfg = true → inside_3d cfg x y z rv = Ok true))
    as (h2 & rv & Hrun & Hkind & Hin).
  { destruct (BOUNDARY cfg).
    - destruct (grows_boundary_3d h1 q (r, PyList [x0; x1; x2]) Htotal Hc Hq)
        with (k := @nil obj) as (k' & rv & Hrun & Hin & Hkind).
      { by eexists. }
      rewrite app_nil_r in Hrun. eexists _, rv. split; [exact Hrun|]. split; [|done].
      destruct Hkind; auto.
    - eexists _, _. split; [reflexivity|]. split; [|done]. left. by eexists. }
  erewrite bind_ok by exact Hrun.
  destruct (CLIP cfg) eqn:Hclip.
  - destruct Hkind as [(l & Hl & Hlen3)|[(l & Hl & Hlen3) HB]];
      destruct l as [|v0 [|v1 [|v2 [|]]]]; try done; rewrite Hl.
    + eexists _, _. split; [reflexivity|]. cbn. intros _.
      repeat split; apply np_clip_bounds; fold c; lra.
    + eexists _, _. split; [reflexivity|]. done.
  - assert (∃ v0 v1 v2, items rv.2 = [v0; v1; v2]) as (v0 & v1 & v2 & Hv).
    { destruct Hkind as [(l & -> & Hl)|[(l & -> & Hl) _]];
        destruct l as [|v0 [|v1 [|v2 [|]]]]; try done; by exists v0, v1, v2. }
    erewrite bind_ok by apply ret_run. rewrite Hv. cbn.
    eexists _, _. split; [reflexivity|]. cbn.
    intros [HB|?]; [|done].
    destruct (inside_3d_true _ (Hin HB)) as (r0 & r1 & r2 & rest & Hitems & Hcell).
    rewrite Hv in Hitems. by inversion Hitems; subst.
Qed.

Lemma solve_qef_3d_returns h positions normals ps ns :
  solver_total → 0 <= c → CLIP cfg = false →
  inputs_wf 3 h positions normals ps ns →
  ∃ h' v, solve_qef_3d cfg lstsq x y z positions normals h = (h', Ok v) ∧
          (BOUNDARY cfg = true → in_cell_3d v).
Proof.
  intros Htotal Hc Hclip Hwf.
  destruct (solve_qef_3d_outcome h positions normals ps ns Htotal Hc Hwf)
    as (h' & [v|e] & Hrun & Hout).
  - exists h', v. auto.
  - destruct Hout as (_ & _ & Hon). congruence.
Qed.

End Cell3D.

(** C8, first half: [fix_axis]. *)
Lemma fix_axis_spec h q fv i value :
  qef_wf h q fv → (i < count_free fv)%nat →
  ∃ q' h',
    fix_axis q i value h = (h', Ok q') ∧
    length (b q') = length (b q) ∧
    (∀ j bj row, b q !! j = Some bj → A q !! j = Some row →
       b q' !! j = Some (bj - nth i row 0 * value)) ∧
    A q' = delete i <$> A q ∧
    h' !! fixed_values q' = Some (Fixed (<[i := Some value]> fv)) ∧
    (<[i := Some value]> fv) !! i = Some (Some value) ∧
    (∀ l o, h !! l = Some o → h' !! l = Some o).
Proof.
  intros Hwf Hi. pose proof (count_free_le fv) as Hle.
  eexists _, _. split; [apply fix_axis_run; eauto; lia|].
  destruct Hwf as (Hfv & _ & _ & Hb). cbn.
  split; [rewrite length_zip_with; lia|].
  split; [|split; [done|split; [by apply list_lookup_middle|split]]].
  - intros j bj row Hbj Hrow. rewrite lookup_zip_with, Hbj. cbn. by rewrite Hrow.
  - apply list_lookup_insert_eq. lia.
  - intros l o Hl. by apply lookup_app_l_Some.
Qed.

(** C8, second half: [solve]. *)
Lemma solve_spec h q fv x res :
  qef_wf h q fv → lstsq (A q) (b q) = Ok (x, res) → length x = count_free fv →
  ∃ r p,
    solve lstsq q h = (h, Ok (r, PyList p)) ∧
    length p = length fv ∧
    (∀ j value, fv !! j = Some (Some value) → p !! j = Some value) ∧
    (∀ j, fv !! j = Some None → p !! j = x !! count_free (take j fv)).
Proof.
  intros Hwf Hx Hlen. destruct (solve_run h q fv x res Hwf Hx Hlen) as [r Hr].
  exists r, (filled fv x 0). split; [done|]. split; [apply filled_length|].
  split; intros j; [intros value|]; intros Hj; rewrite filled_lookup, Hj by lia; done.
Qed.

Lemma count_free_replicate d : count_free (replicate d None) = d.
Proof. induction d; cbn; congruence. Qed.

(** One [fix_axis] on a QEF whose slots are all free, then [solve]: the
    position carries [value] in slot [i]. *)
Lemma fresh_fix_solve d h q i value :
  solver_total → qef_wf h q (replicate d None) → (i < d)%nat →
  ∃ q' h' r p,
    fix_axis q i value h = (h', Ok q') ∧
    solve lstsq q' h' = (h', Ok (r, PyList p)) ∧
    length p = d ∧ p !! i = Some value.
Proof.
  intros Htotal Hwf Hi.
  assert (Hfree : replicate d (@None Q) !! i = Some None) by (by apply lookup_replicate_2).
  assert (Hi' : (i < count_free (replicate d None))%nat) by (by rewrite count_free_replicate).
  pose proof (fix_axis_wf h q _ i value Hwf Hi' Hfree) as Hwf'.
  set (fv' := <[i := Some value]> (replicate d None)) in *.
  set (q' := mk_QEF _ _ _) in Hwf'. set (h' := h ++ _) in Hwf'.
  destruct Hwf' as (Hfv' & Hne' & HA' & Hb').
  destruct (Htotal _ _ _ Hne' HA' Hb') as (x & res & Hx & Hlen).
  destruct (solve_spec h' q' fv' x res) as (r & p & Hrun & Hp & Hfixed & _);
    [done|done|done|].
  exists q', h', r, p. split.
  - apply fix_axis_run; [done|done|]. by rewrite length_replicate.
  - split; [done|]. split.
    + rewrite Hp. unfold fv'. by rewrite length_insert, length_replicate.
    + apply Hfixed. unfold fv'. apply list_lookup_insert_eq. by rewrite length_replicate.
Qed.

(** C8. [fix_axis(i, value)] returns a new QEF with [b] lowered by
    [value] times column [i] of [A], [A] without that column and [value]
    recorded in slot [i], and leaves every existing object as it was;
    [solve] puts each recorded value in its slot and the entries of the
    least-squares solution, in order, in the free slots; so one
    [fix_axis(i, value)] on a QEF fresh from [make_2d] or [make_3d],
    solved, gives a position whose coordinate [i] is [value]. *)
Theorem fix_axis_solve_reinsert :
  (∀ h q fv i value,
     qef_wf h q fv → (i < count_free fv)%nat →
     ∃ q' h',
       fix_axis q i value h = (h', Ok q') ∧
       length (b q') = length (b q) ∧
       (∀ j bj row, b q !! j = Some bj → A q !! j = Some row →
          b q' !! j = Some (bj - nth i row 0 * value)) ∧
       A q' = delete i <$> A q ∧
       h' !! fixed_values q' = Some (Fixed (<[i := Some value]> fv)) ∧
       (<[i := Some value]> fv) !! i = Some (Some value) ∧
       (∀ l o, h !! l = Some o → h' !! l = Some o)) ∧
  (∀ h q fv x res,
     qef_wf h q fv → lstsq (A q) (b q) = Ok (x, res) → length x = count_free fv →
     ∃ r p,
       solve lstsq q h = (h, Ok (r, PyList p)) ∧
       length p = length fv ∧
       (∀ j value, fv !! j = Some (Some value) → p !! j = Some value) ∧
       (∀ j, fv !! j = Some None → p !! j = x !! count_free (take j fv))) ∧
  (∀ h positions normals ps ns i value,
     solver_total →
     h !! positions = Some (Points ps) → h !! normals = Some (Points ns) →
     points 2 ps → points 2 ns → ns ≠ [] → length ps = length ns → (i < 2)%nat →
     ∃ q h1 q' h2 r p,
       make_2d positions normals h = (h1, Ok q) ∧
       fix_axis q i value h1 = (h2, Ok q') ∧
       solve lstsq q' h2 = (h2, Ok (r, PyList p)) ∧
       length p = 2%nat ∧ p !! i = Some value) ∧
  (∀ h positions normals ps ns i value,
     solver_total →
     h !! positions = Some (Points ps) → h !! normals = Some (Points ns) →
     points 3 ps → points 3 ns → ns ≠ [] → length ps = length ns → (i < 3)%nat →
     ∃ q h1 q' h2 r p,
       make_3d positions normals h = (h1, Ok q) ∧
       fix_axis q i value h1 = (h2, Ok q') ∧
       solve lstsq q' h2 = (h2, Ok (r, PyList p)) ∧
       length p = 3%nat ∧ p !! i = Some value).
Proof.
  split; [exact fix_axis_spec|]. split; [exact solve_spec|]. split.
  - intros h positions normals ps ns i value Htotal Hp Hn Hps Hns Hne Hlen Hi.
    destruct (fresh_fix_solve 2 (h ++ [Fixed [None; None]])
                (mk_QEF (vec_of <$> ns) (b_2d ps ns) (length h)) i value)
      as (q' & h2 & r & p & Hfix & Hsolve & Hp2 & Hpi); [done| |done|].
    { apply (make_wf 2); [done|done|].
      unfold b_2d. rewrite length_fmap, length_zip_with. lia. }
    eexists _, _, q', h2, r, p. split; [by eapply make_2d_run|]. done.
  - intros h positions normals ps ns i value Htotal Hp Hn Hps Hns Hne Hlen Hi.
    destruct (fresh_fix_solve 3 (h ++ [Fixed [None; None; None]])
                (mk_QEF (vec_of <$> ns) (b_3d ps ns) (length h)) i value)
      as (q' & h2 & r & p & Hfix & Hsolve & Hp2 & Hpi); [done| |done|].
    { apply (make_wf 3); [done|done|].
      unfold b_3d. rewrite length_fmap, length_zip_with. lia. }
    eexists _, _, q', h2, r, p. split; [by eapply make_3d_run|]. done.
Qed.

(** *** What the code leaves of the caller's lists

    [keeps_points m]: [m] changes no list of points that exists when it
    starts, whatever it returns or raises. *)
Definition keeps_points {A} (m : M A) : Prop :=
  ∀ h l ps, h !! l = Some (Points ps) → (m h).1 !! l = Some (Points ps).

Lemma keeps_bind {A B} (m : M A) (f : A → M B) :
  keeps_points m → (∀ a, keeps_points (f a)) → keeps_points (m ≫= f).
Proof.
  intros Hm Hf h l ps Hl. unfold mbind, M_bind.
  specialize (Hm h l ps Hl). destruct (m h) as [h' [a|e]]; cbn in *; [|done].
  by apply Hf.
Qed.

Lemma keeps_lift {A} (r : result A) : keeps_points (lift r).
Proof. by intros h l ps Hl. Qed.

Lemma keeps_ret {A} (a : A) : keeps_points (mret a).
Proof. by intros h l ps Hl. Qed.

Lemma keeps_alloc o : keeps_points (alloc o).
Proof. intros h l ps Hl. cbn. by apply lookup_app_l_Some. Qed.

Lemma keeps_read_points l : keeps_points (read_points l).
Proof. intros h l' ps Hl. unfold read_points. by destruct (h !! l) as [[?|?]|]. Qed.

Lemma keeps_read_fixed l : keeps_points (read_fixed l).
Proof. intros h l' ps Hl. unfold read_fixed. by destruct (h !! l) as [[?|?]|]. Qed.

Lemma keeps_setitem_fixed l i v : keeps_points (setitem_fixed l i v).
Proof.
  intros h l' ps Hl. unfold setitem_fixed.
  destruct (h !! l) as [[?|fv]|] eqn:E; try done.
  case_decide; [|done]. cbn.
  rewrite list_lookup_insert_ne; [done|]. intros ->. congruence.
Qed.

Lemma keeps_run_all {A} (ms : list (M A)) :
  Forall keeps_points ms → keeps_points (run_all ms).
Proof.
  induction 1 as [|m ms Hm _ IH]; cbn [run_all]; [apply keeps_ret|].
  apply keeps_bind; [done|]. intros r.
  apply keeps_bind; [done|]. intros rs. apply keeps_ret.
Qed.

Ltac keeps :=
  repeat first
    [ apply keeps_ret | apply keeps_lift | apply keeps_alloc
    | apply keeps_read_points | apply keeps_read_fixed | apply keeps_setitem_fixed
    | apply keeps_bind; [|intros ?]
    | apply keeps_run_all; repeat constructor
    | match goal with
      | |- keeps_points (match ?p with (_, _) => _ end) => destruct p
      | |- keeps_points (if ?c then _ else _) => destruct c
      end ].

Lemma keeps_make_2d positions normals : keeps_points (make_2d positions normals).
Proof. unfold make_2d. keeps. Qed.

Lemma keeps_make_3d positions normals : keeps_points (make_3d positions normals).
Proof. unfold make_3d. keeps. Qed.

Lemma keeps_fix_axis q axis value : keeps_points (fix_axis q axis value).
Proof. unfold fix_axis. keeps. Qed.

Lemma keeps_solve q : keeps_points (solve lstsq q).
Proof. unfold solve. keeps. Qed.

Lemma keeps_fix_solve q axis value : keeps_points (fix_solve lstsq q axis value).
Proof. unfold fix_solve. apply keeps_bind; [apply keeps_fix_axis|]. intros. apply keeps_solve. Qed.

Lemma keeps_fix_fix_solve q a1 v1 a2 v2 :
  keeps_points (fix_fix_solve lstsq q a1 v1 a2 v2).
Proof.
  unfold fix_fix_solve. apply keeps_bind; [apply keeps_fix_axis|]. intros.
  apply keeps_bind; [apply keeps_fix_axis|]. intros. apply keeps_solve.
Qed.

Lemma keeps_boundary_2d x y q rv : keeps_points (boundary_2d cfg lstsq x y q rv).
Proof.
  unfold boundary_2d, faces_2d.
  repeat first [ apply keeps_fix_solve | progress keeps ].
Qed.

Lemma keeps_boundary_3d x y z q rv : keeps_points (boundary_3d cfg lstsq x y z q rv).
Proof.
  unfold boundary_3d, faces_3d, edges_3d.
  repeat first [ apply keeps_fix_solve | apply keeps_fix_fix_solve | progress keeps ].
Qed.

Lemma np_mean_total d ps : points d ps → ∃ m, np_mean ps = Ok m.
Proof.
  intros Hps. destruct ps as [|p ps'] eqn:E; [by exists NanScalar|].
  destruct (np_mean_points d (p :: ps')) as (m & Hm & _); [done|done|]. eauto.
Qed.

Lemma solve_qef_2d_lists x y h positions normals ps ns :
  h !! positions = Some (Points ps) → h !! normals = Some (Points ns) →
  positions ≠ normals → points 2 ps →
  let h' := (solve_qef_2d cfg lstsq x y positions normals h).1 in
  if BIAS cfg then
    ∃ m, np_mean ps = Ok m ∧
      h' !! positions = Some (Points (ps ++ [m; m])) ∧
      h' !! normals = Some (Points (ns ++ [Vec [BIAS_STRENGTH cfg; 0];
                                           Vec [0; BIAS_STRENGTH cfg]]))
  else h' !! positions = Some (Points ps) ∧ h' !! normals = Some (Points ns).
Proof.
  intros Hp Hn Hne Hps. unfold solve_qef_2d.
  match goal with
  | |- context [mbind ?f (if BIAS cfg then _ else _)] => set (rest := f)
  end.
  assert (Hrest : keeps_points (rest tt)).
  { unfold rest.
    repeat first [ apply keeps_make_2d | apply keeps_solve | apply keeps_boundary_2d
                 | progress keeps ]. }
  pose proof (lookup_lt_Some _ _ _ Hp). pose proof (lookup_lt_Some _ _ _ Hn).
  destruct (BIAS cfg); cbn zeta.
  - destruct (np_mean_total 2 ps Hps) as [m Hm]. exists m. split; [done|].
    erewrite bind_ok by (by apply (bias_2d_run h positions normals ps ns m)).
    split; apply Hrest.
    + by apply bias_heap_2d_positions.
    + by apply bias_heap_2d_normals.
  - erewrite bind_ok by apply ret_run. split; by apply Hrest.
Qed.

Lemma solve_qef_3d_lists x y z h positions normals ps ns :
  h !! positions = Some (Points ps) → h !! normals = Some (Points ns) →
  positions ≠ normals → points 3 ps →
  let h' := (solve_qef_3d cfg lstsq x y z positions normals h).1 in
  if BIAS cfg then
    ∃ m, np_mean ps = Ok m ∧
      h' !! positions = Some (Points (ps ++ [m; m; m])) ∧
      h' !! normals = Some (Points (ns ++ [Vec [BIAS_STRENGTH cfg; 0; 0];
                                           Vec [0; BIAS_STRENGTH cfg; 0];
                                           Vec [0; 0; BIAS_STRENGTH cfg]]))
  else h' !! positions = Some (Points ps) ∧ h' !! normals = Some (Points ns).
Proof.
  intros Hp Hn Hne Hps. unfold solve_qef_3d.
  match goal with
  | |- context [mbind ?f (if BIAS cfg then _ else _)] => set (rest := f)
  end.
  assert (Hrest : keeps_points (rest tt)).
  { unfold rest.
    repeat first [ apply keeps_make_3d | apply keeps_solve | apply keeps_boundary_3d
                 | progress keeps ]. }
  pose proof (lookup_lt_Some _ _ _ Hp). pose proof (lookup_lt_Some _ _ _ Hn).
  destruct (BIAS cfg); cbn zeta.
  - destruct (np_mean_total 3 ps Hps) as [m Hm]. exists m. split; [done|].
    erewrite bind_ok by (by apply (bias_3d_run h positions normals ps ns m)).
    split; apply Hrest.
    + by apply bias_heap_3d_positions.
    + by apply bias_heap_3d_normals.
  - erewrite bind_ok by apply ret_run. split; by apply Hrest.
Qed.

(** C10. With [BIAS] on, [solve_qef_2d] leaves the caller's [positions]
    with the mass point appended twice and [normals] with the two bias
    normals appended, and [solve_qef_3d] appends three of each; with
    [BIAS] off both lists are as they were.  This holds whatever the
    solver does and whether or not the call raises. *)
Theorem solve_qef_appends_bias :
  (∀ x y h positions normals ps ns,
     h !! positions = Some (Points ps) → h !! normals = Some (Points ns) →
     positions ≠ normals → points 2 ps →
     let h' := (solve_qef_2d cfg lstsq x y positions normals h).1 in
     if BIAS cfg then
       ∃ m, np_mean ps = Ok m ∧
         h' !! positions = Some (Points (ps ++ [m; m])) ∧
         h' !! normals = Some (Points (ns ++ [Vec [BIAS_STRENGTH cfg; 0];
                                              Vec [0; BIAS_STRENGTH cfg]]))
     else h' !! positions = Some (Points ps) ∧ h' !! normals = Some (Points ns)) ∧
  (∀ x y z h positions normals ps ns,
     h !! positions = Some (Points ps) → h !! normals = Some (Points ns) →
     positions ≠ normals → points 3 ps →
     let h' := (solve_qef_3d cfg lstsq x y z positions normals h).1 in
     if BIAS cfg then
       ∃ m, np_mean ps = Ok m ∧
         h' !! positions = Some (Points (ps ++ [m; m; m])) ∧
         h' !! normals = Some (Points (ns ++ [Vec [BIAS_STRENGTH cfg; 0; 0];
                                              Vec [0; BIAS_STRENGTH cfg; 0];
                                              Vec [0; 0; BIAS_STRENGTH cfg]]))
     else h' !! positions = Some (Points ps) ∧ h' !! normals = Some (Points ns)).
Proof. split; [exact solve_qef_2d_lists | exact solve_qef_3d_lists]. Qed.

(** *** The corner tier *)

Lemma bind_lift {A B} (r : result A) (f : A → M B) h :
  (lift r ≫= f) h = match r with Ok a => f a h | Raise e => (h, Raise e) end.
Proof. by destruct r. Qed.

Lemma py_filter_all {A} (p : A → result bool) (rs : list A) :
  Forall (λ r, p r = Ok true) rs → py_filter p rs = Ok rs.
Proof. induction 1 as [|r rs Hr _ IH]; cbn; [done|]. by rewrite Hr, IH. Qed.

Lemma py_filter_none {A} (p : A → result bool) (rs : list A) :
  Forall (λ r, p r = Ok false) rs → py_filter p rs = Ok [].
Proof. induction 1 as [|r rs Hr _ IH]; cbn; [done|]. by rewrite Hr, IH. Qed.

(** The sum of squares under the root of [resid_at]. *)
Definition sq_resid_at (q : QEF) (p : vec) : Q :=
  sum_Q ((λ a, a * a) <$> zip_with Qminus ((λ r, dot r p) <$> A q) (b q)).

Lemma pair_lt_norm_tuples a p a' p' :
  pair_lt (Norm a', PyTuple p') (Norm a, PyTuple p)
  = Ok (if Qeq_bool a' a then lex_lt p' p else Qlt_bool a' a).
Proof. unfold pair_lt. cbn. by destruct (Qeq_bool a' a). Qed.

(** [min] over corners with their residuals: a corner whose residual no
    other corner undercuts. *)
Lemma min_from_corners (g : vec → Q) best rest :
  ∃ p, min_from (Norm (g best), PyTuple best) ((λ p, (Norm (g p), PyTuple p)) <$> rest)
       = Ok (Norm (g p), PyTuple p) ∧
    p ∈ best :: rest ∧ ∀ p', p' ∈ best :: rest → g p <= g p'.
Proof.
  revert best. induction rest as [|s rest IH]; intros best; cbn.
  - exists best. split; [done|]. split; [by left|].
    intros p' ->%list_elem_of_singleton. apply Qle_refl.
  - rewrite pair_lt_norm_tuples. cbn.
    set (take_s := if Qeq_bool (g s) (g best) then lex_lt s best
                   else Qlt_bool (g s) (g best)).
    assert (Hord : if take_s then g s <= g best else g best <= g s).
    { unfold take_s. destruct (Qeq_bool (g s) (g best)) eqn:E.
      - apply Qeq_bool_iff in E. destruct (lex_lt s best); rewrite E; apply Qle_refl.
      - destruct (Qlt_bool (g s) (g best)) eqn:E'.
        + apply Qlt_bool_iff in E'. by apply Qlt_le_weak.
        + by apply Qlt_bool_false in E'. }
    destruct take_s.
    + destruct (IH s) as (p & Hp & Hin & Hmin). exists p. split; [done|]. split.
      * by right.
      * intros p' [->|Hp']%elem_of_cons; [|by apply Hmin].
        eapply Qle_trans; [apply Hmin; by left|done].
    + destruct (IH best) as (p & Hp & Hin & Hmin). exists p. split; [done|]. split.
      * apply elem_of_cons in Hin as [->|?]; [by left|by right; right].
      * intros p' [->|[->|Hp']%elem_of_cons]%elem_of_cons.
        -- apply Hmin. by left.
        -- eapply Qle_trans; [apply Hmin; by left|done].
        -- apply Hmin. by right.
Qed.

Lemma py_min_corners (g : vec → Q) pts :
  pts ≠ [] →
  ∃ p, py_min ((λ p, (Norm (g p), PyTuple p)) <$> pts) = Ok (Norm (g p), PyTuple p) ∧
    p ∈ pts ∧ ∀ p', p' ∈ pts → g p <= g p'.
Proof. destruct pts as [|best rest]; [done|]. intros _. apply min_from_corners. Qed.

(** The QEF [solve_qef_2d] builds: the bias step, then [make_2d]. *)
Definition build_2d (positions normals : loc) : M QEF :=
  _ ← (if BIAS cfg then bias_2d cfg positions normals else mret tt);
  make_2d positions normals.

(** The run of [solve_qef_2d] up to the test that opens the corner tier:
    [true] when the unconstrained solution is outside the cell and no
    face candidate passes [inside]. *)
Definition reaches_corners_2d (x y : Q) (positions normals : loc) : M bool :=
  qef ← build_2d positions normals;
  rv ← solve lstsq qef;
  ok ← lift (inside_2d cfg x y rv);
  if negb ok then
    rs ← faces_2d cfg lstsq x y qef;
    rs ← lift (py_filter (inside_2d cfg x y) rs);
    mret (length rs =? 0)%nat
  else mret false.

Lemma build_2d_run h positions normals ps ns :
  inputs_wf 2 h positions normals ps ns →
  ∃ hb q,
    (if BIAS cfg then bias_2d cfg positions normals else mret tt) h = (hb, Ok tt) ∧
    make_2d positions normals hb = (hb ++ [Fixed [None; None]], Ok q) ∧
    build_2d positions normals h = (hb ++ [Fixed [None; None]], Ok q) ∧
    qef_wf (hb ++ [Fixed [None; None]]) q [None; None].
Proof.
  intros Hwf.
  assert (∃ hb ps' ns',
    (if BIAS cfg then bias_2d cfg positions normals else mret tt) h = (hb, Ok tt) ∧
    inputs_wf 2 hb positions normals ps' ns') as (hb & ps' & ns' & Hbias & Hwf').
  { destruct (BIAS cfg); [by eapply bias_2d_wf|]. by exists h, ps, ns. }
  destruct Hwf' as (Hp & Hn & Hne & Hps & Hns & Hnil & Hlen).
  pose proof (make_2d_run hb positions normals ps' ns' Hp Hn Hps Hns Hnil) as Hmake.
  eexists _, _. split; [exact Hbias|]. split; [exact Hmake|]. split.
  - unfold build_2d. erewrite bind_ok by exact Hbias. exact Hmake.
  - apply (make_wf 2); [done|done|].
    unfold b_2d. rewrite length_fmap, length_zip_with. lia.
Qed.

Section CornerTier2D.
Variables x y : Q.
Let c := CELL_SIZE cfg.

Lemma inside_2d_negative r :
  c < 0 → length (items r.2) = 2%nat → inside_2d cfg x y r = Ok false.
Proof.
  intros Hc Hlen. unfold inside_2d. fold c.
  destruct (items r.2) as [|r0 [|r1 [|]]]; try done. cbn.
  destruct (Qle_bool x r0 && Qle_bool r0 (x + c)) eqn:E0; [|done].
  apply andb_true_iff in E0 as [?%Qle_bool_iff ?%Qle_bool_iff]. lra.
Qed.

(** What the corner tier hands to the rest of the function. *)
Definition corner_choice_2d (q : QEF) : result (resid * pyseq) :=
  cs ← corners_2d cfg x y q;
  keep ← py_filter (inside_2d cfg x y) cs;
  py_min keep.

Lemma boundary_2d_corner_tier q rv h2 h' :
  (ok ← lift (inside_2d cfg x y rv);
   if negb ok then
     rs ← faces_2d cfg lstsq x y q;
     rs ← lift (py_filter (inside_2d cfg x y) rs);
     mret (length rs =? 0)%nat
   else mret false) h2 = (h', Ok true) →
  boundary_2d cfg lstsq x y q rv h2 = (h', corner_choice_2d q).
Proof.
  intros Hreach. unfold boundary_2d. rewrite bind_lift in Hreach. rewrite bind_lift.
  destruct (inside_2d cfg x y rv) as [[|]|e]; cbn [negb] in *; [done| |done].
  destruct (faces_2d cfg lstsq x y q h2) as [h3 [rs|e]] eqn:Hfaces;
    [erewrite bind_ok in Hreach by exact Hfaces
    |by erewrite bind_raise in Hreach by exact Hfaces].
  erewrite bind_ok by exact Hfaces. rewrite bind_lift in Hreach. rewrite bind_lift.
  destruct (py_filter (inside_2d cfg x y) rs) as [keep|e]; [|done].
  rewrite ret_run in Hreach. injection Hreach as -> Hlen.
  rewrite Hlen. unfold corner_choice_2d.
  destruct (corners_2d cfg x y q) as [cs|e]; [|reflexivity].
  unfold mbind, M_bind, lift. cbn.
  destruct (py_filter (inside_2d cfg x y) cs) as [keep'|e]; reflexivity.
Qed.

Lemma corner_choice_2d_min q :
  rect 2 (A q) → length (b q) = length (A q) → 0 <= c →
  ∃ p0 p1, [p0; p1] ∈ corner_points_2d x y ∧
    (∀ p', p' ∈ corner_points_2d x y → sq_resid_at q [p0; p1] <= sq_resid_at q p') ∧
    corner_choice_2d q = Ok (resid_at q [p0; p1], PyTuple [p0; p1]).
Proof.
  intros HA Hb Hc. unfold corner_choice_2d. rewrite corners_2d_ok by done. cbn [mbind result_bind].
  rewrite py_filter_all.
  2:{ apply Forall_fmap, Forall_forall. intros p Hp. by apply inside_2d_corner. }
  cbn [mbind result_bind].
  destruct (py_min_corners (sq_resid_at q) (corner_points_2d x y)) as (p & Hp & Hin & Hmin);
    [done|].
  assert (∃ p0 p1, p = [p0; p1]) as (p0 & p1 & ->).
  { unfold corner_points_2d in Hin.
    repeat (apply elem_of_cons in Hin as [->|Hin]); [..|by apply elem_of_nil in Hin]; eauto. }
  exists p0, p1. split; [done|]. split; [done|]. exact Hp.
Qed.

Lemma corner_choice_2d_empty q :
  rect 2 (A q) → length (b q) = length (A q) → c < 0 →
  corner_choice_2d q = Raise ValueError.
Proof.
  intros HA Hb Hc. unfold corner_choice_2d. rewrite corners_2d_ok by done. cbn [mbind result_bind].
  rewrite py_filter_none; [done|].
  apply Forall_fmap, Forall_forall. intros p Hp. apply inside_2d_negative; [done|].
  unfold corner_points_2d in Hp.
  repeat (apply elem_of_cons in Hp as [->|Hp]); [..|by apply elem_of_nil in Hp]; done.
Qed.

Lemma corner_tier_2d h h' positions normals ps ns :
  inputs_wf 2 h positions normals ps ns → BOUNDARY cfg = true →
  reaches_corners_2d x y positions normals h = (h', Ok true) →
  ∃ q h1, build_2d positions normals h = (h1, Ok q) ∧
    (0 <= c →
     ∃ p0 p1, [p0; p1] ∈ corner_points_2d x y ∧
       (∀ p', p' ∈ corner_points_2d x y → sq_resid_at q [p0; p1] <= sq_resid_at q p') ∧
       solve_qef_2d cfg lstsq x y positions normals h
       = (h', if CLIP cfg then Raise TypeError else Ok (mk_V2 p0 p1))) ∧
    (c < 0 →
     solve_qef_2d cfg lstsq x y positions normals h = (h', Raise ValueError)).
Proof.
  intros Hwf HB Hreach.
  destruct (build_2d_run h positions normals ps ns Hwf) as (hb & q & Hbias & Hmake & Hbuild & Hq).
  exists q, (hb ++ [Fixed [None; None]]). split; [exact Hbuild|].
  unfold reaches_corners_2d in Hreach. unfold solve_qef_2d.
  erewrite bind_ok in Hreach by exact Hbuild.
  erewrite bind_ok by exact Hbias. erewrite bind_ok by exact Hmake.
  set (h1 := hb ++ _) in *.
  destruct (solve lstsq q h1) as [h2 [rv|e]] eqn:Hsolve;
    [erewrite bind_ok in Hreach by exact Hsolve
    |by erewrite bind_raise in Hreach by exact Hsolve].
  erewrite bind_ok by exact Hsolve.
  rewrite HB. apply boundary_2d_corner_tier in Hreach.
  destruct Hq as (_ & _ & HA & Hb). cbn in HA.
  split.
  - intros Hc. destruct (corner_choice_2d_min q HA Hb Hc) as (p0 & p1 & Hin & Hmin & Hchoice).
    exists p0, p1. split; [done|]. split; [done|].
    rewrite Hchoice in Hreach. erewrite bind_ok by exact Hreach.
    by destruct (CLIP cfg).
  - intros Hc. rewrite (corner_choice_2d_empty q HA Hb Hc) in Hreach.
    by erewrite bind_raise by exact Hreach.
Qed.

End CornerTier2D.

(** The QEF [solve_qef_3d] builds: the bias step, then [make_3d]. *)
Definition build_3d (positions normals : loc) : M QEF :=
  _ ← (if BIAS cfg then bias_3d cfg positions normals else mret tt);
  make_3d positions normals.

(** The run of [solve_qef_3d] up to the test that opens the corner tier:
    [true] when the unconstrained solution is outside the cell and no
    face candidate and no edge candidate passes [inside]. *)
Definition reaches_corners_3d (x y z : Q) (positions normals : loc) : M bool :=
  qef ← build_3d positions normals;
  rv ← solve lstsq qef;
  ok ← lift (inside_3d cfg x y z rv);
  if negb ok then
    rs ← faces_3d cfg lstsq x y z qef;
    rs ← lift (py_filter (inside_3d cfg x y z) rs);
    if (length rs =? 0)%nat then
      es ← edges_3d cfg lstsq x y z qef;
      es ← lift (py_filter (inside_3d cfg x y z) es);
      mret (length es =? 0)%nat
    else mret false
  else mret false.

Lemma build_3d_run h positions normals ps ns :
  inputs_wf 3 h positions normals ps ns →
  ∃ hb q,
    (if BIAS cfg then bias_3d cfg positions normals else mret tt) h = (hb, Ok tt) ∧
    make_3d positions normals hb = (hb ++ [Fixed [None; None; None]], Ok q) ∧
    build_3d positions normals h = (hb ++ [Fixed [None; None; None]], Ok q) ∧
    qef_wf (hb ++ [Fixed [None; None; None]]) q [None; None; None].
Proof.
  intros Hwf.
  assert (∃ hb ps' ns',
    (if BIAS cfg then bias_3d cfg positions normals else mret tt) h = (hb, Ok tt) ∧
    inputs_wf 3 hb positions normals ps' ns') as (hb & ps' & ns' & Hbias & Hwf').
  { destruct (BIAS cfg); [by eapply bias_3d_wf|]. by exists h, ps, ns. }
  destruct Hwf' as (Hp & Hn & Hne & Hps & Hns & Hnil & Hlen).
  pose proof (make_3d_run hb positions normals ps' ns' Hp Hn Hps Hns Hnil) as Hmake.
  eexists _, _. split; [exact Hbias|]. split; [exact Hmake|]. split.
  - unfold build_3d. erewrite bind_ok by exact Hbias. exact Hmake.
  - apply (make_wf 3); [done|done|].
    unfold b_3d. rewrite length_fmap, length_zip_with. lia.
Qed.

Section CornerTier3D.
Variables x y z : Q.
Let c := CELL_SIZE cfg.

Lemma inside_3d_negative r :
  c < 0 → length (items r.2) = 3%nat → inside_3d cfg x y z r = Ok false.
Proof.
  intros Hc Hlen. unfold inside_3d. fold c.
  destruct (items r.2) as [|r0 [|r1 [|r2 [|]]]]; try done. cbn.
  destruct (Qle_bool x r0 && Qle_bool r0 (x + c)) eqn:E0; [|done].
  apply andb_true_iff in E0 as [?%Qle_bool_iff ?%Qle_bool_iff]. lra.
Qed.

(** What the corner tier hands to the rest of the function. *)
Definition corner_choice_3d (q : QEF) : result (resid * pyseq) :=
  cs ← corners_3d cfg x y z q;
  keep ← py_filter (inside_3d cfg x y z) cs;
  py_min keep.

Lemma boundary_3d_corner_tier q rv h2 h' :
  (ok ← lift (inside_3d cfg x y z rv);
   if negb ok then
     rs ← faces_3d cfg lstsq x y z q;
     rs ← lift (py_filter (inside_3d cfg x y z) rs);
     if (length rs =? 0)%nat then
       es ← edges_3d cfg lstsq x y z q;
       es ← lift (py_filter (inside_3d cfg x y z) es);
       mret (length es =? 0)%nat
     else mret false
   else mret false) h2 = (h', Ok true) →
  boundary_3d cfg lstsq x y z q rv h2 = (h', corner_choice_3d q).
Proof.
  intros Hreach. unfold boundary_3d. rewrite bind_lift in Hreach. rewrite bind_lift.
  destruct (inside_3d cfg x y z rv) as [[|]|e]; cbn [negb] in *; [done| |done].
  destruct (faces_3d cfg lstsq x y z q h2) as [h3 [rs|e]] eqn:Hfaces;
    [erewrite bind_ok in Hreach by exact Hfaces
    |by erewrite bind_raise in Hreach by exact Hfaces].
  erewrite bind_ok by exact Hfaces. rewrite bind_lift in Hreach. rewrite bind_lift.
  destruct (py_filter (inside_3d cfg x y z) rs) as [keep|e]; [|done].
  destruct (length keep =? 0)%nat; [|done].
  destruct (edges_3d cfg lstsq x y z q h3) as [h4 [es|e]] eqn:Hedges;
    [erewrite bind_ok in Hreach by exact Hedges
    |by erewrite bind_raise in Hreach by exact Hedges].
  rewrite bind_lift in Hreach.
  destruct (py_filter (inside_3d cfg x y z) es) as [keep2|e] eqn:Hkeep2; [|done].
  rewrite ret_run in Hreach. injection Hreach as -> Hlen.
  erewrite bind_ok.
  2:{ erewrite bind_ok by exact Hedges. rewrite Hkeep2. apply lift_run. }
  rewrite Hlen. unfold corner_choice_3d.
  destruct (corners_3d cfg x y z q) as [cs|e]; [|reflexivity].
  unfold mbind, M_bind, lift. cbn.
  destruct (py_filter (inside_3d cfg x y z) cs) as [keep'|e]; reflexivity.
Qed.

Lemma corner_choice_3d_min q :
  rect 3 (A q) → length (b q) = length (A q) → 0 <= c →
  ∃ p0 p1 p2, [p0; p1; p2] ∈ corner_points_3d x y z ∧
    (∀ p', p' ∈ corner_points_3d x y z → sq_resid_at q [p0; p1; p2] <= sq_resid_at q p') ∧
    corner_choice_3d q = Ok (resid_at q [p0; p1; p2], PyTuple [p0; p1; p2]).
Proof.
  intros HA Hb Hc. unfold corner_choice_3d. rewrite corners_3d_ok by done. cbn [mbind result_bind].
  rewrite py_filter_all.
  2:{ apply Forall_fmap, Forall_forall. intros p Hp. by apply inside_3d_corner. }
  cbn [mbind result_bind].
  destruct (py_min_corners (sq_resid_at q) (corner_points_3d x y z)) as (p & Hp & Hin & Hmin);
    [done|].
  assert (∃ p0 p1 p2, p = [p0; p1; p2]) as (p0 & p1 & p2 & ->).
  { unfold corner_points_3d in Hin.
    repeat (apply elem_of_cons in Hin as [->|Hin]); [..|by apply elem_of_nil in Hin]; eauto. }
  exists p0, p1, p2. split; [done|]. split; [done|]. exact Hp.
Qed.

Lemma corner_choice_3d_empty q :
  rect 3 (A q) → length (b q) = length (A q) → c < 0 →
  corner_choice_3d q = Raise ValueError.
Proof.
  intros HA Hb Hc. unfold corner_choice_3d. rewrite corners_3d_ok by done. cbn [mbind result_bind].
  rewrite py_filter_none; [done|].
  apply Forall_fmap, Forall_forall. intros p Hp. apply inside_3d_negative; [done|].
  unfold corner_points_3d in Hp.
  repeat (apply elem_of_cons in Hp as [->|Hp]); [..|by apply elem_of_nil in Hp]; done.
Qed.

Lemma corner_tier_3d h h' positions normals ps ns :
  inputs_wf 3 h positions normals ps ns → BOUNDARY cfg = true →
  reaches_corners_3d x y z positions normals h = (h', Ok true) →
  ∃ q h1, build_3d positions normals h = (h1, Ok q) ∧
    (0 <= c →
     ∃ p0 p1 p2, [p0; p1; p2] ∈ corner_points_3d x y z ∧
       (∀ p', p' ∈ corner_points_3d x y z → sq_resid_at q [p0; p1; p2] <= sq_resid_at q p') ∧
       solve_qef_3d cfg lstsq x y z positions normals h
       = (h', if CLIP cfg then Raise TypeError else Ok (mk_V3 p0 p1 p2))) ∧
    (c < 0 →
     solve_qef_3d cfg lstsq x y z positions normals h = (h', Raise ValueError)).
Proof.
  intros Hwf HB Hreach.
  destruct (build_3d_run h positions normals ps ns Hwf) as (hb & q & Hbias & Hmake & Hbuild & Hq).
  exists q, (hb ++ [Fixed [None; None; None]]). split; [exact Hbuild|].
  unfold reaches_corners_3d in Hreach. unfold solve_qef_3d.
  erewrite bind_ok in Hreach by exact Hbuild.
  erewrite bind_ok by exact Hbias. erewrite bind_ok by exact Hmake.
  set (h1 := hb ++ _) in *.
  destruct (solve lstsq q h1) as [h2 [rv|e]] eqn:Hsolve;
    [erewrite bind_ok in Hreach by exact Hsolve
    |by erewrite bind_raise in Hreach by exact Hsolve].
  erewrite bind_ok by exact Hsolve.
  rewrite HB. apply boundary_3d_corner_tier in Hreach.
  destruct Hq as (_ & _ & HA & Hb). cbn in HA.
  split.
  - intros Hc. destruct (corner_choice_3d_min q HA Hb Hc) as (p0 & p1 & p2 & Hin & Hmin & Hchoice).
    exists p0, p1, p2. split; [done|]. split; [done|].
    rewrite Hchoice in Hreach. erewrite bind_ok by exact Hreach.
    by destruct (CLIP cfg).
  - intros Hc. rewrite (corner_choice_3d_empty q HA Hb Hc) in Hreach.
    by erewrite bind_raise by exact Hreach.
Qed.

End CornerTier3D.

(** C7 (amended). When the cascade reaches the corner tier with [CLIP]
    off and a cell size that is not negative, every corner passes
    [inside] and the function returns the corner of least residual; with
    a negative cell size no corner passes and [min] of the empty list
    raises ValueError: the filtered list is all the corner tier keeps. *)
Theorem corner_tier_min_residual :
  (∀ x y h h' positions normals ps ns,
     inputs_wf 2 h positions normals ps ns → BOUNDARY cfg = true →
     reaches_corners_2d x y positions normals h = (h', Ok true) →
     ∃ q h1, build_2d positions normals h = (h1, Ok q) ∧
       (0 <= CELL_SIZE cfg → CLIP cfg = false →
        ∃ p0 p1, [p0; p1] ∈ corner_points_2d x y ∧
          (∀ p', p' ∈ corner_points_2d x y →
             sq_resid_at q [p0; p1] <= sq_resid_at q p') ∧
          solve_qef_2d cfg lstsq x y positions normals h = (h', Ok (mk_V2 p0 p1))) ∧
       (CELL_SIZE cfg < 0 →
        solve_qef_2d cfg lstsq x y positions normals h = (h', Raise ValueError))) ∧
  (∀ x y z h h' positions normals ps ns,
     inputs_wf 3 h positions normals ps ns → BOUNDARY cfg = true →
     reaches_corners_3d x y z positions normals h = (h', Ok true) →
     ∃ q h1, build_3d positions normals h = (h1, Ok q) ∧
       (0 <= CELL_SIZE cfg → CLIP cfg = false →
        ∃ p0 p1 p2, [p0; p1; p2] ∈ corner_points_3d x y z ∧
          (∀ p', p' ∈ corner_points_3d x y z →
             sq_resid_at q [p0; p1; p2] <= sq_resid_at q p') ∧
          solve_qef_3d cfg lstsq x y z positions normals h
          = (h', Ok (mk_V3 p0 p1 p2))) ∧
       (CELL_SIZE cfg < 0 →
        solve_qef_3d cfg lstsq x y z positions normals h = (h', Raise ValueError))).
Proof.
  split.
  - intros x y h h' positions normals ps ns Hwf HB Hreach.
    destruct (corner_tier_2d x y h h' positions normals ps ns Hwf HB Hreach)
      as (q & h1 & Hbuild & Hpos & Hneg).
    exists q, h1. split; [done|]. split; [|done].
    intros Hc Hclip. destruct (Hpos Hc) as (p0 & p1 & Hin & Hmin & Hrun).
    exists p0, p1. rewrite Hclip in Hrun. done.
  - intros x y z h h' positions normals ps ns Hwf HB Hreach.
    destruct (corner_tier_3d x y z h h' positions normals ps ns Hwf HB Hreach)
      as (q & h1 & Hbuild & Hpos & Hneg).
    exists q, h1. split; [done|]. split; [|done].
    intros Hc Hclip. destruct (Hpos Hc) as (p0 & p1 & p2 & Hin & Hmin & Hrun).
    exists p0, p1, p2. rewrite Hclip in Hrun. done.
Qed.

(** With [BOUNDARY] and [CLIP] both on, a run that reaches the corner
    tier ends in a TypeError: the chosen corner is a tuple, and
    [v[0] = numpy.clip(...)] assigns into it. *)
Lemma corner_tier_clip_raises :
  BOUNDARY cfg = true → CLIP cfg = true → 0 <= CELL_SIZE cfg →
  (∀ x y h h' positions normals ps ns,
     inputs_wf 2 h positions normals ps ns →
     reaches_corners_2d x y positions normals h = (h', Ok true) →
     solve_qef_2d cfg lstsq x y positions normals h = (h', Raise TypeError)) ∧
  (∀ x y z h h' positions normals ps ns,
     inputs_wf 3 h positions normals ps ns →
     reaches_corners_3d x y z positions normals h = (h', Ok true) →
     solve_qef_3d cfg lstsq x y z positions normals h = (h', Raise TypeError)).
Proof.
  intros HB Hclip Hc. split.
  - intros x y h h' positions normals ps ns Hwf Hreach.
    destruct (corner_tier_2d x y h h' positions normals ps ns Hwf HB Hreach)
      as (q & h1 & Hbuild & Hpos & _).
    destruct (Hpos Hc) as (p0 & p1 & _ & _ & Hrun). by rewrite Hclip in Hrun.
  - intros x y z h h' positions normals ps ns Hwf Hreach.
    destruct (corner_tier_3d x y z h h' positions normals ps ns Hwf HB Hreach)
      as (q & h1 & Hbuild & Hpos & _).
    destruct (Hpos Hc) as (p0 & p1 & p2 & _ & _ & Hrun). by rewrite Hclip in Hrun.
Qed.

End WithSolver.
End QefFacts.

(** ** The vertex placer *)

Module DualContourFacts.
Import Qef QefFacts DualContour.
#[local] Open Scope Q_scope.

(** The two samples of an edge differ in strict positivity. *)
Definition differ (e : Q * Q) : bool :=
  negb (eqb (Qlt_bool 0 e.1) (Qlt_bool 0 e.2)).

Definition count_changes (edges : list (Q * Q)) : nat :=
  length (List.filter differ edges).

Lemma count_changes_cons e edges :
  count_changes (e :: edges) = ((if differ e then 1 else 0) + count_changes edges)%nat.
Proof. unfold count_changes. cbn. by destruct (differ e). Qed.

Section WithSolver.
Variable cfg : settings.
Variable lstsq : matrix → vec → result (vec * vec).

Lemma crossing_spec d v0 v1 (point : Q → item) :
  (∀ a, is_point d (point a)) →
  ∃ l, crossing cfg v0 v1 point = Ok l ∧
       length l = (if differ (v0, v1) then 1 else 0)%nat ∧ points d l.
Proof.
  intros Hpt. unfold crossing, differ, Common.adapt. cbn.
  destruct (Qlt_bool 0 v0), (Qlt_bool 0 v1); cbn;
    try (eexists; split; [reflexivity|]; split; [done|]; by repeat constructor);
    destruct (ADAPTIVE cfg);
    (eexists; split; [reflexivity|]; split; [done|]; by repeat constructor).
Qed.

(** *** 2D *)

Section Cell2D.
Variable f : Q → Q → Q.
Variable f_normal : Q → Q → V2.
Variables x y : Q.
Let c := CELL_SIZE cfg.

(** The four edges of the cell, as pairs of samples, in the order the
    code tests them. *)
Definition cell_edges_2d : list (Q * Q) :=
  let x0y0 := f (x + 0.0) (y + 0.0) in
  let x0y1 := f (x + 0.0) (y + c) in
  let x1y0 := f (x + c) (y + 0.0) in
  let x1y1 := f (x + c) (y + c) in
  [ (x0y0, x0y1); (x1y0, x1y1); (x0y0, x1y0); (x0y1, x1y1) ].

Definition sign_changes_2d : nat := count_changes cell_edges_2d.

Lemma changes_2d_spec :
  ∃ cs, changes_2d cfg f x y = Ok cs ∧ length cs = sign_changes_2d ∧ points 2 cs.
Proof.
  unfold changes_2d, sign_changes_2d, cell_edges_2d. cbn zeta. fold c.
  rewrite !count_changes_cons.
  repeat match goal with
  | |- context [crossing cfg ?v0 ?v1 ?pt] =>
      let l := fresh "l" in let Hl := fresh "Hl" in let Hn := fresh "Hn" in
      let Hp := fresh "Hp" in
      destruct (crossing_spec 2 v0 v1 pt) as (l & Hl & Hn & Hp);
      [done|rewrite Hl; clear Hl; cbn [mbind result_bind]]
  end.
  eexists. split; [reflexivity|]. split.
  - rewrite !length_app. unfold count_changes. cbn. lia.
  - by repeat apply points_app.
Qed.

Lemma normals_2d_spec cs :
  points 2 cs →
  ∃ ns, mapM (normal_2d f_normal) cs = Ok ns ∧ length ns = length cs ∧ points 2 ns.
Proof.
  induction 1 as [|p cs Hp _ (ns & Hns & Hlen & Hpts)]; cbn.
  - exists []. split; [reflexivity|]. split; [done|constructor].
  - destruct p as [[|v0 [|v1 [|]]]|]; try done. cbn. rewrite Hns. cbn.
    eexists. split; [reflexivity|]. split; [cbn; by rewrite Hlen|].
    by constructor.
Qed.

Lemma placer_inputs_wf d h cs ns :
  points d cs → points d ns → length ns = length cs → (2 <= length cs)%nat →
  inputs_wf d ((h ++ [Points cs]) ++ [Points ns]) (length h) (length (h ++ [Points cs]))
            cs ns.
Proof.
  intros Hcs Hns Hlen Hge. split; [|split; [|split; [|split; [|split; [|split]]]]].
  - rewrite <- app_assoc. by apply list_lookup_middle.
  - by apply list_lookup_middle.
  - rewrite length_app. cbn. lia.
  - done.
  - done.
  - destruct ns; [cbn in Hlen; lia|done].
  - done.
Qed.

Lemma find_best_vertex_2d h :
  (ADAPTIVE cfg = false →
   dual_contour_2d_find_best_vertex cfg lstsq f f_normal x y h
   = (h, Ok (Some (mk_V2 (x + 0.5 * c) (y + 0.5 * c))))) ∧
  (ADAPTIVE cfg = true →
   ∃ h' r, dual_contour_2d_find_best_vertex cfg lstsq f f_normal x y h = (h', r) ∧
     (r = Ok None ↔ (sign_changes_2d < 2)%nat) ∧
     (solver_total lstsq → 0 <= c → CLIP cfg = false → (2 <= sign_changes_2d)%nat →
      ∃ v, r = Ok (Some v) ∧ (BOUNDARY cfg = true → in_cell_2d cfg x y v))).
Proof.
  unfold dual_contour_2d_find_best_vertex. split; intros ->; cbn [negb]; [done|].
  destruct changes_2d_spec as (cs & -> & Hlen & Hcs).
  erewrite bind_ok by apply lift_run. erewrite bind_ok by apply alloc_run.
  destruct (length cs <=? 1)%nat eqn:Hle.
  - apply Nat.leb_le in Hle. eexists _, _. split; [reflexivity|].
    split; [split; [lia|done]|]. lia.
  - apply Nat.leb_gt in Hle.
    destruct (normals_2d_spec cs Hcs) as (ns & -> & Hnlen & Hns).
    erewrite bind_ok by apply lift_run. erewrite bind_ok by apply alloc_run.
    set (h2 := (h ++ [Points cs]) ++ [Points ns]).
    set (run := solve_qef_2d cfg lstsq x y (length h) (length (h ++ [Points cs])) h2).
    assert (Hret : solver_total lstsq → 0 <= c → CLIP cfg = false →
                   ∃ h' v, run = (h', Ok v) ∧ (BOUNDARY cfg = true → in_cell_2d cfg x y v)).
    { intros Htotal Hc Hclip.
      apply (solve_qef_2d_returns cfg lstsq x y h2 _ _ cs ns); try done.
      apply placer_inputs_wf; (done || lia). }
    destruct run as [h' [v|e]] eqn:Hrun.
    + erewrite bind_ok by exact Hrun. eexists _, _. split; [reflexivity|].
      split; [split; [done|lia]|]. intros Htotal Hc Hclip _.
      destruct (Hret Htotal Hc Hclip) as (? & v' & [= <- <-] & Hin). eauto.
    + erewrite bind_raise by exact Hrun. eexists _, _. split; [reflexivity|].
      split; [split; [done|lia]|]. intros Htotal Hc Hclip _.
      by destruct (Hret Htotal Hc Hclip) as (? & v' & [=] & Hin).
Qed.

End Cell2D.

(** *** 3D *)

Section Cell3D.
Variable f : Q → Q → Q → Q.
Variable f_normal : Q → Q → Q → V3.
Variables x y z : Q.
Let c := CELL_SIZE cfg.
Let v := v_ cfg f x y z.

(** The twelve edges of the cell, as pairs of samples, in the order the
    three loops test them. *)
Definition cell_edges_3d : list (Q * Q) :=
  [ (v 0 0 0, v 0 0 1); (v 0 1 0, v 0 1 1); (v 1 0 0, v 1 0 1); (v 1 1 0, v 1 1 1);
    (v 0 0 0, v 0 1 0); (v 0 0 1, v 0 1 1); (v 1 0 0, v 1 1 0); (v 1 0 1, v 1 1 1);
    (v 0 0 0, v 1 0 0); (v 0 0 1, v 1 0 1); (v 0 1 0, v 1 1 0); (v 0 1 1, v 1 1 1) ].

Definition sign_changes_3d : nat := count_changes cell_edges_3d.

Lemma for_01_01_spec (body : Q → Q → result (list item)) (n : Q → Q → nat) :
  (∀ d1 d2, ∃ l, body d1 d2 = Ok l ∧ length l = n d1 d2 ∧ points 3 l) →
  ∃ cs, for_01_01 body = Ok cs ∧
    length cs = (n 0%Q 0%Q + n 0%Q 1%Q + n 1%Q 0%Q + n 1%Q 1%Q)%nat ∧ points 3 cs.
Proof.
  intros Hbody. unfold for_01_01. cbn.
  destruct (Hbody 0 0) as (l1 & -> & <- & H1), (Hbody 0 1) as (l2 & -> & <- & H2),
           (Hbody 1 0) as (l3 & -> & <- & H3), (Hbody 1 1) as (l4 & -> & <- & H4).
  cbn. eexists. split; [reflexivity|]. rewrite app_nil_r. split.
  - rewrite !length_app. lia.
  - by repeat apply points_app.
Qed.

Lemma changes_3d_spec :
  ∃ cs, changes_3d cfg f x y z = Ok cs ∧ length cs = sign_changes_3d ∧ points 3 cs.
Proof.
  unfold changes_3d, sign_changes_3d, cell_edges_3d. cbn zeta. fold c. fold v.
  rewrite !count_changes_cons.
  repeat match goal with
  | |- context [for_01_01 ?body] =>
      let l := fresh "l" in let Hl := fresh "Hl" in let Hn := fresh "Hn" in
      let Hp := fresh "Hp" in
      edestruct (for_01_01_spec body) as (l & Hl & Hn & Hp);
      [intros d1 d2; apply (crossing_spec 3); done
      |rewrite Hl; clear Hl; cbn [mbind result_bind]]
  end.
  eexists. split; [reflexivity|]. split.
  - rewrite !length_app, Hn, Hn0, Hn1. unfold count_changes. cbn. lia.
  - by repeat apply points_app.
Qed.

Lemma normals_3d_spec cs :
  points 3 cs →
  ∃ ns, mapM (normal_3d f_normal) cs = Ok ns ∧ length ns = length cs ∧ points 3 ns.
Proof.
  induction 1 as [|p cs Hp _ (ns & Hns & Hlen & Hpts)]; cbn.
  - exists []. split; [reflexivity|]. split; [done|constructor].
  - destruct p as [[|v0 [|v1 [|v2 [|]]]]|]; try done. cbn. rewrite Hns. cbn.
    eexists. split; [reflexivity|]. split; [cbn; by rewrite Hlen|].
    by constructor.
Qed.

Lemma find_best_vertex_3d h :
  (ADAPTIVE cfg = false →
   dual_contour_3d_find_best_vertex cfg lstsq f f_normal x y z h
   = (h, Ok (Some (mk_V3 (x + 0.5 * c) (y + 0.5 * c) (z + 0.5 * c))))) ∧
  (ADAPTIVE cfg = true →
   ∃ h' r, dual_contour_3d_find_best_vertex cfg lstsq f f_normal x y z h = (h', r) ∧
     (r = Ok None ↔ (sign_changes_3d < 2)%nat) ∧
     (solver_total lstsq → 0 <= c → CLIP cfg = false → (2 <= sign_changes_3d)%nat →
      ∃ v, r = Ok (Some v) ∧ (BOUNDARY cfg = true → in_cell_3d cfg x y z v))).
Proof.
  unfold dual_contour_3d_find_best_vertex. split; intros ->; cbn [negb]; [done|].
  destruct changes_3d_spec as (cs & -> & Hlen & Hcs).
  erewrite bind_ok by apply lift_run. erewrite bind_ok by apply alloc_run.
  destruct (length cs <=? 1)%nat eqn:Hle.
  - apply Nat.leb_le in Hle. eexists _, _. split; [reflexivity|].
    split; [split; [lia|done]|]. lia.
  - apply Nat.leb_gt in Hle.
    destruct (normals_3d_spec cs Hcs) as (ns & -> & Hnlen & Hns).
    erewrite bind_ok by apply lift_run. erewrite bind_ok by apply alloc_run.
    set (h2 := (h ++ [Points cs]) ++ [Points ns]).
    set (run := solve_qef_3d cfg lstsq x y z (length h) (length (h ++ [Points cs])) h2).
    assert (Hret : solver_total lstsq → 0 <= c → CLIP cfg = false →
                   ∃ h' v, run = (h', Ok v) ∧ (BOUNDARY cfg = true → in_cell_3d cfg x y z v)).
    { intros Htotal Hc Hclip.
      apply (solve_qef_3d_returns cfg lstsq x y z h2 _ _ cs ns); try done.
      apply placer_inputs_wf; (done || lia). }
    destruct run as [h' [v'|e]] eqn:Hrun.
    + erewrite bind_ok by exact Hrun. eexists _, _. split; [reflexivity|].
      split; [split; [done|lia]|]. intros Htotal Hc Hclip _.
      destruct (Hret Htotal Hc Hclip) as (? & v'' & [= <- <-] & Hin). eauto.
    + erewrite bind_raise by exact Hrun. eexists _, _. split; [reflexivity|].
      split; [split; [done|lia]|]. intros Htotal Hc Hclip _.
      by destruct (Hret Htotal Hc Hclip) as (? & v'' & [=] & Hin).
Qed.

End Cell3D.


End WithSolver.
End DualContourFacts.

(** ** Worked examples with the reference solver *)

Module Examples.
Import Qef Lstsq QefFacts DualContour DualContourFacts.
#[local] Open Scope Q_scope.

Lemma lstsq_exact_total : solver_total lstsq_exact.
Proof.
  intros n A b HA Hrect Hb. unfold lstsq_exact.
  destruct A as [|r0 A']; [done|].
  rewrite Hb, Nat.eqb_refl. cbn [negb].
  destruct (rref _ _ _ _) as [F pivots].
  eexists _, _. split; [reflexivity|].
  rewrite length_fmap, columns_length. by inversion Hrect.
Qed.

(** The default settings with [CLIP] switched on, with [ADAPTIVE]
    switched off, and with a negative cell size. *)
Definition clip_on : settings := {|
  ADAPTIVE := true; CLIP := true; BOUNDARY := true; BIAS := true;
  BIAS_STRENGTH := 0.01; CELL_SIZE := 1
|}.

Definition adaptive_off : settings := {|
  ADAPTIVE := false; CLIP := false; BOUNDARY := true; BIAS := true;
  BIAS_STRENGTH := 0.01; CELL_SIZE := 1
|}.

Definition negative_cell : settings := {|
  ADAPTIVE := true; CLIP := false; BOUNDARY := true; BIAS := true;
  BIAS_STRENGTH := 0.01; CELL_SIZE := -1
|}.

(** The field [x + y - 3xy] on the cell at the origin: the samples are
    0, 1, 1 and -1, and the four edges cross at (0, 0) twice, at (1, 1/2)
    and at (1/2, 1). *)
Definition saddle (x y : Q) : Q := x + y - 3 * x * y.

Definition saddle_normal (x y : Q) : V2 :=
  if Qeq_bool x 0 && Qeq_bool y 0 then mk_V2 (-0.8) (-0.6)
  else if Qeq_bool x 1 then mk_V2 0.6 (-0.8)
  else mk_V2 0.8 (-0.6).

(** The lists the placer hands to [solve_qef_2d] for the saddle. *)
Definition saddle_heap : heap :=
  [ Points [Vec [0; 0]; Vec [1; 0.5]; Vec [0; 0]; Vec [0.5; 1]];
    Points [Vec [-0.8; -0.6]; Vec [0.6; -0.8]; Vec [-0.8; -0.6]; Vec [0.8; -0.6]] ].

(** Three planes that meet at (5, 5, 5), far from the cell at the origin. *)
Definition far_heap : heap :=
  [ Points [Vec [5; 0; 0]; Vec [0; 5; 0]; Vec [0; 0; 5]];
    Points [Vec [1; 0; 0]; Vec [0; 1; 0]; Vec [0; 0; 1]] ].

(** [x] minimises the squared error of [A x = b]: the error is
    orthogonal to every column of [A]. *)
Definition least_squares (A : matrix) (b x : vec) : bool :=
  let r := zip_with Qminus ((λ row, dot row x) <$> A) b in
  forallb (λ col, Qeq_bool (dot col r) 0) (columns (length x) A).

Definition rank (n : nat) (A : matrix) : nat := length (rref (seq 0 n) [] A []).2.

(** [x] is a combination of the rows of [A]; among the minimisers this
    singles out the one of least norm, which is the one numpy returns. *)
Definition in_row_space (A : matrix) (x : vec) : bool :=
  (rank (length x) (A ++ [x]) =? rank (length x) A)%nat.

(** A solver that checks each answer before handing it over. *)
Definition checked (lstsq : matrix → vec → result (vec * vec)) (A : matrix) (b : vec)
  : result (vec * vec) :=
  match lstsq A b with
  | Ok (x, residuals) =>
      if least_squares A b x && in_row_space A x then Ok (x, residuals)
      else Raise AssertionError
  | Raise e => Raise e
  end.

Ltac points_wf :=
  repeat first [ split | reflexivity | discriminate | lia
               | apply Forall_nil_2 | apply Forall_cons_2 ].

Lemma saddle_heap_wf :
  ∃ ps ns, inputs_wf 2 saddle_heap 0 1 ps ns.
Proof. eexists _, _. unfold inputs_wf, saddle_heap. points_wf. Defined.

Lemma far_heap_wf :
  ∃ ps ns, inputs_wf 3 far_heap 0 1 ps ns.
Proof. eexists _, _. unfold inputs_wf, far_heap. points_wf. Defined.

(** C1. With [BOUNDARY] on, the vertex [solve_qef] returns should lie in
    the cell. With [CLIP] on as well, the runs below reach the corner
    tier and raise TypeError instead of returning: [solve_qef_2d] on the
    crossings of the saddle, the 2D placer on the saddle itself, and
    [solve_qef_3d] on three planes that meet far from the cell. *)
Theorem solve_qef_clip_raises :
  (reaches_corners_2d clip_on lstsq_exact 0 0 0 1 saddle_heap).2 = Ok true ∧
  (solve_qef_2d clip_on lstsq_exact 0 0 0 1 saddle_heap).2 = Raise TypeError ∧
  (dual_contour_2d_find_best_vertex clip_on lstsq_exact saddle saddle_normal 0 0 []).2
  = Raise TypeError ∧
  (reaches_corners_3d clip_on lstsq_exact 0 0 0 0 1 far_heap).2 = Ok true ∧
  (solve_qef_3d clip_on lstsq_exact 0 0 0 0 1 far_heap).2 = Raise TypeError.
Proof. vm_compute. repeat split. Qed.

(** Every answer [lstsq_exact] gives in the runs of this section is the
    least-norm minimiser: the checking solver changes none of them. *)
Lemma example_solves_checked :
  Forall (λ cfg,
    solve_qef_2d cfg (checked lstsq_exact) 0 0 0 1 saddle_heap
    = solve_qef_2d cfg lstsq_exact 0 0 0 1 saddle_heap ∧
    solve_qef_3d cfg (checked lstsq_exact) 0 0 0 0 1 far_heap
    = solve_qef_3d cfg lstsq_exact 0 0 0 0 1 far_heap)
    [defaults; clip_on; negative_cell].
Proof. repeat constructor; vm_compute; reflexivity. Qed.

Example lstsq_exact_min_norm :
  lstsq_exact [[1; 1]] [2] = Ok ([1; 1], []) ∧
  lstsq_exact [[1; 0]; [0; 1]; [1; 1]] [1; 1; 1] = Ok ([2 # 3; 2 # 3], [1 # 3]).
Proof. vm_compute. repeat split. Qed.

(** The same runs with [CLIP] off return a corner of the cell. *)
Lemma solve_qef_clip_off_returns :
  (solve_qef_2d defaults lstsq_exact 0 0 0 1 saddle_heap).2 = Ok (mk_V2 0 0) ∧
  (solve_qef_3d defaults lstsq_exact 0 0 0 0 1 far_heap).2 = Ok (mk_V3 1 1 1).
Proof. vm_compute. repeat split. Qed.

(** C7, as stated, fails: with a negative cell size the run reaches the
    corner tier, no corner passes [inside], and the function raises
    ValueError instead of returning a corner. *)
Lemma corner_tier_raises_when_no_corner_passes :
  (reaches_corners_2d negative_cell lstsq_exact 0 0 0 1 saddle_heap).2 = Ok true ∧
  (solve_qef_2d negative_cell lstsq_exact 0 0 0 1 saddle_heap).2 = Raise ValueError ∧
  (reaches_corners_3d negative_cell lstsq_exact 0 0 0 0 1 far_heap).2 = Ok true ∧
  (solve_qef_3d negative_cell lstsq_exact 0 0 0 0 1 far_heap).2 = Raise ValueError.
Proof. vm_compute. repeat split. Qed.

(** C7 (amended) at the saddle and at the far planes, default settings. *)
Lemma corner_tier_min_residual_witness :
  (∃ h' p0 p1, [p0; p1] ∈ corner_points_2d defaults 0 0 ∧
     solve_qef_2d defaults lstsq_exact 0 0 0 1 saddle_heap = (h', Ok (mk_V2 p0 p1))) ∧
  (∃ h' p0 p1 p2, [p0; p1; p2] ∈ corner_points_3d defaults 0 0 0 ∧
     solve_qef_3d defaults lstsq_exact 0 0 0 0 1 far_heap = (h', Ok (mk_V3 p0 p1 p2))).
Proof.
  destruct (corner_tier_min_residual defaults lstsq_exact) as [H2 H3]. split.
  - destruct saddle_heap_wf as (ps & ns & Hwf).
    destruct (H2 0 0 saddle_heap
                (reaches_corners_2d defaults lstsq_exact 0 0 0%nat 1%nat saddle_heap).1
                0%nat 1%nat ps ns Hwf eq_refl)
      as (q & h1 & _ & Hpos & _); [vm_compute; reflexivity|].
    destruct Hpos as (p0 & p1 & Hin & _ & Hrun); [vm_compute; discriminate|reflexivity|].
    eexists _, p0, p1. split; [exact Hin|exact Hrun].
  - destruct far_heap_wf as (ps & ns & Hwf).
    destruct (H3 0 0 0 far_heap
                (reaches_corners_3d defaults lstsq_exact 0 0 0 0%nat 1%nat far_heap).1
                0%nat 1%nat ps ns Hwf eq_refl)
      as (q & h1 & _ & Hpos & _); [vm_compute; reflexivity|].
    destruct Hpos as (p0 & p1 & p2 & Hin & _ & Hrun); [vm_compute; discriminate|reflexivity|].
    eexists _, p0, p1, p2. split; [exact Hin|exact Hrun].
Defined.



(** C8 at the far planes: fix axis 1 at 7 on the fresh QEF, solve. *)
Lemma fix_axis_solve_reinsert_witness :
  ∃ q h1 q' h2 r p,
    make_3d 0 1 far_heap = (h1, Ok q) ∧
    fix_axis q 1 7 h1 = (h2, Ok q') ∧
    solve lstsq_exact q' h2 = (h2, Ok (r, PyList p)) ∧
    length p = 3%nat ∧ p !! 1%nat = Some 7.
Proof.
  destruct (fix_axis_solve_reinsert lstsq_exact) as (_ & _ & _ & H3).
  destruct far_heap_wf as (ps & ns & (Hp & Hn & _ & Hps & Hns & Hne & Hlen)).
  apply (H3 far_heap 0%nat 1%nat ps ns 1%nat 7 lstsq_exact_total Hp Hn Hps Hns Hne Hlen).
  lia.
Defined.

(** C10 at the saddle: with the default settings the caller's lists end
    with the mass point twice and with the two bias normals. *)
Lemma solve_qef_appends_bias_witness :
  let h' := (solve_qef_2d defaults lstsq_exact 0 0 0 1 saddle_heap).1 in
  ∃ m, h' !! 0%nat
       = Some (Points [Vec [0; 0]; Vec [1; 0.5]; Vec [0; 0]; Vec [0.5; 1]; m; m]) ∧
       h' !! 1%nat
       = Some (Points [Vec [-0.8; -0.6]; Vec [0.6; -0.8]; Vec [-0.8; -0.6];
                       Vec [0.8; -0.6]; Vec [0.01; 0]; Vec [0; 0.01]]).
Proof.
  destruct (solve_qef_appends_bias defaults lstsq_exact) as [H2 _].
  destruct saddle_heap_wf as (ps & ns & (Hp & Hn & Hne & Hps & _)).
  injection Hp as <-. injection Hn as <-.
  destruct (H2 0 0 saddle_heap 0%nat 1%nat _ _ eq_refl eq_refl Hne Hps)
    as (m & _ & Hpos & Hnor).
  exists m. split; [exact Hpos|exact Hnor].
Defined.

End Examples.

(** ** The helpers and checks of the case-table generator *)

Module CaseGenHelpers.
Import CaseGen CaseGenTests.

(** Vertex [v] is solid under [n], the way the generator tests it:
    [2**v & n > 0]. *)
Definition solid_in (n : N) (v : nat) : bool := (0 <? N.land (2 ^ N.of_nat v) n)%N.

Lemma solid_in_testbit n v : solid_in n v = N.testbit n (N.of_nat v).
Proof.
  unfold solid_in. destruct (N.testbit n (N.of_nat v)) eqn:E.
  - apply N.ltb_lt. apply N.neq_0_lt_0. intros H0.
    assert (N.testbit (N.land (2 ^ N.of_nat v) n) (N.of_nat v) = true) as Hb.
    { rewrite N.land_spec, N.pow2_bits_true, E. done. }
    rewrite H0 in Hb. by rewrite N.bits_0 in Hb.
  - apply N.ltb_ge. apply N.le_0_r. apply N.bits_inj. intros k.
    rewrite N.land_spec, N.bits_0, N.pow2_bits_eqb.
    destruct (N.eqb_spec (N.of_nat v) k) as [<-|]; [by rewrite E|done].
Qed.

Lemma bits_to_verts_spec n v : v ∈ bits_to_verts n ↔ v < 8 ∧ solid_in n v = true.
Proof.
  unfold bits_to_verts. rewrite list_elem_of_In, filter_In, in_seq. fold (solid_in n v).
  intuition lia.
Qed.

Lemma bits_to_verts_NoDup n : NoDup (bits_to_verts n).
Proof.
  unfold bits_to_verts. apply NoDup_ListNoDup, List.NoDup_filter, seq_NoDup.
Qed.

(** The bits of a sum of distinct powers of two. *)
Lemma sum_powers_testbit vs acc k :
  NoDup vs → (∀ v, v ∈ vs → N.testbit acc (N.of_nat v) = false) →
  N.testbit (foldl (λ acc v, (acc + 2 ^ N.of_nat v)%N) acc vs) k
  = N.testbit acc k || bool_decide (N.to_nat k ∈ vs).
Proof.
  revert acc. induction vs as [|v vs IH]; intros acc Hnd Hacc; cbn.
  - rewrite bool_decide_eq_false_2; [by rewrite orb_false_r|]. by intros ?%elem_of_nil.
  - apply NoDup_cons in Hnd as [Hv Hnd].
    assert (acc + 2 ^ N.of_nat v = N.lxor acc (2 ^ N.of_nat v))%N as Hadd.
    { apply N.add_nocarry_lxor. apply N.bits_inj. intros j.
      rewrite N.land_spec, N.bits_0, N.pow2_bits_eqb.
      destruct (N.eqb_spec (N.of_nat v) j) as [<-|]; [|by rewrite andb_false_r].
      rewrite Hacc; [done|]. by left. }
    rewrite IH; [|done|].
    + rewrite Hadd, N.lxor_spec, N.pow2_bits_eqb.
      destruct (N.eqb_spec (N.of_nat v) k) as [<-|Hne].
      * rewrite Hacc by (by left). rewrite Nat2N.id. cbn.
        rewrite bool_decide_eq_true_2 by (by left). done.
      * rewrite xorb_false_r. f_equal. apply bool_decide_ext.
        rewrite elem_of_cons. split; [auto|]. intros [E|?]; [|done].
        exfalso. apply Hne. rewrite <- E. apply N2Nat.id.
    + intros w Hw. rewrite Hadd, N.lxor_spec, N.pow2_bits_eqb.
      rewrite Hacc by (by right).
      destruct (N.eqb_spec (N.of_nat v) (N.of_nat w)) as [E|]; [|done].
      apply Nat2N.inj in E. by subst.
Qed.

Lemma verts_to_bits_testbit vs k :
  NoDup vs → N.testbit (verts_to_bits vs) k = bool_decide (N.to_nat k ∈ vs).
Proof.
  intros Hnd. unfold verts_to_bits. rewrite sum_powers_testbit; [|done|].
  - by rewrite N.bits_0.
  - intros. apply N.bits_0.
Qed.

(** X3: a bitmask survives the round trip through the list of its solid
    vertices, up to its eight low bits; the list holds the solid vertices
    below 8, each once. *)
Theorem bits_verts_round_trip (n : N) :
  verts_to_bits (bits_to_verts n) = N.land n 255 ∧
  NoDup (bits_to_verts n) ∧
  ∀ v, v ∈ bits_to_verts n ↔ v < 8 ∧ N.testbit n (N.of_nat v) = true.
Proof.
  split; [|split; [apply bits_to_verts_NoDup|]].
  - apply N.bits_inj. intros k.
    rewrite verts_to_bits_testbit by apply bits_to_verts_NoDup.
    rewrite N.land_spec. change 255%N with (N.ones 8).
    destruct (decide (k < 8)%N) as [Hk|Hk].
    + rewrite N.ones_spec_low by lia. rewrite andb_true_r.
      destruct (N.testbit n k) eqn:E.
      * apply bool_decide_eq_true_2, bits_to_verts_spec.
        rewrite solid_in_testbit, N2Nat.id. split; [lia|done].
      * apply bool_decide_eq_false_2. rewrite bits_to_verts_spec.
        rewrite solid_in_testbit, N2Nat.id. intros [_ ?]. congruence.
    + rewrite N.ones_spec_high by lia. rewrite andb_false_r.
      apply bool_decide_eq_false_2. rewrite bits_to_verts_spec. lia.
  - intros v. rewrite bits_to_verts_spec, solid_in_testbit. done.
Qed.

(** *** [bits_apply] *)

Lemma NoDup_lookup_inj (op : list nat) i j a :
  NoDup op → op !! i = Some a → op !! j = Some a → i = j.
Proof. intros Hnd Hi Hj. by eapply NoDup_lookup. Qed.

Lemma moved_elem (op : list nat) l vs a :
  Forall2 (λ v y, op !! v = Some y) l vs →
  a ∈ vs ↔ ∃ v, v ∈ l ∧ op !! v = Some a.
Proof.
  induction 1 as [|v y l vs Hvy _ IH].
  - split; [by intros ?%elem_of_nil|]. by intros (v & ?%elem_of_nil & _).
  - rewrite elem_of_cons, IH. split.
    + intros [->|(w & Hw & Hop)]; [exists v|exists w]; split; try done; [by left|by right].
    + intros (w & [->|Hw]%elem_of_cons & Hop); [left; congruence|right; eauto].
Qed.

Lemma moved_NoDup (op : list nat) l vs :
  NoDup op → NoDup l → Forall2 (λ v y, op !! v = Some y) l vs → NoDup vs.
Proof.
  intros Hop Hl H. induction H as [|v y l vs Hvy H IH]; [constructor|].
  apply NoDup_cons in Hl as [Hv Hl]. apply NoDup_cons. split; [|by apply IH].
  intros Hy. apply (moved_elem op l vs y H) in Hy as (w & Hw & Hwy).
  assert (w = v) by exact (NoDup_lookup_inj op w v y Hop Hwy Hvy). by subst.
Qed.

Lemma bits_apply_bits op n m :
  NoDup op → bits_apply op n = Some m →
  ∀ k, N.testbit m k = true ↔
       ∃ v, v < 8 ∧ op !! v = Some (N.to_nat k) ∧ N.testbit n (N.of_nat v) = true.
Proof.
  intros Hop. unfold bits_apply.
  destruct (mapM (λ v, op !! v) (bits_to_verts n)) as [vs|] eqn:Hvs; [|done].
  intros [= <-] k. apply mapM_Some in Hvs.
  rewrite verts_to_bits_testbit by (eapply moved_NoDup; [done|apply bits_to_verts_NoDup|done]).
  rewrite bool_decide_eq_true, (moved_elem op _ _ _ Hvs).
  split; intros (v & Hv & Hk); exists v.
  - apply bits_to_verts_spec in Hv as [? Hs]. by rewrite solid_in_testbit in Hs.
  - destruct Hk as [Hk Hs]. split; [|done].
    apply bits_to_verts_spec. by rewrite solid_in_testbit.
Qed.

(** When [bits_apply] fails, and what it returns. *)
Lemma bits_apply_spec (op : list nat) (n : N) :
  (bits_apply op n = None ↔
   ∃ v, v < 8 ∧ N.testbit n (N.of_nat v) = true ∧ length op ≤ v) ∧
  (length op = 8 → NoDup op →
   ∃ m, bits_apply op n = Some m ∧
     (∀ v a, v < 8 → op !! v = Some a →
             N.testbit m (N.of_nat a) = N.testbit n (N.of_nat v)) ∧
     (∀ k, N.testbit m k = true → N.to_nat k ∈ op)).
Proof.
  assert (Hnone : bits_apply op n = None ↔
            ∃ v, v < 8 ∧ N.testbit n (N.of_nat v) = true ∧ length op ≤ v).
  { unfold bits_apply.
    destruct (mapM (λ v, op !! v) (bits_to_verts n)) as [vs|] eqn:Hvs; cbn.
    - split; [done|]. intros (v & Hv & Hs & Hlen).
      apply mapM_Some in Hvs.
      assert (v ∈ bits_to_verts n) as Hin
        by (apply bits_to_verts_spec; by rewrite solid_in_testbit).
      apply list_elem_of_lookup in Hin as [i Hi].
      destruct (Forall2_lookup_l _ _ _ _ _ Hvs Hi) as (y & _ & Hy).
      apply lookup_lt_Some in Hy. lia.
    - split; [intros _|done].
      apply mapM_None in Hvs. apply Exists_exists in Hvs as (v & Hv & Hnone).
      apply bits_to_verts_spec in Hv as [Hv Hs]. rewrite solid_in_testbit in Hs.
      exists v. split; [done|]. split; [done|]. by apply lookup_ge_None. }
  split; [exact Hnone|]. intros Hlen Hop.
  destruct (bits_apply op n) as [m|] eqn:Hm.
  - exists m. split; [done|]. split.
    + intros v a Hv Ha. pose proof (bits_apply_bits op n m Hop Hm (N.of_nat a)) as Hk.
      rewrite Nat2N.id in Hk.
      destruct (N.testbit n (N.of_nat v)) eqn:E.
      * apply Hk. exists v. done.
      * apply not_true_iff_false. intros E'.
        apply Hk in E' as (w & _ & Hw & Hs).
        assert (w = v) by (by eapply NoDup_lookup_inj). subst. congruence.
    + intros k Hk. apply (bits_apply_bits op n m Hop Hm) in Hk as (v & _ & Hv & _).
      by eapply list_elem_of_lookup_2.
  - destruct Hnone as [Hnone _]. destruct (Hnone eq_refl) as (v & ? & _ & ?). lia.
Qed.

(** X4: [bits_apply(op, n)] moves the bit of vertex [v] to vertex
    [op[v]] when [op] lists eight distinct vertices; it fails (an
    IndexError), for any [op], exactly when [op] has no entry for some
    solid vertex of [n]. *)
Theorem bits_apply_moves_bits (op : list nat) (n : N) :
  (bits_apply op n = None ↔
   ∃ v, v < 8 ∧ N.testbit n (N.of_nat v) = true ∧ length op ≤ v) ∧
  (length op = 8 → NoDup op →
   ∃ m, bits_apply op n = Some m ∧
     (∀ v a, v < 8 → op !! v = Some a →
             N.testbit m (N.of_nat a) = N.testbit n (N.of_nat v)) ∧
     (∀ k, N.testbit m k = true → N.to_nat k ∈ op)).
Proof. exact (bits_apply_spec op n). Qed.

Lemma bits_apply_moves_bits_witness :
  ∃ m, bits_apply ROTATE_1 5 = Some m ∧ N.testbit m 1 = true ∧ N.testbit m 3 = true.
Proof.
  destruct (bits_apply_moves_bits ROTATE_1 5) as [_ H].
  destruct H as (m & Hm & Hmove & _); [reflexivity|by apply (bool_decide_unpack _)|].
  exists m. split; [exact Hm|]. split.
  - apply (Hmove 0 1); [lia|reflexivity].
  - apply (Hmove 2 3); [lia|reflexivity].
Defined.

(** *** [faces_apply] *)

(** What [test1] asserts of one entry: every edge of every triangle is
    an edge of the cube whose two ends differ in solidity. *)
Definition separated (bits : N) (fs : faces) : Prop :=
  ∀ face e, face ∈ fs → e ∈ face →
    ∃ v1 v2, EDGES !! e = Some (v1, v2) ∧ solid_in bits v1 ≠ solid_in bits v2.

Lemma test1_spec all :
  test1 all = true ↔ ∀ bits fs, all !! bits = Some fs → separated bits fs.
Proof.
  unfold test1. rewrite forallb_forall. split.
  - intros H bits fs Hl face e Hface He.
    specialize (H (bits, fs)). cbn in H.
    rewrite <- list_elem_of_In, elem_of_map_to_list in H. specialize (H Hl).
    rewrite forallb_forall in H. apply list_elem_of_In in Hface.
    specialize (H _ Hface). rewrite forallb_forall in H. apply list_elem_of_In in He.
    specialize (H _ He). cbn in H.
    destruct (EDGES !! e) as [[v1 v2]|]; [|done].
    exists v1, v2. split; [done|]. unfold solid_in.
    destruct (0 <? N.land (2 ^ N.of_nat v1) bits)%N, (0 <? N.land (2 ^ N.of_nat v2) bits)%N;
      done.
  - intros H [bits fs] Hin. apply list_elem_of_In, elem_of_map_to_list in Hin.
    specialize (H _ _ Hin). apply forallb_forall. intros face Hface.
    apply forallb_forall. intros e He.
    apply list_elem_of_In in Hface, He.
    destruct (H face e Hface He) as (v1 & v2 & -> & Hne). unfold solid_in in Hne.
    destruct (0 <? N.land (2 ^ N.of_nat v1) bits)%N, (0 <? N.land (2 ^ N.of_nat v2) bits)%N;
      done.
Qed.

(** The dict of edges by vertex set answers with an edge that has these
    two ends. *)
Definition names_its_ends (s : gset nat) (e : nat) : Prop :=
  match EDGES !! e with
  | Some (v1, v2) => s = {[ v1; v2 ]}
  | None => False
  end.

#[local] Instance names_its_ends_dec s e : Decision (names_its_ends s e).
Proof. unfold names_its_ends. destruct (EDGES !! e) as [[v1 v2]|]; apply _. Defined.

Lemma EDGES_BY_VERTSET_sound : map_Forall names_its_ends EDGES_BY_VERTSET.
Proof. apply (bool_decide_unpack _). vm_compute. exact I. Qed.

Lemma EDGES_below_8 e v1 v2 : EDGES !! e = Some (v1, v2) → v1 < 8 ∧ v2 < 8.
Proof.
  intros H. assert (Forall (λ vs : nat * nat, vs.1 < 8 ∧ vs.2 < 8) EDGES) as Hall.
  { apply (bool_decide_unpack _). vm_compute. exact I. }
  rewrite Forall_lookup in Hall. apply (Hall e (v1, v2) H).
Qed.

Lemma pair_set_eq (a b c d : nat) :
  ({[ a; b ]} : gset nat) = {[ c; d ]} → (a = c ∧ b = d) ∨ (a = d ∧ b = c).
Proof.
  intros H.
  assert (a ∈ ({[ c; d ]} : gset nat)) as Ha
    by (rewrite <- H; apply elem_of_union_l; by apply elem_of_singleton).
  assert (b ∈ ({[ c; d ]} : gset nat)) as Hb
    by (rewrite <- H; apply elem_of_union_r; by apply elem_of_singleton).
  assert (c ∈ ({[ a; b ]} : gset nat)) as Hc
    by (rewrite H; apply elem_of_union_l; by apply elem_of_singleton).
  assert (d ∈ ({[ a; b ]} : gset nat)) as Hd
    by (rewrite H; apply elem_of_union_r; by apply elem_of_singleton).
  rewrite elem_of_union, !elem_of_singleton in Ha, Hb, Hc, Hd.
  destruct Ha, Hb, Hc, Hd; subst; auto.
Qed.

Lemma edge_apply_ends op e e' :
  edge_apply op e = Some e' →
  ∃ v1 v2 a b, EDGES !! e = Some (v1, v2) ∧ op !! v1 = Some a ∧ op !! v2 = Some b ∧
    (EDGES !! e' = Some (a, b) ∨ EDGES !! e' = Some (b, a)).
Proof.
  unfold edge_apply. destruct (EDGES !! e) as [[v1 v2]|] eqn:HE; [|done]. cbn.
  destruct (op !! v1) as [a|] eqn:Ha; [|done]. cbn.
  destruct (op !! v2) as [b|] eqn:Hb; [|done]. cbn. intros H.
  pose proof (EDGES_BY_VERTSET_sound _ _ H) as Hs. unfold names_its_ends in Hs.
  exists v1, v2, a, b. repeat (split; [done|]).
  destruct (EDGES !! e') as [[c d]|]; [|done].
  apply pair_set_eq in Hs as [[-> ->]|[-> ->]]; [left|right]; reflexivity.
Qed.

Lemma faces_apply_keeps_separated op bits fs bits' fs' :
  length op = 8 → NoDup op →
  bits_apply op bits = Some bits' → faces_apply op fs = Some fs' →
  separated bits fs → separated bits' fs'.
Proof.
  intros Hlen Hop Hbits Hfs Hsep face' e' Hface' He'.
  unfold faces_apply in Hfs. apply mapM_Some in Hfs.
  apply list_elem_of_lookup in Hface' as [i Hi].
  destruct (Forall2_lookup_r _ _ _ _ _ Hfs Hi) as (face & Hface & Hmap).
  apply mapM_Some in Hmap.
  apply list_elem_of_lookup in He' as [j Hj].
  destruct (Forall2_lookup_r _ _ _ _ _ Hmap Hj) as (e & He & Hedge).
  apply edge_apply_ends in Hedge as (v1 & v2 & a & b & HE & Ha & Hb & HE').
  destruct (Hsep face e) as (w1 & w2 & HE2 & Hne).
  { by eapply list_elem_of_lookup_2. } { by eapply list_elem_of_lookup_2. }
  rewrite HE in HE2. injection HE2 as <- <-.
  destruct (EDGES_below_8 _ _ _ HE) as [Hv1 Hv2].
  destruct (bits_apply_spec op bits) as [_ Hmove].
  destruct (Hmove Hlen Hop) as (m & Hm & Hbit & _).
  rewrite Hbits in Hm. injection Hm as <-.
  assert (solid_in bits' a = solid_in bits v1) as Ea
    by (rewrite !solid_in_testbit; by apply Hbit).
  assert (solid_in bits' b = solid_in bits v2) as Eb
    by (rewrite !solid_in_testbit; by apply Hbit).
  destruct HE' as [HE'|HE']; [exists a, b|exists b, a]; (split; [done|]); congruence.
Qed.

Lemma low_bits_bound (m : N) :
  (∀ k, N.testbit m k = true → (k < 8)%N) → (m < 256)%N.
Proof.
  intros H. destruct (decide (m = 0%N)) as [->|Hm]; [done|].
  change 256%N with (2 ^ 8)%N. apply N.log2_lt_pow2; [lia|].
  apply H. by apply N.bit_log2.
Qed.

Definition symmetry_ops : list (list nat) := [ROTATE_1; ROTATE_2; ROTATE_3; REFLECT].

Lemma symmetry_ops_permute :
  Forall (λ op, length op = 8 ∧ NoDup op ∧ Forall (λ a, a < 8) op ∧
                Forall (λ e, is_Some (edge_apply op e)) (seq 0 12)) symmetry_ops.
Proof. apply (bool_decide_unpack _). vm_compute. exact I. Qed.

(** X5: each of the four operations carries an entry that passes the
    check of [test1] to one that passes it: [bits_apply] and
    [faces_apply] both succeed, and every edge of the moved triangles
    separates a solid from an empty vertex of the moved bitmask. *)
Theorem symmetry_keeps_separation (op : list nat) (bits : N) (fs : faces) :
  op ∈ symmetry_ops → separated bits fs →
  ∃ bits' fs', bits_apply op bits = Some bits' ∧ faces_apply op fs = Some fs' ∧
    separated bits' fs' ∧ (bits' < 256)%N.
Proof.
  intros Hin Hsep. pose proof symmetry_ops_permute as Hall.
  rewrite Forall_forall in Hall. destruct (Hall op Hin) as (Hlen & Hop & Hlt & Hedges).
  destruct (bits_apply_spec op bits) as [_ Hmove].
  destruct (Hmove Hlen Hop) as (bits' & Hbits & _ & Himage).
  assert (is_Some (faces_apply op fs)) as [fs' Hfs].
  { unfold faces_apply. apply mapM_is_Some, Forall_forall. intros face Hface. cbn.
    apply mapM_is_Some, Forall_forall. intros e He. cbn.
    destruct (Hsep face e Hface He) as (v1 & v2 & HE & _).
    apply lookup_lt_Some in HE. rewrite Forall_forall in Hedges. apply Hedges.
    apply elem_of_seq. cbn in HE. lia. }
  exists bits', fs'. split; [done|]. split; [done|]. split.
  - by eapply faces_apply_keeps_separated.
  - apply low_bits_bound. intros k Hk. apply Himage in Hk.
    rewrite Forall_forall in Hlt. apply Hlt in Hk. lia.
Qed.

Lemma symmetry_keeps_separation_witness :
  ∃ fs', faces_apply ROTATE_2 [[8; 0; 3]] = Some fs' ∧ separated 8 fs'.
Proof.
  destruct (symmetry_keeps_separation ROTATE_2 1 [[8; 0; 3]])
    as (bits' & fs' & Hbits & Hfs & Hsep & _).
  - apply (bool_decide_unpack _). vm_compute. exact I.
  - intros face e ->%list_elem_of_singleton He.
    apply list_elem_of_In in He. simpl in He.
    destruct He as [<-|[<-|[<-|[]]]]; eexists _, _; (split; [reflexivity|]);
      vm_compute; discriminate.
  - exists fs'. split; [exact Hfs|]. injection Hbits as <-. exact Hsep.
Defined.

(** *** The checks *)

(** X6: a table that passes [test1] passes [test2]: an edge whose ends
    differ in solidity has a solid end. *)
Theorem test1_implies_test2 (all : gmap N faces) :
  test1 all = true → test2 all = true.
Proof.
  rewrite test1_spec. intros H. unfold test2. apply forallb_forall.
  intros [bits fs] Hin. apply list_elem_of_In, elem_of_map_to_list in Hin.
  apply forallb_forall. intros face Hface. apply forallb_forall. intros e He.
  apply list_elem_of_In in Hface, He.
  destruct (H bits fs Hin face e Hface He) as (v1 & v2 & HE & Hne).
  destruct (EDGES_below_8 e v1 v2 HE) as [Hv1 Hv2]. rewrite HE.
  apply orb_true_iff.
  destruct (solid_in bits v1) eqn:E1.
  - left. apply bool_decide_eq_true_2, bits_to_verts_spec. done.
  - right. destruct (solid_in bits v2) eqn:E2; [|done].
    apply bool_decide_eq_true_2, bits_to_verts_spec. done.
Qed.

Lemma test1_implies_test2_witness : test2 ALL_CASES_initial = true.
Proof. apply test1_implies_test2. vm_compute. reflexivity. Defined.

Lemma one_power (b : N) :
  length (List.filter (λ v, bool_decide ((2 ^ N.of_nat v)%N = b)) (seq 0 8)) ≤ 1.
Proof.
  cbn. repeat case_bool_decide; simplify_eq; cbn; lia.
Qed.

Lemma filter_or_length {A} (p q : A → bool) l :
  length (List.filter (λ a, p a || q a) l)
  ≤ length (List.filter p l) + length (List.filter q l).
Proof.
  induction l as [|a l IH]; [done|]. cbn.
  destruct (p a), (q a); cbn; lia.
Qed.

Lemma powers_among_le_2 bits1 bits2 : powers_among bits1 bits2 ≤ 2.
Proof.
  unfold powers_among.
  pose proof (one_power bits1) as H1. pose proof (one_power bits2) as H2.
  pose proof (filter_or_length
    (λ v, bool_decide ((2 ^ N.of_nat v)%N = bits1))
    (λ v, bool_decide ((2 ^ N.of_nat v)%N = bits2)) (seq 0 8)) as Hor.
  erewrite List.filter_ext; [etransitivity; [exact Hor|lia]|].
  intros v. cbn beta.
  destruct (decide ((2 ^ N.of_nat v)%N = bits1)) as [E1|E1],
           (decide ((2 ^ N.of_nat v)%N = bits2)) as [E2|E2];
    rewrite ?(bool_decide_eq_true_2 _ E1), ?(bool_decide_eq_false_2 _ E1),
            ?(bool_decide_eq_true_2 _ E2), ?(bool_decide_eq_false_2 _ E2); cbn;
    [apply bool_decide_eq_true_2|apply bool_decide_eq_true_2
    |apply bool_decide_eq_true_2|apply bool_decide_eq_false_2];
    rewrite !elem_of_cons, elem_of_nil; tauto.
Qed.

(** X7: [test3] accepts every table.  Its guard counts the powers of two
    among the two bitmasks, which is at most 2 and never 4, so the
    comparison of the two entries is never reached. *)
Theorem test3_accepts_every_table (all : gmap N faces) : test3 all = true.
Proof.
  unfold test3. apply forallb_forall. intros [bits1 faces1] _.
  apply forallb_forall. intros [bits2 faces2] _.
  pose proof (powers_among_le_2 bits1 bits2) as Hle.
  destruct (Nat.eqb_spec (powers_among bits1 bits2) 4); [lia|done].
Qed.

End CaseGenHelpers.

(** ** The float range *)

Module FrangeFacts.
Import Frange.
#[local] Open Scope Q_scope.

(** [for i, v in enumerate(l, i): s = body(i, v, s)] over a list. *)
Fixpoint for_each {St : Type} (i : nat) (l : list Q)
    (body : nat → Q → St → option (result St)) (s : St) : option (result St) :=
  match l with
  | [] => Some (Ok s)
  | v :: l' =>
      match body i v s with
      | Some (Ok s') => for_each (S i) l' body s'
      | other => other
      end
  end.

(** A loop over a generator that stops is a loop over the list of what
    it yields. *)
Lemma for_frange_values {St} fuel i start stop step l
    (body : nat → Q → St → option (result St)) s :
  frange fuel start stop step = Some l →
  for_frange fuel i start stop step body s = for_each i l body s.
Proof.
  revert i start l s. induction fuel as [|fuel IH]; intros i start l s; cbn; [done|].
  destruct (Qlt_bool start stop); [|by intros [= <-]].
  destruct (frange fuel (start + step) stop step) as [l'|] eqn:Hl'; cbn; [|done].
  intros [= <-]. cbn. destruct (body i start s) as [[s'|e]|]; [|done|done].
  by apply IH.
Qed.

Lemma frange_more_fuel fuel fuel' start stop step l :
  frange fuel start stop step = Some l → (fuel <= fuel')%nat →
  frange fuel' start stop step = Some l.
Proof.
  revert fuel' start l. induction fuel as [|fuel IH]; intros fuel' start l; [done|].
  intros H Hle. destruct fuel' as [|fuel']; [lia|]. cbn in *.
  destruct (Qlt_bool start stop); [|done].
  destruct (frange fuel (start + step) stop step) as [l'|] eqn:Hl'; [|done].
  rewrite (IH fuel' _ l' Hl') by lia. done.
Qed.

(** What the generator yields starts at [start], and each value is the
    one before it plus [step]. *)
Lemma frange_consecutive fuel start stop step l :
  frange fuel start stop step = Some l →
  (∀ v, l !! 0%nat = Some v → v = start) ∧
  (∀ k v w, l !! k = Some v → l !! S k = Some w → w = v + step).
Proof.
  revert start l. induction fuel as [|fuel IH]; intros start l; [done|]. cbn.
  destruct (Qlt_bool start stop); [|intros [= <-]; split; intros *; by rewrite lookup_nil].
  destruct (frange fuel (start + step) stop step) as [l'|] eqn:Hl'; [|done].
  cbn. intros [= <-]. destruct (IH _ _ Hl') as [Hhead Hnext]. split.
  - cbn. by intros v [= <-].
  - intros [|k] v w; cbn.
    + intros [= <-] Hw. by apply Hhead.
    + apply Hnext.
Qed.

(** A loop whose body keeps an invariant and does not raise. *)
Lemma for_each_inv {St} (Inv : nat → St → Prop) i l
    (body : nat → Q → St → option (result St)) s :
  (∀ k v s, l !! k = Some v → Inv (i + k)%nat s →
            ∃ s', body (i + k)%nat v s = Some (Ok s') ∧ Inv (i + S k)%nat s') →
  Inv i s → ∃ s', for_each i l body s = Some (Ok s') ∧ Inv (i + length l)%nat s'.
Proof.
  revert i s. induction l as [|v l IH]; intros i s Hbody Hs; cbn.
  - rewrite Nat.add_0_r. eauto.
  - destruct (Hbody 0%nat v s) as (s' & Hrun & Hs'); [done|by rewrite Nat.add_0_r|].
    rewrite Nat.add_0_r in Hrun. rewrite Hrun.
    destruct (IH (S i) s') as (s'' & Hrun' & Hs'').
    + intros k w t Hw Ht.
      replace (S i + k)%nat with (i + S k)%nat in * by lia.
      replace (S i + S k)%nat with (i + S (S k))%nat by lia.
      by apply Hbody.
    + by replace (S i) with (i + 1)%nat by lia.
    + exists s''. split; [done|]. by replace (i + S (length l))%nat with (S i + length l)%nat by lia.
Qed.

Lemma frange_bounded (n : nat) start stop step :
  0 < step → stop - start <= inject_Z (Z.of_nat n) * step →
  ∃ l, (∀ fuel, (length l < fuel)%nat → frange fuel start stop step = Some l) ∧
       (∀ k v, l !! k = Some v → v == start + inject_Z (Z.of_nat k) * step ∧ v < stop) ∧
       stop <= start + inject_Z (Z.of_nat (length l)) * step.
Proof.
  intros Hstep. revert start. induction n as [|n IH]; intros start Hn.
  - exists []. split; [|split].
    + intros [|fuel] Hf; [cbn in Hf; lia|]. cbn.
      rewrite (proj2 (Qlt_bool_false start stop)); [done|].
      change (inject_Z (Z.of_nat 0)) with 0 in Hn. lra.
    + intros k v. by rewrite lookup_nil.
    + change (inject_Z (Z.of_nat (length []))) with 0.
      change (inject_Z (Z.of_nat 0)) with 0 in Hn. lra.
  - destruct (Qlt_bool start stop) eqn:Hlt.
    + destruct (IH (start + step)) as (l & Hrun & Hval & Hstop).
      { rewrite Nat2Z.inj_succ, <- Z.add_1_r, inject_Z_plus in Hn.
        change (inject_Z 1) with 1 in Hn. nra. }
      exists (start :: l). split; [|split].
      * intros [|fuel] Hf; [cbn in Hf; lia|]. cbn. rewrite Hlt.
        rewrite Hrun by (cbn in Hf; lia). done.
      * intros [|k] v; cbn.
        -- intros [= <-]. apply Qlt_bool_iff in Hlt. split; [|done].
           change (inject_Z (Z.of_nat 0)) with 0. ring.
        -- intros Hk. destruct (Hval k v Hk) as [Hv ?]. split; [|done].
           rewrite Hv. rewrite <- Nat.add_1_r, Nat2Z.inj_add, inject_Z_plus.
           change (inject_Z (Z.of_nat 1)) with 1. ring.
      * cbn [length]. rewrite Nat2Z.inj_succ, <- Z.add_1_r, inject_Z_plus.
        change (inject_Z 1) with 1. nra.
    + apply Qlt_bool_false in Hlt. exists []. split; [|split].
      * intros [|fuel] Hf; [cbn in Hf; lia|]. cbn.
        by rewrite (proj2 (Qlt_bool_false start stop)).
      * intros k v. by rewrite lookup_nil.
      * change (inject_Z (Z.of_nat (length []))) with 0. lra.
Qed.

(** The values of a run with a positive step. *)
Lemma frange_values (start stop step : Q) :
  0 < step →
  ∃ l, (∀ fuel, (length l < fuel)%nat → frange fuel start stop step = Some l) ∧
       (∀ k v, l !! k = Some v → v == start + inject_Z (Z.of_nat k) * step ∧ v < stop) ∧
       stop <= start + inject_Z (Z.of_nat (length l)) * step.
Proof.
  intros Hstep.
  apply (frange_bounded (Z.to_nat (Qceiling ((stop - start) / step)))); [done|].
  destruct (Qlt_le_dec (stop - start) 0) as [Hneg|Hpos].
  - apply Qle_trans with 0; [lra|]. apply Qmult_le_0_compat; [|lra].
    change 0 with (inject_Z 0). rewrite <- Zle_Qle. lia.
  - rewrite Z2Nat.id.
    + apply Qle_trans with ((stop - start) / step * step); [field_simplify; lra|].
      apply Qmult_le_compat_r; [apply Qle_ceiling|lra].
    + apply (Qceiling_resp_le 0). apply Qle_shift_div_l; lra.
Qed.



(** X2: with a step that is not positive and [start < stop] the
    generator never stops: no bound is enough for the list of what it
    yields, nor for a loop over it whose body does not raise. *)
Theorem frange_never_stops (start stop step : Q) :
  step <= 0 → start < stop →
  ∀ fuel, frange fuel start stop step = None ∧
    ∀ St (body : nat → Q → St → option (result St)) i s,
      (∀ i v s, ∃ s', body i v s = Some (Ok s')) →
      for_frange fuel i start stop step body s = None.
Proof.
  intros Hstep Hlt fuel. revert start Hlt.
  induction fuel as [|fuel IH]; intros start Hlt; [done|].
  destruct (IH (start + step)) as [IH1 IH2]; [lra|].
  cbn. rewrite (proj2 (Qlt_bool_iff start stop) Hlt). split.
  - by rewrite IH1.
  - intros St body i s Hbody. destruct (Hbody i start s) as [s' ->]. by apply IH2.
Qed.

Lemma frange_never_stops_witness : frange 1000 0 1 0 = None.
Proof. apply (frange_never_stops 0 1 0); reflexivity || (intros ?; discriminate). Defined.

End FrangeFacts.

(** ** Marching squares with properties: where the vertices are put *)

Module CellFacts2D.
#[local] Open Scope Q_scope.
Import MarchingCubes2DProp MarchingCubes2DGrid PaintFacts.

(** The module's [adapt] on two samples of which one is positive. *)
Lemma adapt_unit v0 v1 a :
  adapt v0 v1 = Ok a → a = (0 - v0) / (v1 - v0) * 1 ∧ 0 <= a <= 1.
Proof.
  unfold adapt. destruct (negb _) eqn:Hg; [|done]. cbn. intros [= <-]. split; [done|].
  apply AdaptFacts.one_positive_guard in Hg.
  pose proof (AdaptFacts.root_in_unit _ _ Hg) as Hroot.
  unfold CELL_SIZE. rewrite Qmult_1_r. exact Hroot.
Qed.

Section WithProperty.
Context {P : Type} `{EqDecision P}.
Variable f : Q → Q → Q.
Variable f_property : Q → Q → P.
Variables x y : Q.

Definition in_cell (v : V2) : Prop :=
  x <= V2_x v <= x + CELL_SIZE ∧ y <= V2_y v <= y + CELL_SIZE.

(** The point at offset [a] from corner [c0] on the cell edge towards
    [c1]. *)
Definition along (c0 c1 : corner) (a : Q) : option V2 :=
  match c0, c1 with
  | x0y0, x1y0 => Some (on_bottom x y a)
  | x0y0, x0y1 => Some (on_left x y a)
  | x0y1, x1y1 => Some (on_top x y a)
  | x1y0, x1y1 => Some (on_right x y a)
  | _, _ => None
  end.

(** What a branch computes for one end: the offset is the one [adapt]
    returns for the two samples, it lies in [[0, 1]], and the vertex is
    [v] at that offset. *)
Definition placed (c0 c1 : corner) (v : Q → V2) (e : @boundary_vertex P) : Prop :=
  bv_first e = c0 ∧ bv_second e = c1 ∧ bv_v e = v (bv_a e) ∧ 0 <= bv_a e <= 1 ∧
  adapt (sample f x y c0) (sample f x y c1) = Ok (bv_a e).

Lemma end_of_placed c0 c1 v lo hi e :
  end_of f f_property x y c0 c1 v lo hi = Ok e → placed c0 c1 v e.
Proof.
  unfold end_of, placed.
  destruct (adapt (sample f x y c0) (sample f x y c1)) as [a|] eqn:Ha; [|done].
  cbn. intros [= <-]. cbn. pose proof (adapt_unit _ _ _ Ha) as [_ Hu]. done.
Qed.

Definition sides : list (Q → V2) :=
  [on_bottom x y; on_left x y; on_top x y; on_right x y].

Lemma placed_side c0 c1 v e :
  placed c0 c1 v e → v ∈ sides →
  0 <= bv_a e <= 1 ∧ ∃ side, side ∈ sides ∧ bv_v e = side (bv_a e).
Proof. intros (_ & _ & Hv & Ha & _) Hin. split; [done|]. by exists v. Qed.

Lemma placed_along c0 c1 v e :
  placed c0 c1 v e → (∀ a, along c0 c1 a = Some (v a)) →
  along (bv_first e) (bv_second e) (bv_a e) = Some (bv_v e).
Proof. intros (-> & -> & -> & _) Hv. apply Hv. Qed.

Lemma placed_same_offset c0 c1 v v' e e' :
  placed c0 c1 v e → placed c0 c1 v' e' → bv_a e = bv_a e'.
Proof. intros (_ & _ & _ & _ & Ha) (_ & _ & _ & _ & Ha'). congruence. Qed.

Lemma on_side_in_cell a :
  0 <= a <= 1 →
  in_cell (on_bottom x y a) ∧ in_cell (on_left x y a) ∧
  in_cell (on_top x y a) ∧ in_cell (on_right x y a).
Proof. unfold in_cell, on_bottom, on_left, on_top, on_right, CELL_SIZE. cbn. lra. Qed.

Lemma split_edge_in_cell (v1 v2 : V2) (p1 p2 : P) :
  in_cell v1 → in_cell v2 →
  Forall (λ e : Edge, in_cell (MarchingCubes2DProp.v1 e) ∧ in_cell (MarchingCubes2DProp.v2 e))
         (split_edge v1 v2 p1 p2) ∧
  (1 <= length (split_edge v1 v2 p1 p2) <= 2)%nat.
Proof.
  intros H1 H2. unfold split_edge. destruct (decide (p1 = p2)); cbn.
  - split; [|lia]. apply Forall_cons_2; [done|apply Forall_nil_2].
  - split; [|lia].
    assert (in_cell (mk_V2 ((V2_x v1 + V2_x v2) / 2) ((V2_y v1 + V2_y v2) / 2))) as Hm.
    { unfold in_cell, CELL_SIZE in *. cbn [V2_x V2_y].
      unfold Qdiv. change (/ 2) with (1 # 2). lra. }
    repeat (apply Forall_cons_2; [done|]). apply Forall_nil_2.
Qed.

Ltac run_end :=
  match goal with
  | |- context [end_of f f_property x y ?c0 ?c1 ?v ?lo ?hi] =>
      let e := fresh "e" in let He := fresh "He" in
      destruct (end_of_returns f f_property x y c0 c1 v lo hi) as [e He];
      [ congruence
      | rewrite He; apply end_of_placed in He; cbn [mbind result_bind] ]
  end.

(** The segments of a cell, by case: none in cases 0 and 15, two in the
    saddle cases 6 and 9, one otherwise; each end sits on a side of the
    cell, at the offset of its [adapt] call. *)
Lemma cell_ends_placed :
  ∃ ends, cell_ends f f_property x y = Ok ends ∧
    length ends = (match case_of f x y with
                   | 0 | 15 => 0 | 6 | 9 => 2 | _ => 1 end)%nat ∧
    Forall (λ e, 0 <= bv_a e <= 1 ∧
                 ∃ side, side ∈ sides ∧ bv_v e = side (bv_a e))
           (all_ends ends) ∧
    (case_of f x y ≠ 9%nat →
     Forall (λ e, along (bv_first e) (bv_second e) (bv_a e) = Some (bv_v e))
            (all_ends ends)) ∧
    (case_of f x y = 9%nat →
     ∃ e1 e2 e3 e4, ends = [(e1, e2); (e3, e4)] ∧
       placed x0y0 x0y1 (on_bottom x y) e1 ∧ placed x0y0 x0y1 (on_left x y) e2 ∧
       bv_a e1 = bv_a e2).
Proof.
  unfold cell_ends, case_of.
  destruct (Qlt_bool 0 (sample f x y x0y0)) eqn:E00,
           (Qlt_bool 0 (sample f x y x0y1)) eqn:E01,
           (Qlt_bool 0 (sample f x y x1y0)) eqn:E10,
           (Qlt_bool 0 (sample f x y x1y1)) eqn:E11;
    cbn [Nat.add]; repeat run_end;
    (eexists; split; [reflexivity|]); (split; [reflexivity|]); unfold all_ends; cbn;
    ((split; [|split]);
    [ repeat (apply Forall_cons_2;
              [eapply placed_side; [eassumption|unfold sides; set_solver]|]);
      apply Forall_nil_2
    | first [ intros Hne; by destruct Hne
            | intros _;
              repeat (apply Forall_cons_2;
                      [eapply placed_along; [eassumption|intros a; reflexivity]|]);
              apply Forall_nil_2 ]
    | first [ intros _; eexists _, _, _, _; split; [reflexivity|];
              split; [eassumption|]; split; [eassumption|];
              eapply placed_same_offset; eassumption
            | intros [=] ] ]).
Qed.

Lemma split_ends_in_cell (ends : list (@boundary_vertex P * boundary_vertex)) :
  Forall (λ e, in_cell (bv_v e)) (all_ends ends) →
  Forall (λ e : Edge, in_cell (v1 e) ∧ in_cell (v2 e))
         (ends ≫= λ e12, split_edge (bv_v e12.1) (bv_v e12.2) (bv_p e12.1) (bv_p e12.2)) ∧
  (length ends <= length (ends ≫= λ e12,
      split_edge (bv_v e12.1) (bv_v e12.2) (bv_p e12.1) (bv_p e12.2))
   <= 2 * length ends)%nat.
Proof.
  induction ends as [|[e1 e2] ends IH]; cbn.
  - intros _. split; [constructor|lia].
  - unfold all_ends. cbn. intros H.
    apply Forall_cons in H as [H1 H]. apply Forall_cons in H as [H2 H].
    destruct (IH H) as [IH1 IH2].
    destruct (split_edge_in_cell (bv_v e1) (bv_v e2) (bv_p e1) (bv_p e2) H1 H2)
      as [Hs Hl].
    split; [by apply Forall_app|]. rewrite length_app. lia.
Qed.

End WithProperty.

Section Cells.
Context {P : Type} `{EqDecision P}.

(** The edges of one cell. *)
Lemma single_cell_2d_spec (f : Q → Q → Q) (f_property : Q → Q → P) (x y : Q) :
  ∃ edges, marching_cubes_2d_single_cell f f_property x y = Ok edges ∧
    Forall (λ e : Edge, in_cell x y (v1 e) ∧ in_cell x y (v2 e)) edges ∧
    match case_of f x y with
    | 0%nat | 15%nat => edges = []
    | 6%nat | 9%nat => (2 <= length edges <= 4)%nat
    | _ => (1 <= length edges <= 2)%nat
    end.
Proof.
  destruct (cell_ends_placed f f_property x y) as (ends & Hends & Hlen & Hside & _).
  unfold marching_cubes_2d_single_cell. rewrite Hends. cbn [mbind result_bind].
  eexists. split; [reflexivity|].
  destruct (split_ends_in_cell x y ends) as [Hin Hcount].
  { eapply Forall_impl; [exact Hside|]. intros e (Ha & side & Hs & ->).
    destruct (on_side_in_cell x y (bv_a e) Ha) as (? & ? & ? & ?).
    unfold sides in Hs.
    repeat (apply elem_of_cons in Hs as [->|Hs]; [done|]). by apply elem_of_nil in Hs. }
  split; [exact Hin|].
  destruct (case_of f x y) as [|[|[|[|[|[|[|[|[|[|[|[|[|[|[|[|n]]]]]]]]]]]]]]]];
    cbn in Hlen; first [lia | destruct ends; [done|cbn in Hlen; lia]].
Qed.

(** X8: a cell is processed without an exception, and every vertex of
    every edge it returns lies in the closed cell; cases 0 and 15 give no
    edge, the saddle cases 6 and 9 two to four, the other cases one or
    two. *)
Theorem single_cell_edges_in_cell (f : Q → Q → Q) (f_property : Q → Q → P) (x y : Q) :
  ∃ edges, marching_cubes_2d_single_cell f f_property x y = Ok edges ∧
    Forall (λ e : Edge, in_cell x y (v1 e) ∧ in_cell x y (v2 e)) edges ∧
    match case_of f x y with
    | 0%nat | 15%nat => edges = []
    | 6%nat | 9%nat => (2 <= length edges <= 4)%nat
    | _ => (1 <= length edges <= 2)%nat
    end.
Proof. exact (single_cell_2d_spec f f_property x y). Qed.

(** X9: in every case but case 9, each vertex lies on the side of the
    cell that joins the two corners its [adapt] call sampled, at the
    offset the call returned.  In case 9 the vertex on the bottom side is
    put at the offset of the left side: its [adapt] call samples [x0y0]
    and [x0y1]. *)
Theorem vertex_on_sampled_side (f : Q → Q → Q) (f_property : Q → Q → P) (x y : Q) :
  ∃ ends, cell_ends f f_property x y = Ok ends ∧
    (case_of f x y ≠ 9%nat →
     ∀ e, e ∈ all_ends ends →
       along x y (bv_first e) (bv_second e) (bv_a e) = Some (bv_v e)) ∧
    (case_of f x y = 9%nat →
     ∃ e1 e2 e3 e4 a, ends = [(e1, e2); (e3, e4)] ∧
       adapt (sample f x y x0y0) (sample f x y x0y1) = Ok a ∧
       bv_v e1 = on_bottom x y a ∧ bv_v e2 = on_left x y a).
Proof.
  destruct (cell_ends_placed f f_property x y) as (ends & Hends & _ & _ & Hne & H9).
  exists ends. split; [done|]. split.
  - intros Hcase e He. specialize (Hne Hcase). rewrite Forall_forall in Hne. by apply Hne.
  - intros Hcase. destruct (H9 Hcase) as (e1 & e2 & e3 & e4 & -> & H1 & H2 & Ha).
    exists e1, e2, e3, e4, (bv_a e2). split; [done|].
    destruct H1 as (_ & _ & Hv1 & _), H2 as (_ & _ & Hv2 & _ & Hadapt).
    rewrite Hv1, Hv2, Ha. done.
Qed.

Definition in_grid (v : V2) : Prop :=
  XMIN <= V2_x v <= XMAX ∧ YMIN <= V2_y v <= YMAX.

Definition cell_origins : list Q := [-3; -2; -1; 0; 1; 2].

Lemma frange_grid fuel :
  (7 <= fuel)%nat → Frange.frange fuel XMIN XMAX CELL_SIZE = Some cell_origins.
Proof. apply FrangeFacts.frange_more_fuel. reflexivity. Qed.

Lemma cell_origins_in_grid k v :
  cell_origins !! k = Some v → -3 <= v ∧ v + 1 <= 3.
Proof.
  intros Hk. assert (Forall (λ v, -3 <= v ∧ v + 1 <= 3) cell_origins) as Hall.
  { unfold cell_origins. repeat (apply Forall_cons_2; [lra|]). apply Forall_nil_2. }
  rewrite Forall_lookup in Hall. by eapply Hall.
Qed.

(** X10: the grid is processed without an exception once the bound
    covers the six cells of a row; the edges are those of the 36 cells,
    at most four each, and every vertex lies in the square from
    (XMIN, YMIN) to (XMAX, YMAX). *)
Theorem marching_cubes_2d_in_grid (f : Q → Q → Q) (f_property : Q → Q → P) (fuel : nat) :
  (7 <= fuel)%nat →
  ∃ edges, marching_cubes_2d f f_property fuel = Some (Ok edges) ∧
    Forall (λ e : Edge, in_grid (v1 e) ∧ in_grid (v2 e)) edges ∧
    (length edges <= 144)%nat.
Proof.
  intros Hfuel. unfold marching_cubes_2d.
  rewrite (FrangeFacts.for_frange_values _ _ _ _ _ _ _ _ (frange_grid fuel Hfuel)).
  set (Inv := λ (n : nat) (edges : list (@Edge P)),
         Forall (λ e : Edge, in_grid (v1 e) ∧ in_grid (v2 e)) edges ∧
         (length edges <= 4 * n)%nat).
  destruct (FrangeFacts.for_each_inv (λ ix, Inv (6 * ix)%nat) 0 cell_origins
              (λ _ x edges,
                 Frange.for_frange fuel 0 YMIN YMAX CELL_SIZE (λ _ y edges,
                   Some (cell ← marching_cubes_2d_single_cell f f_property x y;
                         Ok (edges ++ cell))) edges) [])
    as (edges & Hrun & Hall & Hlen).
  - intros ix x edges Hx Hedges. cbn [Nat.add] in *.
    rewrite (FrangeFacts.for_frange_values _ _ _ _ _ _ _ _ (frange_grid fuel Hfuel)).
    destruct (FrangeFacts.for_each_inv (λ iy, Inv (6 * ix + iy)%nat) 0 cell_origins
                (λ _ y edges,
                   Some (cell ← marching_cubes_2d_single_cell f f_property x y;
                         Ok (edges ++ cell))) edges)
      as (edges' & Hrun & Hinv).
    + intros iy y es Hy [Hes Hn]. cbn [Nat.add] in *.
      destruct (single_cell_2d_spec f f_property x y) as (cell & -> & Hcell & Hcase).
      cbn. eexists. split; [reflexivity|]. split.
      * apply Forall_app. split; [done|].
        eapply Forall_impl; [exact Hcell|]. intros e [H1 H2].
        apply cell_origins_in_grid in Hx, Hy.
        unfold in_cell, in_grid, XMIN, XMAX, YMIN, YMAX, CELL_SIZE in *. lra.
      * rewrite length_app.
        assert (length cell <= 4)%nat.
        { destruct (case_of f x y) as [|[|[|[|[|[|[|[|[|[|[|[|[|[|[|[|n]]]]]]]]]]]]]]]];
            first [lia | subst; cbn; lia]. }
        lia.
    + by rewrite Nat.add_0_r.
    + exists edges'. split; [done|]. cbn [length cell_origins Nat.add] in Hinv.
      by replace (6 * S ix)%nat with (6 * ix + 6)%nat by lia.
  - split; [constructor|cbn; lia].
  - exists edges. split; [done|]. split; [done|]. cbn in Hlen. lia.
Qed.

End Cells.

Lemma marching_cubes_2d_in_grid_witness :
  ∃ edges, marching_cubes_2d example_f example_property_function 7 = Some (Ok edges) ∧
    (length edges <= 144)%nat.
Proof.
  destruct (marching_cubes_2d_in_grid example_f example_property_function 7)
    as (edges & Hrun & _ & Hlen); [lia|].
  exists edges. split; [exact Hrun|exact Hlen].
Defined.

End CellFacts2D.

(** ** Meshes, and Marching Cubes on a cell and on the grid *)

Module MeshFacts.
Import Utils3D.

(** Every index of the face names a vertex of the mesh: OBJ indices
    start at 1. *)
Definition face_indices (fc : face) : list nat :=
  match fc with
  | Tri v1 v2 v3 => [v1; v2; v3]
  | Quad v1 v2 v3 v4 => [v1; v2; v3; v4]
  end.

Definition indices_valid (m : Mesh) : Prop :=
  Forall (λ fc, Forall (λ i, 1 ≤ i ≤ length (verts m)) (face_indices fc)) (faces m).

Lemma face_indices_map g fc : face_indices (face_map g fc) = g <$> face_indices fc.
Proof. by destruct fc. Qed.

Lemma face_map_compose g h fc : face_map g (face_map h fc) = face_map (g ∘ h) fc.
Proof. by destruct fc. Qed.

Lemma face_map_id fc : face_map (λ v, v + 0) fc = fc.
Proof. destruct fc; cbn; by rewrite !Nat.add_0_r. Qed.

Lemma extend_valid a b :
  indices_valid a → indices_valid b → indices_valid (extend a b).
Proof.
  unfold indices_valid, extend. cbn. intros Ha Hb. rewrite length_app.
  apply Forall_app. split.
  - eapply Forall_impl; [exact Ha|]. intros fc Hfc.
    eapply Forall_impl; [exact Hfc|]. cbn. lia.
  - apply Forall_fmap. eapply Forall_impl; [exact Hb|]. intros fc Hfc. cbn.
    rewrite face_indices_map. apply Forall_fmap.
    eapply Forall_impl; [exact Hfc|]. cbn. lia.
Qed.

Lemma extend_empty_l m : extend Mesh_empty m = m.
Proof.
  unfold extend, Mesh_empty. cbn. destruct m as [vs fs]. cbn. f_equal.
  induction fs as [|fc fs IH]; [done|]. cbn. by rewrite face_map_id, IH.
Qed.

Lemma Mesh_add_extend a b : Mesh_add a b = extend a b.
Proof. unfold Mesh_add. by rewrite extend_empty_l. Qed.

Lemma extend_assoc a b c : extend (extend a b) c = extend a (extend b c).
Proof.
  unfold extend. cbn. rewrite !length_app, <- !app_assoc, fmap_app. do 3 f_equal.
  rewrite <- list_fmap_compose. apply list_fmap_ext. intros _ fc _. cbn.
  rewrite face_map_compose. destruct fc; cbn; f_equal; lia.
Qed.

(** X11: mesh addition concatenates the vertices and shifts the second
    mesh's face indices by the number of vertices of the first, so it keeps
    indices valid, it is associative, and the empty mesh is a unit on
    either side. *)
Theorem Mesh_add_monoid (a b c : Mesh) :
  verts (Mesh_add a b) = verts a ++ verts b ∧
  faces (Mesh_add a b) = faces a ++ (face_map (λ v, v + length (verts a)) <$> faces b) ∧
  (indices_valid a → indices_valid b → indices_valid (Mesh_add a b)) ∧
  Mesh_add (Mesh_add a b) c = Mesh_add a (Mesh_add b c) ∧
  Mesh_add Mesh_empty a = a ∧ Mesh_add a Mesh_empty = a.
Proof.
  rewrite !Mesh_add_extend. split; [done|]. split; [done|].
  split; [apply extend_valid|]. split; [apply extend_assoc|].
  split; [apply extend_empty_l|].
  unfold extend, Mesh_empty. destruct a as [vs fs]. cbn. by rewrite !app_nil_r.
Qed.

End MeshFacts.

Module CubeCellFacts.
Import MarchingCubes3D Utils3D Qef MarchingCubes3DCell MeshFacts CaseTable.
#[local] Open Scope Q_scope.

Lemma adapt_in_range cfg v0 v1 a :
  Common.adapt cfg v0 v1 = Ok a → 0 <= CELL_SIZE cfg → 0 <= a <= CELL_SIZE cfg.
Proof.
  unfold Common.adapt. destruct (negb _) eqn:Hg; [|done]. cbn.
  apply AdaptFacts.one_positive_guard in Hg.
  pose proof (AdaptFacts.root_in_unit _ _ Hg) as [Hlo Hhi].
  set (t := (0 - v0) / (v1 - v0)) in *. set (c := CELL_SIZE cfg).
  destruct (ADAPTIVE cfg); intros [= <-] Hc.
  - split; [apply Qmult_le_0_compat; lra|].
    apply Qle_trans with (1 * c); [apply Qmult_le_compat_r; lra | lra].
  - lra.
Qed.

Lemma coordinate_on_edge (x a c : Q) (p0 p1 : nat) :
  (p0 = 0 ∨ p0 = 1)%nat → (p1 = 0 ∨ p1 = 1)%nat → 0 < c → 0 <= a <= c →
  x + num p0 * (c - a) + num p1 * (c - (c - a))
  == (x + num p0 * c) + a / c * ((x + num p1 * c) - (x + num p0 * c)) ∧
  x <= x + num p0 * (c - a) + num p1 * (c - (c - a)) <= x + c.
Proof.
  intros [-> | ->] [-> | ->] Hc Ha;
    change (num 0) with 0; change (num 1) with 1;
    (split; [field; lra|lra]).
Qed.

Section WithSettings.
Variable cfg : settings.
Variable f : Q → Q → Q → Q.
Variables x y z : Q.
Let c := CELL_SIZE cfg.

(** The bitmask of the cell has bit [v] set exactly when the sample at
    corner [v] is positive. *)
Lemma case_solid :
  ∃ bits, case cfg f x y z = Ok bits ∧ (bits < 256)%nat ∧
    ∀ v fv, f_eval cfg f x y z !! v = Some fv → solid bits v = Qlt_bool 0 fv.
Proof.
  unfold case, f_eval, VERTICES. cbn.
  repeat match goal with
         | |- context [Qlt_bool 0 ?q] =>
             lazymatch q with
             | f _ _ _ => let E := fresh "E" in destruct (Qlt_bool 0 q) eqn:E
             end
         end;
    cbn; (eexists; split; [reflexivity|]); (split; [lia|]);
    intros [|[|[|[|[|[|[|[|v]]]]]]]] fv; cbn; intros [= <-]; try done; symmetry; assumption.
Qed.

(** The corner of the cell at the table position [p]. *)
Definition corner_pos (p : nat * nat * nat) : V3 :=
  mk_V3 (x + num p.1.1 * c) (y + num p.1.2 * c) (z + num p.2 * c).

(** [V] lies on the segment between the two corners of cube edge [e],
    at the fraction [t] of the way from the first. *)
Definition on_cube_edge (e : nat) (t : Q) (V : V3) : Prop :=
  ∃ v0 v1 p0 p1,
    EDGES !! e = Some (v0, v1) ∧ VERTICES !! v0 = Some p0 ∧ VERTICES !! v1 = Some p1 ∧
    0 <= t <= 1 ∧
    V3_x V == V3_x (corner_pos p0) + t * (V3_x (corner_pos p1) - V3_x (corner_pos p0)) ∧
    V3_y V == V3_y (corner_pos p0) + t * (V3_y (corner_pos p1) - V3_y (corner_pos p0)) ∧
    V3_z V == V3_z (corner_pos p0) + t * (V3_z (corner_pos p1) - V3_z (corner_pos p0)).

Lemma edge_vertex bits e :
  case cfg f x y z = Ok bits → separates bits e →
  ∃ f0 f1 a V,
    (∃ v0 v1, EDGES !! e = Some (v0, v1) ∧
       f_eval cfg f x y z !! v0 = Some f0 ∧ f_eval cfg f x y z !! v1 = Some f1) ∧
    Common.adapt cfg f0 f1 = Ok a ∧
    edge_to_boundary_vertex cfg f x y z e = Ok V ∧
    (0 < c → on_cube_edge e (a / c) V ∧ QefFacts.in_cell_3d cfg x y z V).
Proof.
  intros Hcase Hsep. destruct case_solid as (bits' & Hcase' & _ & Hsolid).
  rewrite Hcase in Hcase'. injection Hcase' as <-.
  unfold separates in Hsep. destruct (EDGES !! e) as [[v0 v1]|] eqn:HE; [|done].
  cbn in Hsep.
  assert (∃ f0 f1 p0 p1, f_eval cfg f x y z !! v0 = Some f0 ∧
            f_eval cfg f x y z !! v1 = Some f1 ∧
            VERTICES !! v0 = Some p0 ∧ VERTICES !! v1 = Some p1 ∧
            Forall (λ n, n = 0 ∨ n = 1)%nat
                   [p0.1.1; p0.1.2; p0.2; p1.1.1; p1.1.2; p1.2])
    as (f0 & f1 & p0 & p1 & Hf0 & Hf1 & Hp0 & Hp1 & H01).
  { destruct e as [|[|[|[|[|[|[|[|[|[|[|[|e]]]]]]]]]]]]; cbn in HE; try done;
      injection HE as <- <-; eexists _, _, _, _;
      repeat (split; [reflexivity|]);
      repeat first [apply Forall_cons_2 | apply Forall_nil_2 | cbn; lia]. }
  rewrite (Hsolid _ _ Hf0), (Hsolid _ _ Hf1) in Hsep.
  destruct (Common.adapt cfg f0 f1) as [a|err] eqn:Ha.
  2:{ exfalso. unfold Common.adapt in Ha.
      destruct (Qlt_bool 0 f0), (Qlt_bool 0 f1); try done;
        cbn in Ha; by destruct (ADAPTIVE cfg). }
  exists f0, f1, a. eexists. split; [by exists v0, v1|]. split; [done|].
  unfold edge_to_boundary_vertex, getitem. rewrite HE. cbn -[f_eval VERTICES num].
  rewrite Hf0, Hf1. cbn -[f_eval VERTICES num].
  rewrite Ha. cbn -[f_eval VERTICES num]. rewrite Hp0, Hp1. cbn -[f_eval VERTICES num].
  split; [reflexivity|].
  intros Hc. pose proof (adapt_in_range cfg f0 f1 a Ha) as Hrange.
  fold c in Hrange |- *. specialize (Hrange ltac:(lra)).
  destruct p0 as [[p0x p0y] p0z], p1 as [[p1x p1y] p1z]. cbn in H01.
  repeat match goal with
         | H : Forall _ (_ :: _) |- _ =>
             let H1 := fresh "Hp" in apply Forall_cons in H as [H1 H]
         end.
  destruct (coordinate_on_edge x a c p0x p1x) as [Ex Hx]; try done.
  destruct (coordinate_on_edge y a c p0y p1y) as [Ey Hy]; try done.
  destruct (coordinate_on_edge z a c p0z p1z) as [Ez Hz]; try done.
  split.
  - exists v0, v1, (p0x, p0y, p0z), (p1x, p1y, p1z).
    repeat (split; [done|]). split.
    + split; [apply Qle_shift_div_l; lra|apply Qle_shift_div_r; lra].
    + done.
  - done.
Qed.

(** The triangles of [k] consecutive vertex triples after the first [n]
    vertices. *)
Definition tris_from (n k : nat) : list face :=
  (λ j, Tri (n + 3 * j + 1) (n + 3 * j + 1 + 1) (n + 3 * j + 1 + 2))%nat <$> seq 0 k.

Lemma tris_from_S n k :
  tris_from n (S k) = Tri (n + 1) (n + 1 + 1) (n + 1 + 2) :: tris_from (n + 3) k.
Proof.
  unfold tris_from. cbn. rewrite Nat.add_0_r. f_equal.
  rewrite <- fmap_S_seq, <- list_fmap_compose. apply list_fmap_ext.
  intros _ j _. cbn. f_equal; lia.
Qed.

Lemma emit_spec bits (Good : V3 → Prop) faces ov ot :
  Forall (λ tri, length tri = 3%nat ∧ Forall (separates bits) tri) faces →
  (∀ e, separates bits e →
        ∃ V, edge_to_boundary_vertex cfg f x y z e = Ok V ∧ Good V) →
  ∃ vs, emit cfg f x y z faces ov ot
        = Ok (ov ++ vs, ot ++ tris_from (length ov) (length faces)) ∧
        length vs = (3 * length faces)%nat ∧ Forall Good vs.
Proof.
  intros Hfaces Hedge. revert ov ot.
  induction Hfaces as [|tri faces [Hlen Hsep] _ IH]; intros ov ot; cbn -[tris_from].
  - exists []. rewrite !app_nil_r. split; [done|]. split; [done|constructor].
  - destruct tri as [|e1 [|e2 [|e3 [|]]]]; try done.
    apply Forall_cons in Hsep as [H1 Hsep]. apply Forall_cons in Hsep as [H2 Hsep].
    apply Forall_cons in Hsep as [H3 _].
    destruct (Hedge e1 H1) as (V1 & E1 & G1), (Hedge e2 H2) as (V2 & E2 & G2),
             (Hedge e3 H3) as (V3 & E3 & G3).
    cbn -[tris_from]. rewrite E1, E2, E3. cbn -[tris_from].
    destruct (IH (ov ++ [V1; V2; V3]) (ot ++ [Tri (length ov + 1) (length ov + 1 + 1)
                                                  (length ov + 1 + 2)]))
      as (vs & Hrun & Hvs & Hgood).
    rewrite Hrun. exists ([V1; V2; V3] ++ vs). split; [|split].
    + rewrite tris_from_S, <- !app_assoc, length_app. done.
    + rewrite length_app, Hvs. cbn. lia.
    + apply Forall_app. split; [|done]. by repeat (apply Forall_cons_2; [done|]).
Qed.

Lemma tris_from_valid n k (vs : list V3) :
  length vs = (n + 3 * k)%nat →
  Forall (λ fc, Forall (λ i, 1 ≤ i ≤ length vs) (face_indices fc)) (tris_from n k).
Proof.
  intros Hlen. unfold tris_from. apply Forall_fmap, Forall_forall.
  intros j Hj%elem_of_seq. cbn. repeat (apply Forall_cons_2; [lia|]). apply Forall_nil_2.
Qed.

Lemma case_entry bits :
  case cfg f x y z = Ok bits →
  ∃ tris, cases !! bits = Some tris ∧
    Forall (λ tri, length tri = 3%nat ∧ Forall (separates bits) tri) tris.
Proof.
  intros Hcase. destruct case_solid as (bits' & Hcase' & Hlt & _).
  rewrite Hcase in Hcase'. injection Hcase' as <-.
  destruct (lookup_lt_is_Some_2 cases bits) as [tris Htris]; [done|].
  exists tris. split; [done|].
  pose proof all_entries_ok as Hall. rewrite Forall_forall in Hall.
  apply (Hall _ (cases_numbered _ _ Htris)).
Qed.

(** What a cell returns, given what holds of every vertex it puts on a
    separating edge. *)
Lemma single_cell_spec (Good : V3 → Prop) :
  (∀ bits e, case cfg f x y z = Ok bits → separates bits e →
        ∃ V, edge_to_boundary_vertex cfg f x y z e = Ok V ∧ Good V) →
  ∃ bits tris mesh,
    case cfg f x y z = Ok bits ∧ cases !! bits = Some tris ∧
    Forall (λ tri, length tri = 3%nat ∧ Forall (separates bits) tri) tris ∧
    marching_cubes_3d_single_cell cfg f x y z = Ok mesh ∧
    length (verts mesh) = (3 * length tris)%nat ∧
    faces mesh = tris_from 0 (length tris) ∧
    Forall Good (verts mesh).
Proof.
  intros Hgood. destruct case_solid as (bits & Hcase & _).
  destruct (case_entry bits Hcase) as (tris & Htris & Hok).
  destruct (emit_spec bits Good tris [] [] Hok (λ e, Hgood bits e Hcase))
    as (vs & Hrun & Hlen & Hvs).
  exists bits, tris, (mk_Mesh vs (tris_from 0 (length tris))).
  unfold marching_cubes_3d_single_cell, getitem. rewrite Hcase. cbn.
  rewrite Htris. cbn. rewrite Hrun. cbn. done.
Qed.

End WithSettings.

(** The mesh of one cell. *)
Lemma single_cell_3d_spec (cfg : settings) (f : Q → Q → Q → Q) (x y z : Q) :
  ∃ bits tris mesh,
    case cfg f x y z = Ok bits ∧ cases !! bits = Some tris ∧
    marching_cubes_3d_single_cell cfg f x y z = Ok mesh ∧
    length (verts mesh) = (3 * length tris)%nat ∧
    faces mesh = tris_from 0 (length tris) ∧
    indices_valid mesh ∧
    ((∀ v w fv fw, f_eval cfg f x y z !! v = Some fv → f_eval cfg f x y z !! w = Some fw →
                   Qlt_bool 0 fv = Qlt_bool 0 fw) → mesh = Mesh_empty).
Proof.
  destruct (single_cell_spec cfg f x y z (λ _, True))
    as (bits & tris & mesh & Hcase & Htris & Hok & Hrun & Hlen & Hfaces & _).
  { intros bits e Hcase Hsep.
    destruct (edge_vertex cfg f x y z bits e Hcase Hsep) as (_ & _ & _ & V & _ & _ & HV & _).
    by exists V. }
  exists bits, tris, mesh. repeat (split; [done|]). split.
  - unfold indices_valid. rewrite Hfaces. apply tris_from_valid. by rewrite Hlen.
  - intros Hsame. destruct tris as [|tri tris].
    + destruct mesh as [vs fs]. cbn in *. subst fs.
      destruct vs; [done|cbn in Hlen; lia].
    + exfalso. apply Forall_cons in Hok as [[Hl Hsep] _].
      destruct tri as [|e tri]; [done|]. apply Forall_cons in Hsep as [Hsep _].
      destruct (edge_vertex cfg f x y z bits e Hcase Hsep)
        as (f0 & f1 & a & _ & (v0 & v1 & HE & Hf0 & Hf1) & Ha & _).
      specialize (Hsame _ _ _ _ Hf0 Hf1).
      unfold Common.adapt in Ha. rewrite Hsame in Ha.
      by destruct (Qlt_bool 0 f1).
Qed.

(** X12: a cell is processed without an exception, whatever the field:
    the table names only edges whose ends differ in sign, so the assertion
    of [adapt] holds at every call.  The mesh has three vertices per
    triangle of the cell's table entry, triangle [j] is made of the
    vertices [3j+1], [3j+2], [3j+3], and a cell whose corners all have the
    same sign gives the empty mesh. *)
Theorem single_cell_mesh (cfg : settings) (f : Q → Q → Q → Q) (x y z : Q) :
  ∃ bits tris mesh,
    case cfg f x y z = Ok bits ∧ cases !! bits = Some tris ∧
    marching_cubes_3d_single_cell cfg f x y z = Ok mesh ∧
    length (verts mesh) = (3 * length tris)%nat ∧
    faces mesh = tris_from 0 (length tris) ∧
    indices_valid mesh ∧
    ((∀ v w fv fw, f_eval cfg f x y z !! v = Some fv → f_eval cfg f x y z !! w = Some fw →
                   Qlt_bool 0 fv = Qlt_bool 0 fw) → mesh = Mesh_empty).
Proof. exact (single_cell_3d_spec cfg f x y z). Qed.

(** X13: for a positive cell size every vertex of the cell's mesh lies on
    an edge of the cube, between its two corners, at the fraction
    [adapt(f0, f1) / CELL_SIZE] of the way from the first corner, where
    [f0] and [f1] are the samples at the two corners; so it lies in the
    cell. *)
Theorem single_cell_vertices_on_edges (cfg : settings) (f : Q → Q → Q → Q) (x y z : Q) :
  0 < CELL_SIZE cfg →
  ∃ mesh, marching_cubes_3d_single_cell cfg f x y z = Ok mesh ∧
    ∀ V, V ∈ verts mesh →
      QefFacts.in_cell_3d cfg x y z V ∧
      ∃ e v0 v1 f0 f1 a,
        EDGES !! e = Some (v0, v1) ∧
        f_eval cfg f x y z !! v0 = Some f0 ∧ f_eval cfg f x y z !! v1 = Some f1 ∧
        Common.adapt cfg f0 f1 = Ok a ∧
        on_cube_edge cfg x y z e (a / CELL_SIZE cfg) V.
Proof.
  intros Hc.
  destruct (single_cell_spec cfg f x y z (λ V,
      QefFacts.in_cell_3d cfg x y z V ∧
      ∃ e v0 v1 f0 f1 a,
        EDGES !! e = Some (v0, v1) ∧
        f_eval cfg f x y z !! v0 = Some f0 ∧ f_eval cfg f x y z !! v1 = Some f1 ∧
        Common.adapt cfg f0 f1 = Ok a ∧
        on_cube_edge cfg x y z e (a / CELL_SIZE cfg) V))
    as (bits & tris & mesh & _ & _ & _ & Hrun & _ & _ & Hgood).
  { intros bits e Hcase Hsep.
    destruct (edge_vertex cfg f x y z bits e Hcase Hsep)
      as (f0 & f1 & a & V & (v0 & v1 & HE & Hf0 & Hf1) & Ha & HV & Hon).
    destruct (Hon Hc) as [Hedge Hcell].
    exists V. split; [done|]. split; [done|]. by exists e, v0, v1, f0, f1, a. }
  exists mesh. split; [done|]. rewrite Forall_forall in Hgood. exact Hgood.
Qed.

(** *** The grid *)

Lemma tris_from_app n k k' :
  tris_from n (k + k') = tris_from n k ++ tris_from (n + 3 * k) k'.
Proof.
  unfold tris_from. rewrite seq_app, fmap_app. f_equal. cbn [Nat.add].
  assert (seq k k' = Nat.add k <$> seq 0 k') as ->
    by (rewrite fmap_add_seq; f_equal; lia).
  rewrite <- list_fmap_compose. apply list_fmap_ext.
  intros _ j _. cbn. f_equal; lia.
Qed.

Lemma tris_from_shift l k :
  face_map (λ v, v + l)%nat <$> tris_from 0 k = tris_from l k.
Proof.
  unfold tris_from. rewrite <- list_fmap_compose. apply list_fmap_ext.
  intros _ j _. cbn. f_equal; lia.
Qed.

(** A mesh of consecutive triangles. *)
Definition triangle_soup (m : Mesh) : Prop :=
  ∃ k, faces m = tris_from 0 k ∧ length (verts m) = (3 * k)%nat.

Lemma triangle_soup_extend m cell :
  triangle_soup m → triangle_soup cell → triangle_soup (extend m cell).
Proof.
  intros (k & Hf & Hv) (k' & Hf' & Hv'). exists (k + k')%nat. unfold extend. cbn. split.
  - rewrite Hf, Hf', tris_from_shift, tris_from_app, Hv. done.
  - rewrite length_app. lia.
Qed.

Lemma triangle_soup_valid m : triangle_soup m → indices_valid m.
Proof.
  intros (k & Hf & Hv). unfold indices_valid. rewrite Hf. by apply tris_from_valid.
Qed.



Lemma single_cell_vertices_on_edges_witness :
  ∃ mesh, marching_cubes_3d_single_cell defaults (λ x y z, x + y + z - 1) 0 0 0 = Ok mesh ∧
    ∀ V, V ∈ verts mesh → QefFacts.in_cell_3d defaults 0 0 0 V.
Proof.
  destruct (single_cell_vertices_on_edges defaults (λ x y z, x + y + z - 1) 0 0 0)
    as (mesh & Hrun & HV); [reflexivity|].
  exists mesh. split; [exact Hrun|]. intros V Hin. exact (proj1 (HV V Hin)).
Defined.

End CubeCellFacts.

(** ** Dual Contouring on the grid *)

Module DualContourGridFacts.
Import Qef QefFacts DualContour DualContourFacts DualContourGrid Frange FrangeFacts.
Import Utils3D MeshFacts.
#[local] Open Scope Q_scope.

(** The field is a function of numbers: its sign does not depend on how
    a rational is written. *)
Definition sign_respects_2d (f : Q → Q → Q) : Prop :=
  ∀ x x' y y', x == x' → y == y' → Qlt_bool 0 (f x y) = Qlt_bool 0 (f x' y').

Definition sign_respects_3d (f : Q → Q → Q → Q) : Prop :=
  ∀ x x' y y' z z', x == x' → y == y' → z == z' →
    Qlt_bool 0 (f x y z) = Qlt_bool 0 (f x' y' z').

(** *** Loops that visit every cell

    [Inv] holds of the state throughout; [Keep s s'] relates a state to a
    later one; [Done k v s] is what the pass for entry [k] establishes,
    and later passes keep. *)
Section Cover.
Context {St : Type} (Inv : St → Prop) (Keep : St → St → Prop).
Hypothesis Keep_refl : ∀ s, Keep s s.
Hypothesis Keep_trans : ∀ s1 s2 s3, Keep s1 s2 → Keep s2 s3 → Keep s1 s3.

Lemma for_each_cover (Done : nat → Q → St → Prop) l
    (body : nat → Q → St → option (result St)) s :
  (∀ k v s s', Keep s s' → Done k v s → Done k v s') →
  (∀ k v s, l !! k = Some v → Inv s →
     ∃ s', body k v s = Some (Ok s') ∧ Inv s' ∧ Done k v s' ∧ Keep s s') →
  Inv s →
  ∃ s', for_each 0 l body s = Some (Ok s') ∧ Inv s' ∧
        (∀ k v, l !! k = Some v → Done k v s') ∧ Keep s s'.
Proof.
  intros Hmono Hbody Hs.
  destruct (for_each_inv
    (λ n s', Inv s' ∧ (∀ k v, (k < n)%nat → l !! k = Some v → Done k v s') ∧ Keep s s')
    0 l body s) as (s' & Hrun & Hinv & Hdone & Hkeep).
  - intros k v t Hk (Ht & Hdone & Hkeep). cbn [Nat.add].
    destruct (Hbody k v t Hk Ht) as (t' & Hrun & Ht' & Hnew & Hstep).
    exists t'. split; [done|]. split; [done|]. split.
    + intros k' v' Hlt Hk'. destruct (decide (k' = k)) as [->|Hne].
      * rewrite Hk in Hk'. by injection Hk' as <-.
      * eapply Hmono; [exact Hstep|]. apply Hdone; [lia|done].
    + by eapply Keep_trans.
  - split; [done|]. split; [intros; lia|done].
  - exists s'. split; [done|]. split; [done|]. split; [|done].
    intros k v Hk. apply Hdone; [|done]. apply lookup_lt_Some in Hk. cbn. lia.
Qed.

Lemma for_frange_cover fuel start stop step l (Done : nat → Q → St → Prop)
    (body : nat → Q → St → option (result St)) s :
  frange fuel start stop step = Some l →
  (∀ k v s s', Keep s s' → Done k v s → Done k v s') →
  (∀ k v s, l !! k = Some v → Inv s →
     ∃ s', body k v s = Some (Ok s') ∧ Inv s' ∧ Done k v s' ∧ Keep s s') →
  Inv s →
  ∃ s', for_frange fuel 0 start stop step body s = Some (Ok s') ∧ Inv s' ∧
        (∀ k v, l !! k = Some v → Done k v s') ∧ Keep s s'.
Proof.
  intros Hl. rewrite (for_frange_values _ _ _ _ _ _ body s Hl). apply for_each_cover.
Qed.

End Cover.

(** *** Sign changes around a cube

    The signs at the eight corners decide which of the twelve edges
    change sign; the edges are listed in the order of [cell_edges_3d]. *)
Definition signs (e : Q * Q) : bool * bool := (Qlt_bool 0 e.1, Qlt_bool 0 e.2).

Definition changes (p : bool * bool) : bool := negb (eqb p.1 p.2).

Definition cube_signs (b000 b001 b010 b011 b100 b101 b110 b111 : bool)
  : list (bool * bool) :=
  [ (b000, b001); (b010, b011); (b100, b101); (b110, b111);
    (b000, b010); (b001, b011); (b100, b110); (b101, b111);
    (b000, b100); (b001, b101); (b010, b110); (b011, b111) ].

Definition parity_check (edges : list (bool * bool)) : bool :=
  forallb (λ p, implb (changes p) (2 <=? length (List.filter changes edges))%nat) edges.

Lemma cube_parity b000 b001 b010 b011 b100 b101 b110 b111 :
  parity_check (cube_signs b000 b001 b010 b011 b100 b101 b110 b111) = true.
Proof. destruct b000, b001, b010, b011, b100, b101, b110, b111; reflexivity. Qed.

Lemma count_signs (edges : list (Q * Q)) :
  length (List.filter differ edges) = length (List.filter changes (signs <$> edges)).
Proof.
  induction edges as [|e edges IH]; [done|]. cbn.
  change (changes (signs e)) with (differ e). destruct (differ e); cbn; lia.
Qed.

Section WithSolver.
Variable cfg : settings.
Variable lstsq : matrix → vec → result (vec * vec).
Let c := CELL_SIZE cfg.

(** *** 2D *)

Section Grid2D.
Variable f : Q → Q → Q.
Variable f_normal : Q → Q → V2.
Variables xmin xmax ymin ymax : Q.

(** A cell with a sign change on one edge has one on another: around
    the four corners the sign changes an even number of times. *)
Lemma cell_edge_change_2d x y e :
  e ∈ cell_edges_2d cfg f x y → differ e = true →
  (2 <= sign_changes_2d cfg f x y)%nat.
Proof.
  unfold sign_changes_2d, cell_edges_2d, count_changes. cbn zeta.
  set (x0y0 := f (x + 0.0) (y + 0.0)). set (x0y1 := f (x + 0.0) (y + CELL_SIZE cfg)).
  set (x1y0 := f (x + CELL_SIZE cfg) (y + 0.0)).
  set (x1y1 := f (x + CELL_SIZE cfg) (y + CELL_SIZE cfg)).
  intros He Hd. unfold differ in *. cbn [List.filter fst snd].
  repeat (apply elem_of_cons in He as [->|He]); [..|by apply elem_of_nil in He];
    cbn [fst snd] in Hd;
    destruct (Qlt_bool 0 x0y0), (Qlt_bool 0 x0y1), (Qlt_bool 0 x1y0), (Qlt_bool 0 x1y1);
    cbn in *; first [lia | done].
Qed.

Definition needs_vertex_2d (x y : Q) : Prop :=
  ADAPTIVE cfg = false ∨ (2 <= sign_changes_2d cfg f x y)%nat.

(** What the dict of vertices holds for the cell at [(x, y)]. *)
Definition has_vertex_2d (x y : Q) (r : option V2) : Prop :=
  needs_vertex_2d x y →
  ∃ v, r = Some v ∧ (BOUNDARY cfg = true → in_cell_2d cfg x y v).

Hypothesis Htotal : solver_total lstsq.
Hypothesis Hc : 0 < c.
Hypothesis Hclip : CLIP cfg = false.
Hypothesis Hf : sign_respects_2d f.

Lemma placer_2d x y h :
  ∃ h' r, dual_contour_2d_find_best_vertex cfg lstsq f f_normal x y h = (h', Ok r) ∧
          has_vertex_2d x y r.
Proof.
  destruct (find_best_vertex_2d cfg lstsq f f_normal x y h) as [Hoff Hon].
  destruct (ADAPTIVE cfg) eqn:Had.
  - destruct (Hon eq_refl) as (h' & r & Hrun & Hnone & Hsome).
    destruct (decide (sign_changes_2d cfg f x y < 2)%nat) as [Hlt|Hge].
    + pose proof Hlt as Hlt'. apply Hnone in Hlt as ->. exists h', None. split; [done|].
      intros [Hn|Hn]; [congruence|lia].
    + destruct Hsome as (v & -> & Hin); [done|unfold c in Hc; lra|done|lia|].
      exists h', (Some v). split; [done|]. intros _. by exists v.
  - eexists _, _. split; [by apply Hoff|]. intros _. eexists. split; [done|].
    intros _. unfold in_cell_2d. cbn. fold c. lra.
Qed.

Variable fuel : nat.
Variables lx ly : list Q.
Hypothesis Hlx : frange fuel xmin xmax c = Some lx.
Hypothesis Hly : frange fuel ymin ymax c = Some ly.

(** The dict has, for every cell of the grid, what the placer returned
    for it. *)
Definition covered_2d (i : nat) (x : Q) (j : nat) (y : Q)
    (verts : gmap (Z * Z) (option V2)) : Prop :=
  lx !! i = Some x → ly !! j = Some y →
  ∃ r, verts !! (Z.of_nat i, Z.of_nat j) = Some r ∧ has_vertex_2d x y r.

Lemma place_2d_covers h :
  ∃ h' verts, place_2d cfg lstsq f f_normal xmin xmax ymin ymax fuel h
              = Some (Ok (h', verts)) ∧
    ∀ i x j y, covered_2d i x j y verts.
Proof.
  unfold place_2d. fold c.
  set (Keep := λ s s' : heap * gmap (Z * Z) (option V2),
         ∀ i x j y, covered_2d i x j y s.2 → covered_2d i x j y s'.2).
  assert (Hrefl : ∀ s, Keep s s) by (by intros s i x j y).
  assert (Htrans : ∀ s1 s2 s3, Keep s1 s2 → Keep s2 s3 → Keep s1 s3).
  { intros s1 s2 s3 H12 H23 i x j y H. by apply H23, H12. }
  destruct (for_frange_cover (λ _, True) Keep Hrefl Htrans fuel xmin xmax c lx
              (λ i x s, ∀ j y, covered_2d i x j y s.2)
              (λ ix x st,
                 for_frange fuel 0 ymin ymax c (λ iy y st,
                   run (dual_contour_2d_find_best_vertex cfg lstsq f f_normal x y) st.1
                       (λ v h', (h', <[ (Z.of_nat ix, Z.of_nat iy) := v ]> st.2))) st)
              (h, ∅) Hlx)
    as ([h' verts] & Hrun & _ & Hdone & _).
  - intros i x s s' Hk Hd j y. by apply Hk.
  - intros ix x s Hx _.
    destruct (for_frange_cover (λ _, True) Keep Hrefl Htrans fuel ymin ymax c ly
                (λ j y s, covered_2d ix x j y s.2)
                (λ iy y st,
                   run (dual_contour_2d_find_best_vertex cfg lstsq f f_normal x y) st.1
                       (λ v h', (h', <[ (Z.of_nat ix, Z.of_nat iy) := v ]> st.2)))
                s Hly)
      as (s' & Hrun & _ & Hdone & Hkeep);
      [..|exists s'; split; [done|]; split; [done|]; split; [|done];
          intros j y Hi Hj; by apply (Hdone j y Hj)].
    + intros j y t t' Hk Hd. by apply Hk.
    + intros iy y [ht vt] Hy _. cbn [fst snd].
      destruct (placer_2d x y ht) as (h' & r & Hrun & Hr).
      unfold run. rewrite Hrun. eexists. split; [reflexivity|]. split; [done|].
      cbn [snd]. split.
      * intros _ _. exists r. split; [apply lookup_insert_eq|done].
      * intros i x' j y' Hold Hi Hj. cbn [snd] in *.
        destruct (decide ((Z.of_nat i, Z.of_nat j) = (Z.of_nat ix, Z.of_nat iy)))
          as [[= Ei%Nat2Z.inj Ej%Nat2Z.inj]|Hne].
        -- subst. rewrite Hx in Hi. rewrite Hy in Hj. injection Hi as <-.
           injection Hj as <-. exists r. split; [apply lookup_insert_eq|done].
        -- rewrite lookup_insert_ne by done. by apply Hold.
    + done.
  - done.
  - exists h', verts. split; [done|]. intros i x j y Hi Hj. by apply (Hdone i x Hi j y).
Qed.

(** An edge of the output joins the vertices of two cells that are
    neighbours along x or along y; neither end is [None]. *)
Definition joins_2d (e : Edge) : Prop :=
  ∃ a b x y x' y',
    ((v1 e = Some a ∧ v2 e = Some b) ∨ (v1 e = Some b ∧ v2 e = Some a)) ∧
    ((x' = x + c ∧ y' = y) ∨ (x' = x ∧ y' = y + c)) ∧
    (BOUNDARY cfg = true → in_cell_2d cfg x y a ∧ in_cell_2d cfg x' y' b).

Lemma joins_swap a b x y x' y' flag :
  ((x' = x + c ∧ y' = y) ∨ (x' = x ∧ y' = y + c)) →
  (BOUNDARY cfg = true → in_cell_2d cfg x y a ∧ in_cell_2d cfg x' y' b) →
  joins_2d (Edge_swap (mk_Edge (Some a) (Some b)) flag).
Proof.
  intros Hadj Hin. exists a, b, x, y, x', y'. split; [|done].
  destruct flag; cbn; auto.
Qed.

Lemma neighbours_have_vertices verts x y x' y' i j i' j' :
  (∀ i x j y, covered_2d i x j y verts) →
  lx !! i = Some x → ly !! j = Some y → lx !! i' = Some x' → ly !! j' = Some y' →
  needs_vertex_2d x y → needs_vertex_2d x' y' →
  ∃ a b, verts !! (Z.of_nat i, Z.of_nat j) = Some (Some a) ∧
         verts !! (Z.of_nat i', Z.of_nat j') = Some (Some b) ∧
         (BOUNDARY cfg = true → in_cell_2d cfg x y a ∧ in_cell_2d cfg x' y' b).
Proof.
  intros Hcov Hi Hj Hi' Hj' Hn Hn'.
  destruct (Hcov i x j y Hi Hj) as (r & Hr & Hv).
  destruct (Hcov i' x' j' y' Hi' Hj') as (r' & Hr' & Hv').
  destruct (Hv Hn) as (a & -> & Ha), (Hv' Hn') as (b & -> & Hb).
  exists a, b. auto.
Qed.

Lemma edge_needs_vertex x y e e' :
  e ∈ cell_edges_2d cfg f x y →
  Qlt_bool 0 e.1 = Qlt_bool 0 e'.1 → Qlt_bool 0 e.2 = Qlt_bool 0 e'.2 →
  differ e' = true → needs_vertex_2d x y.
Proof.
  intros He H1 H2 Hd. right. apply (cell_edge_change_2d x y e He).
  unfold differ in *. by rewrite H1, H2.
Qed.

Lemma previous_cell (l : list Q) start stop k v :
  frange fuel start stop c = Some l → l !! S k = Some v →
  ∃ v', l !! k = Some v' ∧ v = v' + c.
Proof.
  intros Hl Hv. destruct (lookup_lt_is_Some_2 l k) as [v' Hv'].
  { apply lookup_lt_Some in Hv. lia. }
  exists v'. split; [done|].
  destruct (frange_consecutive _ _ _ _ _ Hl) as [_ Hnext]. by eapply Hnext.
Qed.

Lemma vertical_2d_joins verts edges :
  (∀ i x j y, covered_2d i x j y verts) → Forall joins_2d edges →
  ∃ edges', vertical_2d cfg f xmin xmax ymin ymax fuel verts edges = Some (Ok edges') ∧
            Forall joins_2d edges'.
Proof.
  intros Hcov Hedges. unfold vertical_2d. fold c.
  rewrite (for_frange_values _ _ _ _ _ _ _ _ Hlx).
  destruct (for_each_inv (λ _, Forall joins_2d) 0 lx
    (λ ix x edges,
       if (ix =? 0)%nat then Some (Ok edges)
       else for_frange fuel 0 ymin ymax c (λ iy y edges,
         let y0 := y in let y1 := y + c in
         let y0_solid := Qlt_bool 0 (f x y0) in
         let y1_solid := Qlt_bool 0 (f x y1) in
         if negb (eqb y0_solid y1_solid) then
           Some (a ← dict_get verts (Z.of_nat ix - 1, Z.of_nat iy)%Z;
                 b ← dict_get verts (Z.of_nat ix, Z.of_nat iy);
                 Ok (edges ++ [Edge_swap (mk_Edge a b) y0_solid]))
         else Some (Ok edges)) edges) edges) as (edges' & Hrun & Hall);
    [|done|by exists edges'].
  intros ix x es Hx Hes. cbn [Nat.add]. destruct ix as [|ix]; cbn [Nat.eqb]; [eauto|].
  destruct (previous_cell lx xmin xmax ix x Hlx Hx) as (x' & Hx' & ->).
  rewrite (for_frange_values _ _ _ _ _ _ _ _ Hly).
  apply (for_each_inv (λ _, Forall joins_2d)); [|done].
  intros iy y es' Hy Hes'. cbn [Nat.add]. cbn zeta.
  destruct (negb (eqb (Qlt_bool 0 (f (x' + c) y)) (Qlt_bool 0 (f (x' + c) (y + c)))))
    eqn:Hd; [|eauto].
  destruct (neighbours_have_vertices verts x' y (x' + c) y ix iy (S ix) iy)
    as (a & b & Ha & Hb & Hin); try done.
  - apply (edge_needs_vertex x' y
             (f (x' + CELL_SIZE cfg) (y + 0.0), f (x' + CELL_SIZE cfg) (y + CELL_SIZE cfg))
             (f (x' + c) y, f (x' + c) (y + c))); [| | |done].
    + unfold cell_edges_2d. cbn zeta. set_solver.
    + apply Hf; [reflexivity|ring].
    + reflexivity.
  - apply (edge_needs_vertex (x' + c) y
             (f (x' + c + 0.0) (y + 0.0), f (x' + c + 0.0) (y + CELL_SIZE cfg))
             (f (x' + c) y, f (x' + c) (y + c))); [| | |done].
    + unfold cell_edges_2d. cbn zeta. set_solver.
    + apply Hf; ring.
    + apply Hf; [ring|reflexivity].
  - unfold dict_get. replace (Z.of_nat (S ix) - 1)%Z with (Z.of_nat ix) by lia.
    rewrite Ha, Hb. cbn. eexists. split; [reflexivity|].
    apply Forall_app. split; [done|]. apply Forall_cons_2; [|apply Forall_nil_2].
    apply (joins_swap a b x' y (x' + c) y); auto.
Qed.

Lemma horizontal_2d_joins verts edges :
  (∀ i x j y, covered_2d i x j y verts) → Forall joins_2d edges →
  ∃ edges', horizontal_2d cfg f xmin xmax ymin ymax fuel verts edges = Some (Ok edges') ∧
            Forall joins_2d edges'.
Proof.
  intros Hcov Hedges. unfold horizontal_2d. fold c.
  rewrite (for_frange_values _ _ _ _ _ _ _ _ Hly).
  destruct (for_each_inv (λ _, Forall joins_2d) 0 ly
    (λ iy y edges,
       if (iy =? 0)%nat then Some (Ok edges)
       else for_frange fuel 0 xmin xmax c (λ ix x edges,
         let x0 := x in let x1 := x + c in
         let x0_solid := Qlt_bool 0 (f x0 y) in
         let x1_solid := Qlt_bool 0 (f x1 y) in
         if negb (eqb x0_solid x1_solid) then
           Some (a ← dict_get verts (Z.of_nat ix, Z.of_nat iy - 1)%Z;
                 b ← dict_get verts (Z.of_nat ix, Z.of_nat iy);
                 Ok (edges ++ [Edge_swap (mk_Edge a b) x0_solid]))
         else Some (Ok edges)) edges) edges) as (edges' & Hrun & Hall);
    [|done|by exists edges'].
  intros iy y es Hy Hes. cbn [Nat.add]. destruct iy as [|iy]; cbn [Nat.eqb]; [eauto|].
  destruct (previous_cell ly ymin ymax iy y Hly Hy) as (y' & Hy' & ->).
  rewrite (for_frange_values _ _ _ _ _ _ _ _ Hlx).
  apply (for_each_inv (λ _, Forall joins_2d)); [|done].
  intros ix x es' Hx Hes'. cbn [Nat.add]. cbn zeta.
  destruct (negb (eqb (Qlt_bool 0 (f x (y' + c))) (Qlt_bool 0 (f (x + c) (y' + c)))))
    eqn:Hd; [|eauto].
  destruct (neighbours_have_vertices verts x y' x (y' + c) ix iy ix (S iy))
    as (a & b & Ha & Hb & Hin); try done.
  - apply (edge_needs_vertex x y'
             (f (x + 0.0) (y' + CELL_SIZE cfg), f (x + CELL_SIZE cfg) (y' + CELL_SIZE cfg))
             (f x (y' + c), f (x + c) (y' + c))); [| | |done].
    + unfold cell_edges_2d. cbn zeta. set_solver.
    + apply Hf; [ring|reflexivity].
    + reflexivity.
  - apply (edge_needs_vertex x (y' + c)
             (f (x + 0.0) (y' + c + 0.0), f (x + CELL_SIZE cfg) (y' + c + 0.0))
             (f x (y' + c), f (x + c) (y' + c))); [| | |done].
    + unfold cell_edges_2d. cbn zeta. set_solver.
    + apply Hf; ring.
    + apply Hf; [reflexivity|ring].
  - unfold dict_get. replace (Z.of_nat (S iy) - 1)%Z with (Z.of_nat iy) by lia.
    rewrite Ha, Hb. cbn. eexists. split; [reflexivity|].
    apply Forall_app. split; [done|]. apply Forall_cons_2; [|apply Forall_nil_2].
    apply (joins_swap a b x y' x (y' + c)); auto.
Qed.

End Grid2D.


(** *** 3D *)

Section Grid3D.
Variable f : Q → Q → Q → Q.
Variable f_normal : Q → Q → Q → V3.
Variables xmin xmax ymin ymax zmin zmax : Q.

(** A cell with a sign change on one edge has one on another. *)
Lemma cell_edge_change_3d x y z e :
  e ∈ cell_edges_3d cfg f x y z → differ e = true →
  (2 <= sign_changes_3d cfg f x y z)%nat.
Proof.
  intros He Hd. unfold sign_changes_3d, count_changes.
  rewrite (count_signs (cell_edges_3d cfg f x y z)).
  apply (list_elem_of_fmap_2 signs) in He.
  unfold cell_edges_3d in *. cbn [fmap list_fmap] in *.
  set (v := v_ cfg f x y z) in *.
  pose proof (cube_parity (Qlt_bool 0 (v 0 0 0)) (Qlt_bool 0 (v 0 0 1))
                (Qlt_bool 0 (v 0 1 0)) (Qlt_bool 0 (v 0 1 1))
                (Qlt_bool 0 (v 1 0 0)) (Qlt_bool 0 (v 1 0 1))
                (Qlt_bool 0 (v 1 1 0)) (Qlt_bool 0 (v 1 1 1))) as Hpar.
  unfold parity_check in Hpar. rewrite forallb_forall in Hpar.
  apply list_elem_of_In, Hpar in He.
  change (changes (signs e)) with (differ e) in He. rewrite Hd in He.
  cbn [implb] in He. by apply Nat.leb_le in He.
Qed.

Variable fuel : nat.
Variables lx ly lz : list Q.
Hypothesis Hlx : frange fuel xmin xmax c = Some lx.
Hypothesis Hly : frange fuel ymin ymax c = Some ly.
Hypothesis Hlz : frange fuel zmin zmax c = Some lz.

(** The three nested loops visit every cell. *)
Lemma for_cells_cover {St} (Inv : St → Prop) (Keep : St → St → Prop)
    (P : nat → Q → nat → Q → nat → Q → St → Prop)
    (body : nat → Q → nat → Q → nat → Q → St → option (result St)) s :
  (∀ s, Keep s s) → (∀ s1 s2 s3, Keep s1 s2 → Keep s2 s3 → Keep s1 s3) →
  (∀ i x j y k z s s', Keep s s' → P i x j y k z s → P i x j y k z s') →
  (∀ i x j y k z s,
     lx !! i = Some x → ly !! j = Some y → lz !! k = Some z → Inv s →
     ∃ s', body i x j y k z s = Some (Ok s') ∧ Inv s' ∧ P i x j y k z s' ∧ Keep s s') →
  Inv s →
  ∃ s', for_cells cfg xmin xmax ymin ymax zmin zmax fuel body s = Some (Ok s') ∧ Inv s' ∧
        (∀ i x j y k z, lx !! i = Some x → ly !! j = Some y → lz !! k = Some z →
                        P i x j y k z s') ∧
        Keep s s'.
Proof.
  intros Hrefl Htrans Hmono Hbody Hs. unfold for_cells. fold c.
  destruct (for_frange_cover Inv Keep Hrefl Htrans fuel xmin xmax c lx
    (λ i x s, ∀ j y k z, ly !! j = Some y → lz !! k = Some z → P i x j y k z s)
    (λ ix x s,
       for_frange fuel 0 ymin ymax c (λ iy y s,
         for_frange fuel 0 zmin zmax c (λ iz z s, body ix x iy y iz z s) s) s) s Hlx)
    as (s' & Hrun & Hinv & Hdone & Hkeep).
  - intros i x t t' Hk Hd j y k z Hj Hz. eapply Hmono; [exact Hk|]. by apply Hd.
  - intros ix x t Hx Ht.
    destruct (for_frange_cover Inv Keep Hrefl Htrans fuel ymin ymax c ly
      (λ j y s, ∀ k z, lz !! k = Some z → P ix x j y k z s)
      (λ iy y s, for_frange fuel 0 zmin zmax c (λ iz z s, body ix x iy y iz z s) s)
      t Hly) as (t' & Hrun & Hinv & Hdone & Hkeep).
    + intros j y u u' Hk Hd k z Hz. eapply Hmono; [exact Hk|]. by apply Hd.
    + intros iy y u Hy Hu.
      destruct (for_frange_cover Inv Keep Hrefl Htrans fuel zmin zmax c lz
        (λ k z s, P ix x iy y k z s) (λ iz z s, body ix x iy y iz z s) u Hlz)
        as (u' & Hrun & Hinv & Hdone & Hkeep).
      * intros k z w w'. apply Hmono.
      * intros iz z w Hz Hw. by apply Hbody.
      * done.
      * exists u'. split; [done|]. split; [done|]. split; [|done].
        intros k z Hz. by apply Hdone.
    + done.
    + exists t'. split; [done|]. split; [done|]. split; [|done].
      intros j y k z Hj Hz. by apply (Hdone j y Hj).
  - done.
  - exists s'. split; [done|]. split; [done|]. split; [|done].
    intros i x j y k z Hi Hj Hz. by apply (Hdone i x Hi).
Qed.

Definition needs_vertex_3d (x y z : Q) : Prop :=
  ADAPTIVE cfg = false ∨ (2 <= sign_changes_3d cfg f x y z)%nat.

Hypothesis Htotal : solver_total lstsq.
Hypothesis Hc : 0 < c.
Hypothesis Hclip : CLIP cfg = false.
Hypothesis Hf : sign_respects_3d f.

Lemma placer_3d x y z h :
  ∃ h' r, dual_contour_3d_find_best_vertex cfg lstsq f f_normal x y z h = (h', Ok r) ∧
    (needs_vertex_3d x y z → is_Some r) ∧
    (∀ v, r = Some v → BOUNDARY cfg = true → in_cell_3d cfg x y z v).
Proof.
  destruct (find_best_vertex_3d cfg lstsq f f_normal x y z h) as [Hoff Hon].
  destruct (ADAPTIVE cfg) eqn:Had.
  - destruct (Hon eq_refl) as (h' & r & Hrun & Hnone & Hsome).
    destruct (decide (sign_changes_3d cfg f x y z < 2)%nat) as [Hlt|Hge].
    + pose proof Hlt as Hlt'. apply Hnone in Hlt as ->. exists h', None.
      split; [done|]. split; [|done]. intros [Hn|Hn]; [congruence|lia].
    + destruct Hsome as (v & -> & Hin); [done|unfold c in Hc; lra|done|lia|].
      exists h', (Some v). split; [done|]. split; [by eauto|]. by intros ? [= <-].
  - eexists _, _. split; [by apply Hoff|]. split; [by eauto|].
    intros v [= <-] _. unfold in_cell_3d. cbn. fold c. lra.
Qed.

(** A vertex of the array lies in a cell of the grid. *)
Definition in_grid_cell (V : V3) : Prop :=
  BOUNDARY cfg = true →
  ∃ i x j y k z, lx !! i = Some x ∧ ly !! j = Some y ∧ lz !! k = Some z ∧
                 in_cell_3d cfg x y z V.

(** Every index in the dict names a vertex of the array. *)
Definition indexed (vert_array : list V3) (vert_indices : gmap (Z * Z * Z) nat) : Prop :=
  (∀ key n, vert_indices !! key = Some n → 1 ≤ n ≤ length vert_array) ∧
  Forall in_grid_cell vert_array.

Definition covered_3d (i : nat) (x : Q) (j : nat) (y : Q) (k : nat) (z : Q)
    (vert_indices : gmap (Z * Z * Z) nat) : Prop :=
  lx !! i = Some x → ly !! j = Some y → lz !! k = Some z → needs_vertex_3d x y z →
  is_Some (vert_indices !! (Z.of_nat i, Z.of_nat j, Z.of_nat k)).

Lemma place_3d_covers h :
  ∃ h' vert_array vert_indices,
    place_3d cfg lstsq f f_normal xmin xmax ymin ymax zmin zmax fuel h
    = Some (Ok (h', vert_array, vert_indices)) ∧
    indexed vert_array vert_indices ∧
    ∀ i x j y k z, covered_3d i x j y k z vert_indices.
Proof.
  unfold place_3d.
  destruct (for_cells_cover
    (λ st : heap * list V3 * gmap (Z * Z * Z) nat, indexed st.1.2 st.2)
    (λ s s', ∀ i x j y k z, covered_3d i x j y k z s.2 → covered_3d i x j y k z s'.2)
    (λ i x j y k z st, covered_3d i x j y k z st.2)
    (λ ix x iy y iz z st,
       run (dual_contour_3d_find_best_vertex cfg lstsq f f_normal x y z) st.1.1
           (λ vert h',
              match vert with
              | None => (h', st.1.2, st.2)
              | Some vert =>
                  let vert_array := st.1.2 ++ [vert] in
                  (h', vert_array,
                   <[ (Z.of_nat ix, Z.of_nat iy, Z.of_nat iz) := length vert_array ]> st.2)
              end)) (h, [], ∅))
    as ([[h' va] vi] & Hrun & Hinv & Hcov & _).
  - by intros s i x j y k z.
  - intros s1 s2 s3 H12 H23 i x j y k z H. by apply H23, H12.
  - intros i x j y k z s s' Hk. apply Hk.
  - intros i x j y k z [[ht va] vi] Hx Hy Hz [Hidx Hcells]. cbn [fst snd] in *.
    destruct (placer_3d x y z ht) as (h' & r & Hrun & Hneeds & Hin).
    unfold run. rewrite Hrun. eexists. split; [reflexivity|].
    destruct r as [vert|]; cbn [fst snd].
    + split; [|split].
      * split.
        -- intros key n. rewrite length_app. cbn [length].
           destruct (decide (key = (Z.of_nat i, Z.of_nat j, Z.of_nat k))) as [->|Hne].
           ++ rewrite lookup_insert_eq. intros [= <-]. lia.
           ++ rewrite lookup_insert_ne by done. intros Hn%Hidx. lia.
        -- apply Forall_app. split; [done|]. apply Forall_cons_2; [|apply Forall_nil_2].
           intros HB. exists i, x, j, y, k, z. repeat (split; [done|]). by apply Hin.
      * intros _ _ _ _. rewrite lookup_insert_eq. by eexists.
      * intros i' x' j' y' k' z' Hold Hi Hj Hk Hn.
        destruct (decide ((Z.of_nat i', Z.of_nat j', Z.of_nat k')
                          = (Z.of_nat i, Z.of_nat j, Z.of_nat k))) as [->|Hne].
        -- rewrite lookup_insert_eq. by eexists.
        -- rewrite lookup_insert_ne by done. by apply Hold.
    + split; [done|]. split; [|done].
      intros _ _ _ Hn. by destruct (Hneeds Hn).
  - cbn [fst snd]. split; [|constructor]. intros key n. by rewrite lookup_empty.
  - exists h', va, vi. split; [done|]. split; [done|].
    intros i x j y k z Hi Hj Hk. by apply (Hcov i x j y k z Hi Hj Hk).
Qed.

Lemma edge_needs_vertex_3d x y z e e' :
  e ∈ cell_edges_3d cfg f x y z →
  Qlt_bool 0 e.1 = Qlt_bool 0 e'.1 → Qlt_bool 0 e.2 = Qlt_bool 0 e'.2 →
  differ e' = true → needs_vertex_3d x y z.
Proof.
  intros He H1 H2 Hd. right. apply (cell_edge_change_3d x y z e He).
  unfold differ in *. by rewrite H1, H2.
Qed.

Lemma after_first (l : list Q) start stop i v :
  frange fuel start stop c = Some l → l !! i = Some v → Qlt_bool start v = true →
  ∃ i' v', i = S i' ∧ l !! i' = Some v' ∧ v = v' + c.
Proof.
  intros Hl Hv Hlt. destruct i as [|i'].
  - destruct (frange_consecutive _ _ _ _ _ Hl) as [Hhead _]. apply Hhead in Hv as ->.
    apply Qlt_bool_iff in Hlt. lra.
  - destruct (lookup_lt_is_Some_2 l i') as [v' Hv'].
    { apply lookup_lt_Some in Hv. lia. }
    exists i', v'. split; [done|]. split; [done|].
    destruct (frange_consecutive _ _ _ _ _ Hl) as [_ Hnext]. by eapply Hnext.
Qed.

Section Faces.
Variable vert_array : list V3.
Variable vert_indices : gmap (Z * Z * Z) nat.
Hypothesis Hidx : indexed vert_array vert_indices.
Hypothesis Hcov : ∀ i x j y k z, covered_3d i x j y k z vert_indices.

(** A face of the output: a quadrilateral whose four indices name
    vertices of the array. *)
Definition quad_valid (fc : face) : Prop :=
  (∃ a b c d, fc = Quad a b c d) ∧
  Forall (λ i, 1 ≤ i ≤ length vert_array) (face_indices fc).

Lemma add_quad_valid i1 x1 j1 y1 k1 z1 i2 x2 j2 y2 k2 z2
    i3 x3 j3 y3 k3 z3 i4 x4 j4 y4 k4 z4 key1 key2 key3 key4 swap faces :
  key1 = (Z.of_nat i1, Z.of_nat j1, Z.of_nat k1) →
  key2 = (Z.of_nat i2, Z.of_nat j2, Z.of_nat k2) →
  key3 = (Z.of_nat i3, Z.of_nat j3, Z.of_nat k3) →
  key4 = (Z.of_nat i4, Z.of_nat j4, Z.of_nat k4) →
  lx !! i1 = Some x1 → ly !! j1 = Some y1 → lz !! k1 = Some z1 →
  lx !! i2 = Some x2 → ly !! j2 = Some y2 → lz !! k2 = Some z2 →
  lx !! i3 = Some x3 → ly !! j3 = Some y3 → lz !! k3 = Some z3 →
  lx !! i4 = Some x4 → ly !! j4 = Some y4 → lz !! k4 = Some z4 →
  needs_vertex_3d x1 y1 z1 → needs_vertex_3d x2 y2 z2 →
  needs_vertex_3d x3 y3 z3 → needs_vertex_3d x4 y4 z4 →
  Forall quad_valid faces →
  ∃ faces', add_quad vert_indices key1 key2 key3 key4 swap faces = Ok faces' ∧
            Forall quad_valid faces'.
Proof.
  intros -> -> -> -> Hx1 Hy1 Hz1 Hx2 Hy2 Hz2 Hx3 Hy3 Hz3 Hx4 Hy4 Hz4 N1 N2 N3 N4 Hfaces.
  destruct (Hcov _ _ _ _ _ _ Hx1 Hy1 Hz1 N1) as [a Ha].
  destruct (Hcov _ _ _ _ _ _ Hx2 Hy2 Hz2 N2) as [b Hb].
  destruct (Hcov _ _ _ _ _ _ Hx3 Hy3 Hz3 N3) as [c' Hc'].
  destruct (Hcov _ _ _ _ _ _ Hx4 Hy4 Hz4 N4) as [d Hd].
  unfold add_quad, dict_get. rewrite Ha, Hb, Hc', Hd. cbn.
  eexists. split; [reflexivity|]. apply Forall_app. split; [done|].
  apply Forall_cons_2; [|apply Forall_nil_2].
  destruct Hidx as [Hrange _].
  apply Hrange in Ha, Hb, Hc', Hd.
  destruct swap; cbn; (split; [by eexists _, _, _, _|]);
    repeat (apply Forall_cons_2; [lia|]); apply Forall_nil_2.
Qed.

Lemma faces_across_z_valid i x j y k z faces :
  lx !! i = Some x → ly !! j = Some y → lz !! k = Some z → Forall quad_valid faces →
  ∃ faces', faces_across_z cfg f xmin ymin vert_indices
              (Z.of_nat i) x (Z.of_nat j) y (Z.of_nat k) z faces = Ok faces' ∧
            Forall quad_valid faces'.
Proof.
  intros Hx Hy Hz Hfaces. unfold faces_across_z. fold c.
  destruct (Qlt_bool xmin x) eqn:E1; [|by eauto].
  destruct (Qlt_bool ymin y) eqn:E2; [|by eauto]. cbn [andb]. cbn zeta.
  destruct (negb (eqb (Qlt_bool 0 (f x y (z + 0))) (Qlt_bool 0 (f x y (z + c))))) eqn:Hd; [|by eauto].
  destruct (after_first lx xmin xmax i x Hlx Hx E1) as (i' & x' & -> & Hx' & ->).
  destruct (after_first ly ymin ymax j y Hly Hy E2) as (j' & y' & -> & Hy' & ->).
  eapply (add_quad_valid i' x' j' y' k z (S i') (x' + c) j' y' k z (S i') (x' + c) (S j') (y' + c) k z i' x' (S j') (y' + c) k z);
    try eassumption; try (repeat f_equal; lia).
  - apply (edge_needs_vertex_3d x' y' z
             (v_ cfg f x' y' z 1 1 0, v_ cfg f x' y' z 1 1 1) (f (x' + c) (y' + c) (z + 0), f (x' + c) (y' + c) (z + c)));
      [unfold cell_edges_3d; repeat first [apply list_elem_of_here | apply list_elem_of_further]
      |unfold v_, c; cbn [fst snd]; apply Hf; ring
      |unfold v_, c; cbn [fst snd]; apply Hf; ring
      |exact Hd].
  - apply (edge_needs_vertex_3d (x' + c) y' z
             (v_ cfg f (x' + c) y' z 0 1 0, v_ cfg f (x' + c) y' z 0 1 1) (f (x' + c) (y' + c) (z + 0), f (x' + c) (y' + c) (z + c)));
      [unfold cell_edges_3d; repeat first [apply list_elem_of_here | apply list_elem_of_further]
      |unfold v_, c; cbn [fst snd]; apply Hf; ring
      |unfold v_, c; cbn [fst snd]; apply Hf; ring
      |exact Hd].
  - apply (edge_needs_vertex_3d (x' + c) (y' + c) z
             (v_ cfg f (x' + c) (y' + c) z 0 0 0, v_ cfg f (x' + c) (y' + c) z 0 0 1) (f (x' + c) (y' + c) (z + 0), f (x' + c) (y' + c) (z + c)));
      [unfold cell_edges_3d; repeat first [apply list_elem_of_here | apply list_elem_of_further]
      |unfold v_, c; cbn [fst snd]; apply Hf; ring
      |unfold v_, c; cbn [fst snd]; apply Hf; ring
      |exact Hd].
  - apply (edge_needs_vertex_3d x' (y' + c) z
             (v_ cfg f x' (y' + c) z 1 0 0, v_ cfg f x' (y' + c) z 1 0 1) (f (x' + c) (y' + c) (z + 0), f (x' + c) (y' + c) (z + c)));
      [unfold cell_edges_3d; repeat first [apply list_elem_of_here | apply list_elem_of_further]
      |unfold v_, c; cbn [fst snd]; apply Hf; ring
      |unfold v_, c; cbn [fst snd]; apply Hf; ring
      |exact Hd].
Qed.

Lemma faces_across_y_valid i x j y k z faces :
  lx !! i = Some x → ly !! j = Some y → lz !! k = Some z → Forall quad_valid faces →
  ∃ faces', faces_across_y cfg f xmin zmin vert_indices
              (Z.of_nat i) x (Z.of_nat j) y (Z.of_nat k) z faces = Ok faces' ∧
            Forall quad_valid faces'.
Proof.
  intros Hx Hy Hz Hfaces. unfold faces_across_y. fold c.
  destruct (Qlt_bool xmin x) eqn:E1; [|by eauto].
  destruct (Qlt_bool zmin z) eqn:E2; [|by eauto]. cbn [andb]. cbn zeta.
  destruct (negb (eqb (Qlt_bool 0 (f x (y + 0) z)) (Qlt_bool 0 (f x (y + c) z)))) eqn:Hd; [|by eauto].
  destruct (after_first lx xmin xmax i x Hlx Hx E1) as (i' & x' & -> & Hx' & ->).
  destruct (after_first lz zmin zmax k z Hlz Hz E2) as (k' & z' & -> & Hz' & ->).
  eapply (add_quad_valid i' x' j y k' z' (S i') (x' + c) j y k' z' (S i') (x' + c) j y (S k') (z' + c) i' x' j y (S k') (z' + c));
    try eassumption; try (repeat f_equal; lia).
  - apply (edge_needs_vertex_3d x' y z'
             (v_ cfg f x' y z' 1 0 1, v_ cfg f x' y z' 1 1 1) (f (x' + c) (y + 0) (z' + c), f (x' + c) (y + c) (z' + c)));
      [unfold cell_edges_3d; repeat first [apply list_elem_of_here | apply list_elem_of_further]
      |unfold v_, c; cbn [fst snd]; apply Hf; ring
      |unfold v_, c; cbn [fst snd]; apply Hf; ring
      |exact Hd].
  - apply (edge_needs_vertex_3d (x' + c) y z'
             (v_ cfg f (x' + c) y z' 0 0 1, v_ cfg f (x' + c) y z' 0 1 1) (f (x' + c) (y + 0) (z' + c), f (x' + c) (y + c) (z' + c)));
      [unfold cell_edges_3d; repeat first [apply list_elem_of_here | apply list_elem_of_further]
      |unfold v_, c; cbn [fst snd]; apply Hf; ring
      |unfold v_, c; cbn [fst snd]; apply Hf; ring
      |exact Hd].
  - apply (edge_needs_vertex_3d (x' + c) y (z' + c)
             (v_ cfg f (x' + c) y (z' + c) 0 0 0, v_ cfg f (x' + c) y (z' + c) 0 1 0) (f (x' + c) (y + 0) (z' + c), f (x' + c) (y + c) (z' + c)));
      [unfold cell_edges_3d; repeat first [apply list_elem_of_here | apply list_elem_of_further]
      |unfold v_, c; cbn [fst snd]; apply Hf; ring
      |unfold v_, c; cbn [fst snd]; apply Hf; ring
      |exact Hd].
  - apply (edge_needs_vertex_3d x' y (z' + c)
             (v_ cfg f x' y (z' + c) 1 0 0, v_ cfg f x' y (z' + c) 1 1 0) (f (x' + c) (y + 0) (z' + c), f (x' + c) (y + c) (z' + c)));
      [unfold cell_edges_3d; repeat first [apply list_elem_of_here | apply list_elem_of_further]
      |unfold v_, c; cbn [fst snd]; apply Hf; ring
      |unfold v_, c; cbn [fst snd]; apply Hf; ring
      |exact Hd].
Qed.

Lemma faces_across_x_valid i x j y k z faces :
  lx !! i = Some x → ly !! j = Some y → lz !! k = Some z → Forall quad_valid faces →
  ∃ faces', faces_across_x cfg f ymin zmin vert_indices
              (Z.of_nat i) x (Z.of_nat j) y (Z.of_nat k) z faces = Ok faces' ∧
            Forall quad_valid faces'.
Proof.
  intros Hx Hy Hz Hfaces. unfold faces_across_x. fold c.
  destruct (Qlt_bool ymin y) eqn:E1; [|by eauto].
  destruct (Qlt_bool zmin z) eqn:E2; [|by eauto]. cbn [andb]. cbn zeta.
  destruct (negb (eqb (Qlt_bool 0 (f (x + 0) y z)) (Qlt_bool 0 (f (x + c) y z)))) eqn:Hd; [|by eauto].
  destruct (after_first ly ymin ymax j y Hly Hy E1) as (j' & y' & -> & Hy' & ->).
  destruct (after_first lz zmin zmax k z Hlz Hz E2) as (k' & z' & -> & Hz' & ->).
  eapply (add_quad_valid i x j' y' k' z' i x (S j') (y' + c) k' z' i x (S j') (y' + c) (S k') (z' + c) i x j' y' (S k') (z' + c));
    try eassumption; try (repeat f_equal; lia).
  - apply (edge_needs_vertex_3d x y' z'
             (v_ cfg f x y' z' 0 1 1, v_ cfg f x y' z' 1 1 1) (f (x + 0) (y' + c) (z' + c), f (x + c) (y' + c) (z' + c)));
      [unfold cell_edges_3d; repeat first [apply list_elem_of_here | apply list_elem_of_further]
      |unfold v_, c; cbn [fst snd]; apply Hf; ring
      |unfold v_, c; cbn [fst snd]; apply Hf; ring
      |exact Hd].
  - apply (edge_needs_vertex_3d x (y' + c) z'
             (v_ cfg f x (y' + c) z' 0 0 1, v_ cfg f x (y' + c) z' 1 0 1) (f (x + 0) (y' + c) (z' + c), f (x + c) (y' + c) (z' + c)));
      [unfold cell_edges_3d; repeat first [apply list_elem_of_here | apply list_elem_of_further]
      |unfold v_, c; cbn [fst snd]; apply Hf; ring
      |unfold v_, c; cbn [fst snd]; apply Hf; ring
      |exact Hd].
  - apply (edge_needs_vertex_3d x (y' + c) (z' + c)
             (v_ cfg f x (y' + c) (z' + c) 0 0 0, v_ cfg f x (y' + c) (z' + c) 1 0 0) (f (x + 0) (y' + c) (z' + c), f (x + c) (y' + c) (z' + c)));
      [unfold cell_edges_3d; repeat first [apply list_elem_of_here | apply list_elem_of_further]
      |unfold v_, c; cbn [fst snd]; apply Hf; ring
      |unfold v_, c; cbn [fst snd]; apply Hf; ring
      |exact Hd].
  - apply (edge_needs_vertex_3d x y' (z' + c)
             (v_ cfg f x y' (z' + c) 0 1 0, v_ cfg f x y' (z' + c) 1 1 0) (f (x + 0) (y' + c) (z' + c), f (x + c) (y' + c) (z' + c)));
      [unfold cell_edges_3d; repeat first [apply list_elem_of_here | apply list_elem_of_further]
      |unfold v_, c; cbn [fst snd]; apply Hf; ring
      |unfold v_, c; cbn [fst snd]; apply Hf; ring
      |exact Hd].
Qed.

Lemma faces_3d_valid :
  ∃ faces, faces_3d cfg f xmin xmax ymin ymax zmin zmax fuel vert_indices
           = Some (Ok faces) ∧
           Forall quad_valid faces.
Proof.
  unfold faces_3d.
  destruct (for_cells_cover (Forall quad_valid) (λ _ _, True) (λ _ _ _ _ _ _ _, True)
    (λ ix x iy y iz z faces,
       let ix := Z.of_nat ix in let iy := Z.of_nat iy in let iz := Z.of_nat iz in
       Some (faces ← faces_across_z cfg f xmin ymin vert_indices ix x iy y iz z faces;
             faces ← faces_across_y cfg f xmin zmin vert_indices ix x iy y iz z faces;
             faces_across_x cfg f ymin zmin vert_indices ix x iy y iz z faces)) [])
    as (faces & Hrun & Hall & _); try done.
  - intros i x j y k z faces Hx Hy Hz Hfaces. cbn zeta.
    destruct (faces_across_z_valid i x j y k z faces Hx Hy Hz Hfaces) as (f1 & -> & H1).
    destruct (faces_across_y_valid i x j y k z f1 Hx Hy Hz H1) as (f2 & E2 & H2).
    destruct (faces_across_x_valid i x j y k z f2 Hx Hy Hz H2) as (f3 & E3 & H3).
    cbn. rewrite E2. cbn. rewrite E3. by exists f3.
  - by exists faces.
Qed.

End Faces.

End Grid3D.



End WithSolver.

Lemma saddle_sign_respects : sign_respects_2d Examples.saddle.
Proof.
  intros x x' y y' Hx Hy. unfold Qlt_bool. f_equal. apply Qleb_comp; [|reflexivity].
  unfold Examples.saddle. by rewrite Hx, Hy.
Qed.

Lemma plane_sign_respects : sign_respects_3d (λ x y z, x + y + z - 1).
Proof.
  intros x x' y y' z z' Hx Hy Hz. unfold Qlt_bool. f_equal.
  apply Qleb_comp; [|reflexivity]. by rewrite Hx, Hy, Hz.
Qed.



End DualContourGridFacts.

(** ** More on the QEF solver *)

Module QefMore.
Import Qef QefFacts.
#[local] Open Scope Q_scope.

Section WithSolver.
Variable cfg : settings.
Variable lstsq : matrix → vec → result (vec * vec).

(** X17: for a well-formed input, a cell size that is not negative and a
    solver that answers, [solve_qef_2d] and [solve_qef_3d] end in one of
    two ways: they return a vertex, which lies in the cell as soon as
    [BOUNDARY] or [CLIP] is on, or they raise TypeError, and then both
    switches are on.  In particular [CLIP] alone keeps the vertex in the
    cell. *)
Theorem solve_qef_outcome :
  solver_total lstsq → 0 <= CELL_SIZE cfg →
  (∀ x y h positions normals ps ns,
     inputs_wf 2 h positions normals ps ns →
     ∃ h' r, solve_qef_2d cfg lstsq x y positions normals h = (h', r) ∧
       match r with
       | Ok v => BOUNDARY cfg = true ∨ CLIP cfg = true → in_cell_2d cfg x y v
       | Raise e => e = TypeError ∧ BOUNDARY cfg = true ∧ CLIP cfg = true
       end) ∧
  (∀ x y z h positions normals ps ns,
     inputs_wf 3 h positions normals ps ns →
     ∃ h' r, solve_qef_3d cfg lstsq x y z positions normals h = (h', r) ∧
       match r with
       | Ok v => BOUNDARY cfg = true ∨ CLIP cfg = true → in_cell_3d cfg x y z v
       | Raise e => e = TypeError ∧ BOUNDARY cfg = true ∧ CLIP cfg = true
       end).
Proof.
  intros Htotal Hc. split.
  - intros x y h positions normals ps ns Hwf. by eapply solve_qef_2d_outcome.
  - intros x y z h positions normals ps ns Hwf. by eapply solve_qef_3d_outcome.
Qed.

(** X18: on two empty lists [solve_qef_2d] and [solve_qef_3d] raise
    IndexError, whatever the settings and the solver.  With [BIAS] off
    nothing has changed by then ([A.shape[1]] of an empty array); with
    [BIAS] on the bias entries have been appended, the mean of no
    position being the scalar nan, which [make_2d] cannot index. *)
Theorem solve_qef_empty_input (x y z : Q) (h : heap) (positions normals : loc) :
  h !! positions = Some (Points []) → h !! normals = Some (Points []) →
  positions ≠ normals →
  let s := BIAS_STRENGTH cfg in
  (∃ h', solve_qef_2d cfg lstsq x y positions normals h = (h', Raise IndexError) ∧
     (BIAS cfg = false → h' = h) ∧
     (BIAS cfg = true →
      h' !! positions = Some (Points [NanScalar; NanScalar]) ∧
      h' !! normals = Some (Points [Vec [s; 0]; Vec [0; s]]))) ∧
  (∃ h', solve_qef_3d cfg lstsq x y z positions normals h = (h', Raise IndexError) ∧
     (BIAS cfg = false → h' = h) ∧
     (BIAS cfg = true →
      h' !! positions = Some (Points [NanScalar; NanScalar; NanScalar]) ∧
      h' !! normals = Some (Points [Vec [s; 0; 0]; Vec [0; s; 0]; Vec [0; 0; s]]))).
Proof.
  intros Hp Hn Hne s. split.
  - unfold solve_qef_2d. destruct (BIAS cfg).
    + erewrite bind_ok by (by apply (bias_2d_run cfg h positions normals [] [] NanScalar)).
      pose proof (bias_heap_2d_positions cfg h positions normals [] [] NanScalar
                    (lookup_lt_Some _ _ _ Hp)) as Hp'.
      pose proof (bias_heap_2d_normals cfg h positions normals [] [] NanScalar
                    (lookup_lt_Some _ _ _ Hn) Hne) as Hn'.
      cbn [app] in Hp', Hn'. fold s in Hn'.
      eexists. split; [|split; [intros [=]|intros _; split; [exact Hp'|exact Hn']]].
      erewrite bind_raise; [reflexivity|].
      unfold make_2d.
      erewrite bind_ok by (by apply read_points_run). cbn.
      erewrite bind_ok by apply lift_run.
      erewrite bind_ok by (by apply read_points_run). cbn.
      erewrite bind_raise; [reflexivity|]. apply lift_run.
    + erewrite bind_ok by apply ret_run.
      exists h. split; [|split; [done|by intros [=]]].
      erewrite bind_raise; [reflexivity|].
      unfold make_2d.
      erewrite bind_ok by (by apply read_points_run). cbn.
      erewrite bind_ok by apply lift_run.
      erewrite bind_ok by (by apply read_points_run). cbn.
      erewrite bind_ok by apply lift_run.
      erewrite bind_raise; [reflexivity|]. apply lift_run.
  - unfold solve_qef_3d. destruct (BIAS cfg).
    + erewrite bind_ok by (by apply (bias_3d_run cfg h positions normals [] [] NanScalar)).
      pose proof (bias_heap_3d_positions cfg h positions normals [] [] NanScalar
                    (lookup_lt_Some _ _ _ Hp)) as Hp'.
      pose proof (bias_heap_3d_normals cfg h positions normals [] [] NanScalar
                    (lookup_lt_Some _ _ _ Hn) Hne) as Hn'.
      cbn [app] in Hp', Hn'. fold s in Hn'.
      eexists. split; [|split; [intros [=]|intros _; split; [exact Hp'|exact Hn']]].
      erewrite bind_raise; [reflexivity|].
      unfold make_3d.
      erewrite bind_ok by (by apply read_points_run). cbn.
      erewrite bind_ok by apply lift_run.
      erewrite bind_ok by (by apply read_points_run). cbn.
      erewrite bind_raise; [reflexivity|]. apply lift_run.
    + erewrite bind_ok by apply ret_run.
      exists h. split; [|split; [done|by intros [=]]].
      erewrite bind_raise; [reflexivity|].
      unfold make_3d.
      erewrite bind_ok by (by apply read_points_run). cbn.
      erewrite bind_ok by apply lift_run.
      erewrite bind_ok by (by apply read_points_run). cbn.
      erewrite bind_ok by apply lift_run.
      erewrite bind_raise; [reflexivity|]. apply lift_run.
Qed.

(** *** The error term

    The comment in [solve_qef_2d] says what is minimised: the sum of
    [dot(x - v[i], n[i]) ^ 2]. *)

(** [dot(n[i], p - v[i])] for each position and its normal. *)
Definition plane_errors (p : vec) (ps ns : list item) : vec :=
  (λ vn : item * item, dot (vec_of vn.2) (zip_with Qminus p (vec_of vn.1))) <$> zip ps ns.

Definition sum_squares (v : vec) : Q := sum_Q ((λ a, a * a) <$> v).

Lemma foldl_Qplus_proper (u v : vec) (a c : Q) :
  a == c → Forall2 Qeq u v → foldl Qplus a u == foldl Qplus c v.
Proof.
  intros Hac Huv. revert a c Hac.
  induction Huv as [|x y u v Hxy _ IH]; intros a c Hac; cbn; [done|].
  apply IH. by rewrite Hac, Hxy.
Qed.

Lemma sum_squares_proper (u v : vec) :
  Forall2 Qeq u v → sum_squares u == sum_squares v.
Proof.
  intros Huv. unfold sum_squares, sum_Q. apply foldl_Qplus_proper; [done|].
  induction Huv as [|x y u v Hxy _ IH]; cbn; constructor; [by rewrite Hxy|done].
Qed.

Lemma errors_2d (p0 p1 : Q) (ps ns : list item) :
  points 2 ps → points 2 ns →
  Forall2 Qeq (zip_with Qminus ((λ r, dot r [p0; p1]) <$> (vec_of <$> ns)) (b_2d ps ns))
              (plane_errors [p0; p1] ps ns).
Proof.
  intros Hps. revert ns.
  induction Hps as [|v ps Hv _ IH]; intros ns Hns.
  - destruct ns; constructor.
  - destruct Hns as [|n ns Hn Hns]; [constructor|].
    cbn [fmap list_fmap zip zip_with b_2d plane_errors]. constructor; [|by apply IH].
    destruct v as [[|v0 [|v1 [|]]]|], n as [[|n0 [|n1 [|]]]|]; try done.
    unfold dot, sum_Q. cbn. ring.
Qed.

Lemma errors_3d (p0 p1 p2 : Q) (ps ns : list item) :
  points 3 ps → points 3 ns →
  Forall2 Qeq (zip_with Qminus ((λ r, dot r [p0; p1; p2]) <$> (vec_of <$> ns)) (b_3d ps ns))
              (plane_errors [p0; p1; p2] ps ns).
Proof.
  intros Hps. revert ns.
  induction Hps as [|v ps Hv _ IH]; intros ns Hns.
  - destruct ns; constructor.
  - destruct Hns as [|n ns Hn Hns]; [constructor|].
    cbn [fmap list_fmap zip zip_with b_3d plane_errors]. constructor; [|by apply IH].
    destruct v as [[|v0 [|v1 [|v2 [|]]]]|], n as [[|n0 [|n1 [|n2 [|]]]]|]; try done.
    unfold dot, sum_Q. cbn. ring.
Qed.

(** X19: the QEF that [make_2d] and [make_3d] build from positions and
    normals measures the distance to the planes through the positions:
    [evaluate] at a point [p] is the square root of the sum of the
    squares of [dot(n[i], p - v[i])]. *)
Theorem evaluate_is_plane_error (h : heap) (positions normals : loc) (ps ns : list item) :
  (inputs_wf 2 h positions normals ps ns →
   ∃ h' q, make_2d positions normals h = (h', Ok q) ∧
     ∀ p, length p = 2%nat →
       ∃ sq, evaluate q p = Ok (Norm sq) ∧ sq == sum_squares (plane_errors p ps ns)) ∧
  (inputs_wf 3 h positions normals ps ns →
   ∃ h' q, make_3d positions normals h = (h', Ok q) ∧
     ∀ p, length p = 3%nat →
       ∃ sq, evaluate q p = Ok (Norm sq) ∧ sq == sum_squares (plane_errors p ps ns)).
Proof.
  split; intros (Hp & Hn & _ & Hps & Hns & Hne & Hlen).
  - eexists _, _. split; [by apply make_2d_run|].
    intros [|p0 [|p1 [|]]] Hl; try done.
    eexists. split.
    + apply evaluate_ok; cbn.
      * by apply (rect_points 2).
      * unfold b_2d. rewrite !length_fmap, length_zip. lia.
    + cbn [A b]. apply sum_squares_proper. by apply errors_2d.
  - eexists _, _. split; [by apply make_3d_run|].
    intros [|p0 [|p1 [|p2 [|]]]] Hl; try done.
    eexists. split.
    + apply evaluate_ok; cbn.
      * by apply (rect_points 3).
      * unfold b_3d. rewrite !length_fmap, length_zip. lia.
    + cbn [A b]. apply sum_squares_proper. by apply errors_3d.
Qed.

End WithSolver.

(** With [BOUNDARY] and [CLIP] both on, at the saddle: the run ends in
    one of the two ways. *)
Lemma solve_qef_outcome_witness :
  ∃ h' r, solve_qef_2d Examples.clip_on Lstsq.lstsq_exact 0 0 0%nat 1%nat
            Examples.saddle_heap = (h', r) ∧
    match r with
    | Ok v => BOUNDARY Examples.clip_on = true ∨ CLIP Examples.clip_on = true →
              in_cell_2d Examples.clip_on 0 0 v
    | Raise e => e = TypeError ∧ BOUNDARY Examples.clip_on = true ∧
                 CLIP Examples.clip_on = true
    end.
Proof.
  destruct (solve_qef_outcome Examples.clip_on Lstsq.lstsq_exact) as [H2 _].
  - exact Examples.lstsq_exact_total.
  - vm_compute. discriminate.
  - destruct Examples.saddle_heap_wf as (ps & ns & Hwf).
    exact (H2 0 0 Examples.saddle_heap 0%nat 1%nat ps ns Hwf).
Defined.

(** Two empty lists at locations 0 and 1, default settings. *)
Lemma solve_qef_empty_input_witness :
  (solve_qef_2d defaults Lstsq.lstsq_exact 0 0 0%nat 1%nat
     [Points []; Points []]).2 = Raise IndexError ∧
  (solve_qef_3d defaults Lstsq.lstsq_exact 0 0 0 0%nat 1%nat
     [Points []; Points []]).2 = Raise IndexError.
Proof.
  destruct (solve_qef_empty_input defaults Lstsq.lstsq_exact 0 0 0
              [Points []; Points []] 0%nat 1%nat)
    as [(h2 & H2 & _) (h3 & H3 & _)].
  - reflexivity.
  - reflexivity.
  - discriminate.
  - rewrite H2, H3. split; reflexivity.
Defined.

(** The error of the saddle's planes at the corner (1, 1). *)
Lemma evaluate_is_plane_error_witness :
  ∃ h' q ps ns sq,
    make_2d 0%nat 1%nat Examples.saddle_heap = (h', Ok q) ∧
    Examples.saddle_heap !! 0%nat = Some (Points ps) ∧
    Examples.saddle_heap !! 1%nat = Some (Points ns) ∧
    evaluate q [1; 1] = Ok (Norm sq) ∧
    sq == sum_squares (plane_errors [1; 1] ps ns).
Proof.
  destruct Examples.saddle_heap_wf as (ps & ns & Hwf).
  destruct (evaluate_is_plane_error Examples.saddle_heap 0%nat 1%nat ps ns) as [H2 _].
  destruct (H2 Hwf) as (h' & q & Hmake & Heval).
  destruct (Heval [1; 1] eq_refl) as (sq & Hsq & Heq).
  destruct Hwf as (Hp & Hn & _).
  exists h', q, ps, ns, sq. done.
Defined.

End QefMore.

(** ** The sample fields *)

Module SampleFieldFacts.
Import Qef SampleFields.
#[local] Open Scope Q_scope.

Lemma Qlt_bool_spec (a c : Q) : reflect (a < c) (Qlt_bool a c).
Proof.
  destruct (Qlt_bool a c) eqn:E; constructor.
  - by apply Qlt_bool_iff.
  - intros H. apply Qlt_bool_iff in H. congruence.
Qed.

Ltac abs_cases :=
  repeat match goal with
  | |- context [Qabs ?a] => apply (Qabs_case a); intros ?
  | H : context [Qabs ?a] |- _ => revert H; apply (Qabs_case a); intros ? H
  end.

Ltac bool_cases :=
  repeat match goal with
  | |- context [Qlt_bool ?a ?c] => destruct (Qlt_bool_spec a c)
  | H : context [Qlt_bool ?a ?c] |- _ => destruct (Qlt_bool_spec a c)
  end.

(** X20: [square_normal] points to negative x where [|x| > |y|] and to
    negative y where [|y| > |x|], with the length of the larger
    coordinate, whichever the side of the square.  [square_function]
    falls along the larger coordinate where that is positive and rises
    where it is negative: the normal points up the field on the right
    and upper sides of the square, and down the field on the left and
    lower sides. *)
Theorem square_normal_one_direction (x y d : Q) :
  0 < d →
  (Qabs y < Qabs x → d <= Qabs x - Qabs y →
   square_normal x y = mk_V2 (- Qabs x) 0 ∧
   square_function (x + d) y - square_function x y == (if Qlt_bool 0 x then - d else d)) ∧
  (Qabs x < Qabs y → d <= Qabs y - Qabs x →
   square_normal x y = mk_V2 0 (- Qabs y) ∧
   square_function x (y + d) - square_function x y == (if Qlt_bool 0 y then - d else d)).
Proof.
  intros Hd. split; intros Hlt Hle.
  - split.
    + unfold square_normal. destruct (Qlt_bool_spec (Qabs y) (Qabs x)); [done|contradiction].
    + unfold square_function, max2. revert Hlt Hle. abs_cases; bool_cases; lra.
  - split.
    + unfold square_normal. destruct (Qlt_bool_spec (Qabs y) (Qabs x)); [lra|done].
    + unfold square_function, max2. revert Hlt Hle. abs_cases; bool_cases; lra.
Qed.

Lemma square_normal_one_direction_witness :
  square_normal (-2) 0 = mk_V2 (- Qabs (-2)) 0 ∧
  square_function (-2 + 1) 0 - square_function (-2) 0 == 1.
Proof.
  destruct (square_normal_one_direction (-2) 0 1) as [H _]; [reflexivity|].
  apply H; [reflexivity|]. vm_compute. discriminate.
Defined.

(** X21: [intersect_function] is [|x - 0.5| - |y - 0.3|]: it is
    positive exactly in the two wedges left and right of (0.5, 0.3), and the
    3D field is the 2D one, whatever [z]. *)
Theorem intersect_function_wedges (x y z : Q) :
  intersect_function x y == Qabs (x - 0.5) - Qabs (y - 0.3) ∧
  (0 < intersect_function x y ↔ Qabs (y - 0.3) < Qabs (x - 0.5)) ∧
  intersect_function_3d x y z = intersect_function x y.
Proof.
  assert (H : intersect_function x y == Qabs (x - 0.5) - Qabs (y - 0.3)).
  { unfold intersect_function, min2. cbv zeta. abs_cases; bool_cases; lra. }
  split; [exact H|]. split; [|reflexivity].
  rewrite H. split; intros ?; lra.
Qed.

End SampleFieldFacts.
